(** * MC-Explorer: the incremental relationship graph engine

    A shallow embedding of the graph logic of
    [mc-explorer-client/src/SchemaBuilder.js]: the merge helper
    [dedupeById], the relationship classifier, the graph-assembly pass of
    [updateGraph] (connection index, orphan split, selection highlight)
    and the two expansion handlers [expandSelectedNode] and
    [expandSelectedNodeRecursively].

    Conventions of the embedding.
    - A JavaScript property of which the code only tests the truthiness,
      or which it reads through optional chaining, is an [option]; [None]
      is [undefined] or [null], which such code cannot tell apart.
    - The [id], [source] and [target] of an element, which the code uses as
      keys of a [Map] and members of a [Set], are [jsval]s: [undefined],
      [null] or a string, three different keys as in JavaScript
      (SameValueZero).  Identifiers are strings, as in the data model
      ([id: string]); the empty string is the only falsy string.
    - A JavaScript [Map] is an insertion-ordered association list with
      unique keys ([JsMap]); a [Set] whose order is never observed is a
      [gset].
    - A [TypeError] raised by the code is the [None] of an [option]
      result.
    - [console.warn] and [console.error] calls are recorded in a list of
      diagnostics; the informational [console.log] calls, the debug
      statistics ([debugData]), the write-only [edgeMap] and the styling
      of nodes and edges that follows the assembly pass are left out. *)

From stdpp Require Import gmap strings list.

#[local] Set Warnings "-clear-no-such-hyp".

Local Open Scope string_scope.
Local Open Scope list_scope.

(** ** JavaScript values *)

(** A value that is used as the key of a [Map], as the member of a [Set]
    or in a template string: [undefined], [null] or a string. *)
Inductive jsval :=
  | Undefined
  | Null
  | Str (s : string).

#[global] Instance jsval_eq_dec : EqDecision jsval.
Proof. solve_decision. Defined.

#[global] Instance jsval_countable : Countable jsval :=
  inj_countable'
    (λ v, match v with
          | Undefined => inl false
          | Null => inl true
          | Str s => inr s
          end)
    (λ x, match x with
          | inl false => Undefined
          | inl true => Null
          | inr s => Str s
          end)
    (λ v, match v with
          | Undefined => eq_refl
          | Null => eq_refl
          | Str s => eq_refl
          end).

(** A value where the code only tests its truthiness and then uses it as a
    string: [undefined] and [null] are both [None]. *)
Definition strOf (v : jsval) : option string :=
  match v with
  | Str s => Some s
  | Undefined | Null => None
  end.

(** Truthiness of a possibly missing string: [undefined], [null] and [""]
    are falsy. *)
Definition truthy (v : option string) : bool :=
  match v with
  | Some s => negb (bool_decide (s = ""))
  | None => false
  end.

(** The value of [v] where the code has tested it ([if (v)], [v && ...],
    [.filter(Boolean)]): [None] when it is falsy. *)
Definition asTruthy (v : option string) : option string :=
  if truthy v then v else None.

(** [a || b] *)
Definition js_or (a b : option string) : option string :=
  if truthy a then a else b.

(** [arr || []] *)
Definition orEmpty {A} (arr : option (list A)) : list A :=
  match arr with
  | Some l => l
  | None => []
  end.

(** [str.includes(needle)] *)
Fixpoint includes (needle str : string) : bool :=
  String.prefix needle str ||
  match str with
  | EmptyString => false
  | String _ rest => includes needle rest
  end.

(** ** Insertion-ordered maps ([new Map()]) *)

Module JsMap.
Section defs.
Context {K V : Type} `{EqDecision K}.

(** [map.get(k)] *)
Fixpoint get (k : K) (m : list (K * V)) : option V :=
match m with
| [] => None
| (k', v) :: rest => if decide (k = k') then Some v else get k rest
end.

(** [map.has(k)] *)
Definition has (k : K) (m : list (K * V)) : bool :=
match get k m with
| Some _ => true
| None => false
end.

(** [map.set(k, v)]: a present key keeps its position and takes the new
  value, a new key goes last. *)
Fixpoint set (k : K) (v : V) (m : list (K * V)) : list (K * V) :=
match m with
| [] => [(k, v)]
| (k', v') :: rest =>
    if decide (k = k') then (k, v) :: rest else (k', v') :: set k v rest
end.

(** Mutation of the object stored under [k] (a reference obtained by
  [map.get(k)]); nothing happens when the key is absent. *)
Fixpoint modify (k : K) (f : V → V) (m : list (K * V)) : list (K * V) :=
match m with
| [] => []
| (k', v) :: rest =>
    if decide (k = k') then (k', f v) :: rest else (k', v) :: modify k f rest
end.

(** [Array.from(map.keys())], [Array.from(map.values())] *)
Definition keys (m : list (K * V)) : list K := fst <$> m.
Definition values (m : list (K * V)) : list V := snd <$> m.
End defs.
End JsMap.

(** ** Graph elements *)

(** Values of a node's [metadata] object. *)
Inductive mval :=
  | MBool (b : bool)
  | MNum (z : Z)
  | MStr (s : string).

(** The [data] object of a node or an edge, with the properties the engine
    reads. *)
Record edata := EData {
  data_id : jsval;
  data_source : jsval;
  data_target : jsval;
  data_type : option string;
  data_label : option string;
  data_metadata : option (gmap string mval)
}.

(** An element of a payload: [{ data: {...}, id? }]. *)
Record element := Element {
  el_data : option edata;
  el_id : option string
}.

(** [{ nodes, edges }] *)
Record graphData := GraphData {
  nodes : option (list element);
  edges : option (list element)
}.

(** [el?.data?.id] where the code goes on to test its truthiness. *)
Definition dataId (el : element) : option string :=
  d ← el_data el; strOf (data_id d).

(** [node.data.id] as a key of [nodeConnections], for a node that has a
    [data] object. *)
Definition dataKey (el : element) : jsval :=
  match el_data el with
  | Some d => data_id d
  | None => Undefined
  end.

(** ** Graph merger *)

(** The key [dedupeById] files an element under:
    [const id = el?.data?.id || el?.id; if (!id) continue;] *)
Definition elementKey (el : element) : option string :=
  asTruthy (js_or (dataId el) (el_id el)).

Fixpoint dedupeLoop (arr : list element) (map : list (string * element))
  : list (string * element) :=
  match arr with
  | [] => map
  | el :: rest =>
      match elementKey el with
      | None => dedupeLoop rest map
      | Some id =>
          if JsMap.has id map then dedupeLoop rest map
          else dedupeLoop rest (JsMap.set id el map)
      end
  end.

Definition dedupeById (arr : list element) : list element :=
  JsMap.values (dedupeLoop arr []).

(** ** Relationship classifier *)

Inductive tier := direct | indirect | metadata | unknown.

Definition directTypes : list string :=
  ["writes_to"; "reads_from"; "imports_to_de"; "updates_de";
   "journey_entry_source"; "filters_to"; "filters_from"].
Definition indirectTypes : list string :=
  ["contains_query"; "executes_query"; "triggers_automation";
   "executes_activity"; "next_step"].
Definition metadataTypes : list string :=
  ["filters_de"; "uses_in_decision"; "provides_data_to"].

(** [types.includes(relationshipType)] on an array of strings *)
Definition arrayIncludes (types : list string) (v : option string) : bool :=
  match v with
  | Some s => bool_decide (s ∈ types)
  | None => false
  end.

Definition classifyRelationship (relationshipType : option string) : tier :=
  if arrayIncludes directTypes relationshipType then direct
  else if arrayIncludes indirectTypes relationshipType then indirect
  else if arrayIncludes metadataTypes relationshipType then metadata
  else unknown.

(** ** Connectivity indexer *)

(** Entries of [connection.inbound] and [connection.outbound]. *)
Record inConn := InConn {
  in_edgeId : jsval;
  sourceId : jsval;
  in_type : option string;
  in_label : option string;
  in_level : tier
}.

Record outConn := OutConn {
  out_edgeId : jsval;
  targetId : jsval;
  out_type : option string;
  out_label : option string;
  out_level : tier
}.

(** The record [nodeConnections] holds for a node. *)
Record connection := Connection {
  node : element;
  inbound : list inConn;
  outbound : list outConn;
  hasDirectConnections : bool;
  hasIndirectConnections : bool;
  hasMetadataConnections : bool;
  totalConnections : nat
}.

(** Entries of [validEdges]. *)
Record edgeInfo := EdgeInfo {
  edge : element;
  level : tier;
  isDirect : bool;
  isIndirect : bool;
  isMetadata : bool
}.

Inductive diag :=
  | GraphLoadError                                 (* loadGraphData: console.error *)
  | InvalidEdge (source target : jsval)            (* updateGraph: console.warn *)
  | ExpandFailed                                   (* expandSelectedNode: console.error *)
  | ExpandNodeFailed (nodeId : string)             (* recursive expansion: console.warn *)
  | ExpandAllError.                                (* recursive expansion: console.error *)

Definition newConnection (n : element) : connection :=
  {| node := n; inbound := []; outbound := [];
     hasDirectConnections := false; hasIndirectConnections := false;
     hasMetadataConnections := false; totalConnections := 0 |}.

(** [mergedGraphData.nodes.forEach(node => nodeConnections.set(node.data.id, {...}))];
    a node without [data] raises a TypeError. *)
Fixpoint initConnections (ns : list element)
    (nodeConnections : list (jsval * connection))
  : option (list (jsval * connection)) :=
  match ns with
  | [] => Some nodeConnections
  | n :: rest =>
      d ← el_data n;
      initConnections rest (JsMap.set (data_id d) (newConnection n) nodeConnections)
  end.

(** The writes of one valid edge to the record of its source, in source
    order: [outbound.push], the [has...Connections] flag, [totalConnections++]. *)
Definition touchSource (d : edata) (lvl : tier) (c : connection) : connection :=
  {| node := node c;
     inbound := inbound c;
     outbound := outbound c ++
       [{| out_edgeId := data_id d; targetId := data_target d;
           out_type := data_type d; out_label := data_label d; out_level := lvl |}];
     hasDirectConnections :=
       match lvl with direct => true | _ => hasDirectConnections c end;
     hasIndirectConnections :=
       match lvl with indirect => true | _ => hasIndirectConnections c end;
     hasMetadataConnections :=
       match lvl with metadata => true | _ => hasMetadataConnections c end;
     totalConnections := S (totalConnections c) |}.

(** The same for the record of its target: [inbound.push], flag, counter. *)
Definition touchTarget (d : edata) (lvl : tier) (c : connection) : connection :=
  {| node := node c;
     inbound := inbound c ++
       [{| in_edgeId := data_id d; sourceId := data_source d;
           in_type := data_type d; in_label := data_label d; in_level := lvl |}];
     outbound := outbound c;
     hasDirectConnections :=
       match lvl with direct => true | _ => hasDirectConnections c end;
     hasIndirectConnections :=
       match lvl with indirect => true | _ => hasIndirectConnections c end;
     hasMetadataConnections :=
       match lvl with metadata => true | _ => hasMetadataConnections c end;
     totalConnections := S (totalConnections c) |}.

(** [edge.data.source.includes('FilterActivity') ||
     edge.data.target.includes('FilterActivity')]: [Some b] is the value,
    [None] the TypeError of calling [includes] on [undefined] or [null];
    the right operand is only evaluated when the left one is false. *)
Definition filterActivityCheck (d : edata) : option bool :=
  s ← strOf (data_source d);
  if includes "FilterActivity" s then Some true
  else t ← strOf (data_target d); Some (includes "FilterActivity" t).

(** State of the pass over the edges. *)
Record indexState := IndexState {
  nodeConnections : list (jsval * connection);
  validEdges : list edgeInfo;
  warnings : list diag
}.

(** Body of [mergedGraphData.edges.forEach(edge => ...)].  [sourceConn] and
    [targetConn] are references into [nodeConnections]; for a self-loop
    they are the same object, which the two successive [modify] steps on
    the store reproduce. *)
Definition processEdge (st : indexState) (e : element) : option indexState :=
  d ← el_data e;
  match JsMap.get (data_source d) (nodeConnections st),
        JsMap.get (data_target d) (nodeConnections st) with
  | Some _, Some _ =>
      let relationshipLevel := classifyRelationship (data_type d) in
      let edgeInfo :=
        {| edge := e; level := relationshipLevel;
           isDirect := match relationshipLevel with direct => true | _ => false end;
           isIndirect := match relationshipLevel with indirect => true | _ => false end;
           isMetadata := match relationshipLevel with metadata => true | _ => false end |} in
      _ ← filterActivityCheck d;
      Some {| nodeConnections :=
                JsMap.modify (data_target d) (touchTarget d relationshipLevel)
                  (JsMap.modify (data_source d) (touchSource d relationshipLevel)
                     (nodeConnections st));
              validEdges := validEdges st ++ [edgeInfo];
              warnings := warnings st |}
  | _, _ =>
      Some {| nodeConnections := nodeConnections st;
              validEdges := validEdges st;
              warnings := warnings st ++ [InvalidEdge (data_source d) (data_target d)] |}
  end.

Fixpoint processEdges (st : indexState) (es : list element) : option indexState :=
  match es with
  | [] => Some st
  | e :: rest => st' ← processEdge st e; processEdges st' rest
  end.

(** [nodeConnections.forEach((connection, nodeId) => ...)]: nodes with
    [totalConnections > 0] are pushed to [connectedNodes], the others to
    [orphanNodes]. *)
Fixpoint splitNodes (conns : list (jsval * connection))
    (connectedNodes orphanNodes : list element) : list element * list element :=
  match conns with
  | [] => (connectedNodes, orphanNodes)
  | (_, c) :: rest =>
      if bool_decide (0 < totalConnections c)
      then splitNodes rest (connectedNodes ++ [node c]) orphanNodes
      else splitNodes rest connectedNodes (orphanNodes ++ [node c])
  end.

(** [{...node, data: {...node.data, metadata: {...node.data.metadata, isOrphan: true}}}] *)
Definition styleOrphan (n : element) : option element :=
  d ← el_data n;
  Some {| el_data := Some
            {| data_id := data_id d; data_source := data_source d;
               data_target := data_target d; data_type := data_type d;
               data_label := data_label d;
               data_metadata :=
                 Some (<["isOrphan" := MBool true]> (default ∅ (data_metadata d))) |};
          el_id := el_id n |}.


(** ** Selection highlighter *)

(** Lines 742-760 of [updateGraph]: the two [Set]s filled from the record of
    the selected node; a truthy [selectedNodeId] is a string. *)
Definition highlight (selectedNodeId : option string)
    (conns : list (jsval * connection))
  : gset jsval * gset jsval :=
  match asTruthy selectedNodeId with
  | Some s =>
      let highlightedNodes : gset jsval := {[ Str s ]} in
      match JsMap.get (Str s) conns with
      | Some selectedConnection =>
          let '(hn, he) :=
            foldl (λ '(hn, he) conn, (hn ∪ {[ sourceId conn ]}, he ∪ {[ in_edgeId conn ]}))
                  (highlightedNodes, ∅) (inbound selectedConnection) in
          foldl (λ '(hn, he) conn, (hn ∪ {[ targetId conn ]}, he ∪ {[ out_edgeId conn ]}))
                (hn, he) (outbound selectedConnection)
      | None => (highlightedNodes, ∅)
      end
  | None => (∅, ∅)
  end.

(** ** The graph-assembly pass of [updateGraph] *)

(** [mergedGraphData]: both fields are always arrays. *)
Record mergedGraph := MergedGraph {
  merged_nodes : list element;
  merged_edges : list element
}.

(** What the pass has computed when it reaches the styling of the
    elements (line 760). *)
Record assembly := Assembly {
  asm_connections : list (jsval * connection);
  asm_validEdges : list edgeInfo;
  connectedNodes : list element;
  orphanNodes : list element;
  finalNodes : list element;
  highlightedNodes : gset jsval;
  highlightedEdges : gset jsval;
  asm_console : list diag
}.

(** [Object.keys(selectedObjects).length > 0 &&
     Object.values(selectedObjects).some(categoryObj =>
       Object.values(categoryObj || {}).some(selected => selected))] *)
Definition hasActiveSelections (selectedObjects : gmap string (gmap string bool)) : bool :=
  bool_decide (0 < size selectedObjects) &&
  existsb (λ categoryObj, existsb (λ selected : bool, selected) (map_to_list categoryObj).*2)
          (map_to_list selectedObjects).*2.

(** Lines 486-494. *)
Definition mergedGraphData (selectedObjects : gmap string (gmap string bool))
    (baseGraphData extraGraph : graphData) : mergedGraph :=
  if hasActiveSelections selectedObjects then
    {| merged_nodes := orEmpty (nodes baseGraphData);
       merged_edges := orEmpty (edges baseGraphData) |}
  else
    {| merged_nodes :=
         dedupeById (orEmpty (nodes baseGraphData) ++ orEmpty (nodes extraGraph));
       merged_edges :=
         dedupeById (orEmpty (edges baseGraphData) ++ orEmpty (edges extraGraph)) |}.

(** Lines 517-760: connection index, orphan split, highlight sets. *)
Definition assemble (merged : mergedGraph) (selectedNodeId : option string)
  : option assembly :=
  conns ← initConnections (merged_nodes merged) [];
  st ← processEdges {| nodeConnections := conns; validEdges := []; warnings := [] |}
                    (merged_edges merged);
  let '(connected, orphans) := splitNodes (nodeConnections st) [] [] in
  styledOrphanNodes ← mapM styleOrphan orphans;
  let '(hn, he) := highlight selectedNodeId (nodeConnections st) in
  Some {| asm_connections := nodeConnections st;
          asm_validEdges := validEdges st;
          connectedNodes := connected;
          orphanNodes := orphans;
          finalNodes := connected ++ styledOrphanNodes;
          highlightedNodes := hn;
          highlightedEdges := he;
          asm_console := warnings st |}.

Section UpdateGraph.
(** The backend call [fetchGraphData(selection)]; [None] when it throws. *)
Variable fetchGraphData : gmap string (gmap string bool) → option graphData.

(** [loadGraphData]: a failed fetch is logged and replaced by the empty
    graph. *)
Definition loadGraphData (selectedObjects : gmap string (gmap string bool))
    (showAllObjects : bool) : graphData * list diag :=
  let selectionToSend := if showAllObjects then ∅ else selectedObjects in
  match fetchGraphData selectionToSend with
  | Some data => (data, [])
  | None => ({| nodes := Some []; edges := Some [] |}, [GraphLoadError])
  end.

(** [updateGraph] up to the styling of the elements; [None] is a rejected
    promise (TypeError on a malformed payload). *)
Definition updateGraph (selectedObjects : gmap string (gmap string bool))
    (showAllObjects : bool) (extraGraph : graphData)
    (selectedNodeId : option string) : option assembly :=
  let '(baseGraphData, errors) := loadGraphData selectedObjects showAllObjects in
  a ← assemble (mergedGraphData selectedObjects baseGraphData extraGraph) selectedNodeId;
  Some {| asm_connections := asm_connections a;
          asm_validEdges := asm_validEdges a;
          connectedNodes := connectedNodes a;
          orphanNodes := orphanNodes a;
          finalNodes := finalNodes a;
          highlightedNodes := highlightedNodes a;
          highlightedEdges := highlightedEdges a;
          asm_console := errors ++ asm_console a |}.
End UpdateGraph.

(** ** Expansion engine *)

(** The part of the component state the expansion handlers read and write. *)
Record session := Session {
  selectedNodeId : option string;
  extraGraph : graphData;
  console : list diag
}.

(** The updater passed to [setExtraGraph]:
    [prev => ({ nodes: dedupeById([...(prev.nodes || []), ...ns]),
                edges: dedupeById([...(prev.edges || []), ...es]) })] *)
Definition mergeInto (prev : graphData) (ns es : list element) : graphData :=
  {| nodes := Some (dedupeById (orEmpty (nodes prev) ++ ns));
     edges := Some (dedupeById (orEmpty (edges prev) ++ es)) |}.

(** [set.add(x)] on a [Set] that is later read in insertion order. *)
Definition setAdd (x : string) (l : list string) : list string :=
  if bool_decide (x ∈ l) then l else l ++ [x].

(** Accumulators of one level of the recursive expansion. *)
Record levelAcc := LevelAcc {
  acc_extraGraph : graphData;
  acc_console : list diag;
  acc_visited : gset string;
  nextFrontier : list string
}.

(** State of the [while] loop; [rounds] is a ghost trace of the frontiers
    whose fetches were issued, one entry per executed loop body. *)
Record walk := Walk {
  w_extraGraph : graphData;
  w_console : list diag;
  visited : gset string;
  frontier : list string;
  depth : Z;
  rounds : list (list string)
}.

Section Expansion.
(** [fetchExpandDependencies(nodeId)]; [None] when it throws. *)
Variable fetchExpandDependencies : string → option graphData.

(** The awaited [updateGraph()] of the handler's closure: the diagnostics
    it writes and whether its promise resolves. *)
Variable updateGraphCall : list diag * bool.

(** The order in which the responses of one level arrive, for the level
    number and the frontier whose fetches were issued together by
    [Promise.all]: some permutation of the frontier.  The handlers of the
    responses run one after the other in that order, each to completion. *)
Variable arrival : Z → list string → list string.

(** [expandSelectedNode] (lines 1030-1052). *)
Definition expandSelectedNode (s : session) : session :=
  match asTruthy (selectedNodeId s) with
  | None => s
  | Some nodeId =>
      match fetchExpandDependencies nodeId with
      | Some data =>
          let newNodes := dedupeById (orEmpty (nodes data)) in
          let newEdges := dedupeById (orEmpty (edges data)) in
          {| selectedNodeId := selectedNodeId s;
             extraGraph := mergeInto (extraGraph s) newNodes newEdges;
             console := console s ++ updateGraphCall.1 ++
                        (if updateGraphCall.2 then [] else [ExpandFailed]) |}
      | None =>
          {| selectedNodeId := selectedNodeId s;
             extraGraph := extraGraph s;
             console := console s ++ [ExpandFailed] |}
      end
  end.

(** [nodes.forEach(n => { const id = n?.data?.id;
      if (id && !visited.has(id)) { visited.add(id); nextFrontier.add(id); } })] *)
Definition discover (acc : gset string * list string) (n : element)
  : gset string * list string :=
  match asTruthy (dataId n) with
  | Some id =>
      if bool_decide (id ∈ acc.1) then acc
      else ({[ id ]} ∪ acc.1, setAdd id acc.2)
  | None => acc
  end.

(** What happens when the response for [nodeId] arrives: the body of the
    [try] after the [await], or the [catch]. *)
Definition expandNode (acc : levelAcc) (nodeId : string) : levelAcc :=
  match fetchExpandDependencies nodeId with
  | Some res =>
      let ns := orEmpty (nodes res) in
      let es := orEmpty (edges res) in
      let '(vis, next) := foldl discover (acc_visited acc, nextFrontier acc) ns in
      {| acc_extraGraph := mergeInto (acc_extraGraph acc) ns es;
         acc_console := acc_console acc;
         acc_visited := vis;
         nextFrontier := next |}
  | None =>
      {| acc_extraGraph := acc_extraGraph acc;
         acc_console := acc_console acc ++ [ExpandNodeFailed nodeId];
         acc_visited := acc_visited acc;
         nextFrontier := nextFrontier acc |}
  end.

(** One execution of the loop body (lines 1063-1087). *)
Definition expandLevel (w : walk) : walk :=
  let acc :=
    foldl expandNode
          {| acc_extraGraph := w_extraGraph w; acc_console := w_console w;
             acc_visited := visited w; nextFrontier := [] |}
          (arrival (depth w) (frontier w)) in
  {| w_extraGraph := acc_extraGraph acc;
     w_console := acc_console acc;
     visited := acc_visited acc;
     frontier := nextFrontier acc;
     depth := depth w + 1;
     rounds := rounds w ++ [frontier w] |}.

(** [frontier.length && depth < maxDepth] *)
Definition loopGuard (maxDepth : Z) (w : walk) : bool :=
  bool_decide (0 < length (frontier w)) && bool_decide (depth w < maxDepth)%Z.

(** [while (frontier.length && depth < maxDepth) { ... }] *)
Fixpoint expandLoop (fuel : nat) (maxDepth : Z) (w : walk) : walk :=
  match fuel with
  | 0 => w
  | S fuel' =>
      if loopGuard maxDepth w then expandLoop fuel' maxDepth (expandLevel w)
      else w
  end.

(** State on entry of the loop (lines 1059-1061):
    [visited = new Set((extraGraph.nodes || []).map(n => n?.data?.id).filter(Boolean))],
    [frontier = [selectedNodeId]], [depth = 0]. *)
Definition startWalk (nodeId : string) (s : session) : walk :=
  {| w_extraGraph := extraGraph s;
     w_console := console s;
     visited := list_to_set (omap (λ n, asTruthy (dataId n))
                               (orEmpty (nodes (extraGraph s))));
     frontier := [nodeId];
     depth := 0;
     rounds := [] |}.

(** The loop of [expandSelectedNodeRecursively]; [maxDepth] iterations
    always suffice (see [expandLoop_fuel]). *)
Definition expandWalk (nodeId : string) (maxDepth : Z) (s : session) : walk :=
  expandLoop (Z.to_nat maxDepth) maxDepth (startWalk nodeId s).

(** [expandSelectedNodeRecursively(maxDepth)] (lines 1055-1096); the
    buttons of the component call it with [3], its default. *)
Definition expandSelectedNodeRecursively (maxDepth : Z) (s : session) : session :=
  match asTruthy (selectedNodeId s) with
  | None => s
  | Some nodeId =>
      let w := expandWalk nodeId maxDepth s in
      {| selectedNodeId := selectedNodeId s;
         extraGraph := w_extraGraph w;
         console := w_console w ++ updateGraphCall.1 ++
                    (if updateGraphCall.2 then [] else [ExpandAllError]) |}
  end.

(** [resetExpansions] *)
Definition resetExpansions (s : session) : session :=
  {| selectedNodeId := selectedNodeId s;
     extraGraph := {| nodes := Some []; edges := Some [] |};
     console := console s ++ updateGraphCall.1 |}.
End Expansion.

(** ** Vocabulary of the statements *)

(** [el] is filed under the id [n] by [dedupeById]. *)
Definition keyIs (n : string) (el : element) : bool :=
  bool_decide (elementKey el = Some n).

(** The version of the id [n] in a collection: its first element filed
    under [n]. *)
Definition versionOf (n : string) (arr : list element) : option element :=
  List.find (keyIs n) arr.

(** Invariant of the [Map] built by [dedupeById]: keys are unique and every
    element sits under its own key. *)
Definition mapOk (m : list (string * element)) : Prop :=
  NoDup (JsMap.keys m) ∧ ∀ k el, (k, el) ∈ m → elementKey el = Some k.

(** The record [nodeConnections] ends up with under the key [k]: the one of
    the last node with that [data.id], since [Map.set] overwrites. *)
Fixpoint lastNodeWith (k : jsval) (ns : list element) : option element :=
  match ns with
  | [] => None
  | n :: rest =>
      match lastNodeWith k rest with
      | Some n' => Some n'
      | None => if decide (dataKey n = k) then Some n else None
      end
  end.

(** The entry a valid edge contributes to the [outbound] list of the node
    [k], if [k] is its source; to the [inbound] list, if [k] is its target. *)
Definition outConnFor (k : jsval) (ei : edgeInfo) : option outConn :=
  d ← el_data (edge ei);
  if decide (data_source d = k)
  then Some {| out_edgeId := data_id d; targetId := data_target d;
               out_type := data_type d; out_label := data_label d;
               out_level := level ei |}
  else None.

Definition inConnFor (k : jsval) (ei : edgeInfo) : option inConn :=
  d ← el_data (edge ei);
  if decide (data_target d = k)
  then Some {| in_edgeId := data_id d; sourceId := data_source d;
               in_type := data_type d; in_label := data_label d;
               in_level := level ei |}
  else None.

(** The index agrees with the valid edges: no drift between [validEdges] and
    the connection records. *)
Definition indexOk (st : indexState) : Prop :=
  NoDup (JsMap.keys (nodeConnections st)) ∧
  (∀ k c, JsMap.get k (nodeConnections st) = Some c →
     outbound c = omap (outConnFor k) (validEdges st) ∧
     inbound c = omap (inConnFor k) (validEdges st) ∧
     totalConnections c = length (outbound c) + length (inbound c)) ∧
  (∀ ei, ei ∈ validEdges st →
     ∃ d, el_data (edge ei) = Some d ∧
          level ei = classifyRelationship (data_type d) ∧
          data_source d ∈ JsMap.keys (nodeConnections st) ∧
          data_target d ∈ JsMap.keys (nodeConnections st)).


(** The outputs of an assembly pass other than its console. *)
Definition viewOf (a : assembly) :=
  (asm_connections a, asm_validEdges a, connectedNodes a, orphanNodes a,
   finalNodes a, highlightedNodes a, highlightedEdges a).

(** Payloads the pass never raises a TypeError on: every node and edge has
    a [data] object, and the [source] and the [target] of every edge are
    strings. *)
Definition wellFormed (merged : mergedGraph) : bool :=
  forallb (λ n, bool_decide (is_Some (el_data n))) (merged_nodes merged) &&
  forallb (λ e, match el_data e with
                | Some d => bool_decide (is_Some (strOf (data_source d))) &&
                            bool_decide (is_Some (strOf (data_target d)))
                | None => false
                end) (merged_edges merged).

(** ** Sample payloads *)

Definition mkNode (id : string) : element :=
  {| el_data := Some {| data_id := Str id; data_source := Undefined;
                        data_target := Undefined; data_type := None;
                        data_label := Some id; data_metadata := None |};
     el_id := None |}.

Definition mkEdge (id source target type : string) : element :=
  {| el_data := Some {| data_id := Str id; data_source := Str source;
                        data_target := Str target; data_type := Some type;
                        data_label := Some type; data_metadata := None |};
     el_id := None |}.

(** Nodes [A], [B], [C] and the unreferenced [D]; [A -> B] of type
    [writes_to], [C -> A] of type [uses_in_decision], and an edge from [A] to
    a node [Z] that is not in the graph. *)
Definition sampleGraph : mergedGraph :=
  {| merged_nodes := [mkNode "A"; mkNode "B"; mkNode "C"; mkNode "D"];
     merged_edges := [mkEdge "e1" "A" "B" "writes_to";
                      mkEdge "e2" "C" "A" "uses_in_decision";
                      mkEdge "e3" "A" "Z" "reads_from"] |}.

(** Two versions of the node [n1], and a selection with one ticked object. *)
Definition labelled (id label : string) : element :=
  {| el_data := Some {| data_id := Str id; data_source := Undefined;
                        data_target := Undefined; data_type := None;
                        data_label := Some label; data_metadata := None |};
     el_id := None |}.

Definition focusedSelection : gmap string (gmap string bool) :=
  {[ "Data Extensions" := {[ "de-1" := true ]} ]}.

Definition fetchedGraph : graphData :=
  {| nodes := Some [mkNode "A"]; edges := Some [] |}.

Definition expandedGraph : graphData :=
  {| nodes := Some [mkNode "B"]; edges := Some [mkEdge "e1" "A" "B" "writes_to"] |}.

(** The graph side of the expansion state (everything but the console). *)
Definition graphOfAcc (acc : levelAcc) : graphData * gset string * list string :=
  (acc_extraGraph acc, acc_visited acc, nextFrontier acc).

Definition graphOfWalk (w : walk)
  : graphData * gset string * list string * Z * list (list string) :=
  (w_extraGraph w, visited w, frontier w, depth w, rounds w).

(** A backend in which [A]'s neighbourhood is [B] and [B]'s is [C]; the
    fetch for [X] fails. *)
Definition chainFetch (nodeId : string) : option graphData :=
  if bool_decide (nodeId = "A") then
    Some {| nodes := Some [mkNode "B"]; edges := Some [mkEdge "e1" "A" "B" "writes_to"] |}
  else if bool_decide (nodeId = "B") then
    Some {| nodes := Some [mkNode "C"]; edges := Some [mkEdge "e2" "B" "C" "reads_from"] |}
  else if bool_decide (nodeId = "X") then None
  else Some {| nodes := Some []; edges := Some [] |}.

(** Responses arrive in the order the fetches were issued. *)
Definition inOrder (level : Z) (frontier : list string) : list string := frontier.

Definition freshSession (nodeId : string) : session :=
  {| selectedNodeId := Some nodeId;
     extraGraph := {| nodes := Some []; edges := Some [] |};
     console := [] |}.

(** The fetch for [x] resolves. *)
Definition answers (fetchExpandDependencies : string → option graphData)
    (x : string) : bool :=
  bool_decide (is_Some (fetchExpandDependencies x)).

(** The arrival order without the nodes whose fetch fails. *)
Definition answered (fetchExpandDependencies : string → option graphData)
    (arrival : Z → list string → list string) : Z → list string → list string :=
  λ level frontier,
    filter (λ x, answers fetchExpandDependencies x = true) (arrival level frontier).

(** The chain backend with a node [X] next to [B], whose fetch fails. *)
Definition flakyFetch (nodeId : string) : option graphData :=
  if bool_decide (nodeId = "A") then
    Some {| nodes := Some [mkNode "B"; mkNode "X"]; edges := Some [] |}
  else chainFetch nodeId.

(** Invariant of the expansion loop: one round per level, and a warning in
    the console for every failed fetch of every round so far. *)
Definition warned (fetchExpandDependencies : string → option graphData)
    (arrival : Z → list string → list string) (w : walk) : Prop :=
  depth w = Z.of_nat (length (rounds w)) ∧
  ∀ i r x, rounds w !! i = Some r → x ∈ arrival (Z.of_nat i) r →
           fetchExpandDependencies x = None →
           ExpandNodeFailed x ∈ w_console w.

(** ** Vocabulary for the merger *)

(** The entries [dedupeById]'s loop appends for [arr] to a [Map] that
    already has the keys [seen]: the first element under every new key, in
    order. *)
Fixpoint fresh (arr : list element) (seen : list string) : list (string * element) :=
  match arr with
  | [] => []
  | el :: rest =>
      match elementKey el with
      | Some id =>
          if bool_decide (id ∈ seen) then fresh rest seen
          else (id, el) :: fresh rest (id :: seen)
      | None => fresh rest seen
      end
  end.

(** The ids present in a collection. *)
Definition keysOf (arr : list element) : gset string :=
  list_to_set (omap elementKey arr).

(** A graph whose collections are outputs of [dedupeById], as [extraGraph]
    is from its initial value on. *)
Definition deduped (g : graphData) : Prop :=
  dedupeById (orEmpty (nodes g)) = orEmpty (nodes g) ∧
  dedupeById (orEmpty (edges g)) = orEmpty (edges g).

(** [g'] keeps everything [g] has, in place: the collections of [g] are
    prefixes of those of [g']. *)
Definition grows (g g' : graphData) : Prop :=
  orEmpty (nodes g) `prefix_of` orEmpty (nodes g') ∧
  orEmpty (edges g) `prefix_of` orEmpty (edges g').

(** ** Vocabulary for the index *)

(** Both ends of the edge [e] are ids of nodes of [ns]. *)
Definition resolvesIn (ns : list element) (e : element) : bool :=
  match el_data e with
  | Some d => bool_decide (data_source d ∈ dataKey <$> ns) &&
              bool_decide (data_target d ∈ dataKey <$> ns)
  | None => false
  end.

(** The warning the pass writes for [e], if it drops it. *)
Definition warningFor (ns : list element) (e : element) : option diag :=
  d ← el_data e;
  if resolvesIn ns e then None
  else Some (InvalidEdge (data_source d) (data_target d)).

(** The valid edge [ei] has the node [k] as source or as target. *)
Definition incident (k : jsval) (ei : edgeInfo) : bool :=
  match el_data (edge ei) with
  | Some d => bool_decide (data_source d = k) || bool_decide (data_target d = k)
  | None => false
  end.

Definition isTier (t : tier) (ei : edgeInfo) : bool :=
  match t, level ei with
  | direct, direct | indirect, indirect | metadata, metadata | unknown, unknown => true
  | _, _ => false
  end.

(** The three flags of a record say which tiers its edges have. *)
Definition flagsOk (st : indexState) : Prop :=
  ∀ k c, JsMap.get k (nodeConnections st) = Some c →
    hasDirectConnections c =
      existsb (λ ei, incident k ei && isTier direct ei) (validEdges st) ∧
    hasIndirectConnections c =
      existsb (λ ei, incident k ei && isTier indirect ei) (validEdges st) ∧
    hasMetadataConnections c =
      existsb (λ ei, incident k ei && isTier metadata ei) (validEdges st).

(** The payloads on which the pass raises no TypeError: every node and
    every edge has a [data] object, and for every edge with both ends in the
    graph the [includes] test on its [source] and [target] can be
    evaluated. *)
Definition noTypeError (merged : mergedGraph) : bool :=
  forallb (λ n, bool_decide (is_Some (el_data n))) (merged_nodes merged) &&
  forallb (λ e, match el_data e with
                | Some d =>
                    if resolvesIn (merged_nodes merged) e
                    then bool_decide (is_Some (filterActivityCheck d))
                    else true
                | None => false
                end) (merged_edges merged).

(** ** Vocabulary for the traversal *)

(** The ids the recursive expansion reads off a list of nodes
    ([n?.data?.id], when truthy). *)
Definition nodeIds (ns : list element) : gset string :=
  list_to_set (omap (λ n, asTruthy (dataId n)) ns).

(** The ids in the response for [x]; none when the fetch fails. *)
Definition answerIds (fetchExpandDependencies : string → option graphData)
    (x : string) : gset string :=
  match fetchExpandDependencies x with
  | Some res => nodeIds (orEmpty (nodes res))
  | None => ∅
  end.

(** The ids in the responses for the nodes of [l]. *)
Definition found (fetchExpandDependencies : string → option graphData)
    (l : list string) : gset string :=
  ⋃ (answerIds fetchExpandDependencies <$> l).

(** The ids fetched after the first round, followed by those waiting in the
    frontier once a round has been run. *)
Definition refetched (w : walk) : list string :=
  concat (drop 1 (rounds w)) ++
  (if decide (rounds w = []) then [] else frontier w).

(** Invariant of the traversal: the first round is the start node alone;
    [visited] only grows; the ids fetched after the first round or waiting
    in the frontier are pairwise distinct, visited, and were not visited
    when the traversal started. *)
Definition bfsOk (nodeId : string) (visited0 : gset string) (w : walk) : Prop :=
  ((rounds w = [] ∧ frontier w = [nodeId]) ∨ ∃ rest, rounds w = [nodeId] :: rest) ∧
  visited0 ⊆ visited w ∧
  NoDup (refetched w) ∧
  ∀ x, x ∈ refetched w → x ∈ visited w ∧ x ∉ visited0.

(** The ids of the nodes ([part = nodes]) or edges ([part = edges]) in the
    response for [x], and in the responses for the nodes of [l]. *)
Definition answerKeys (fetchExpandDependencies : string → option graphData)
    (part : graphData → option (list element)) (x : string) : gset string :=
  match fetchExpandDependencies x with
  | Some res => keysOf (orEmpty (part res))
  | None => ∅
  end.

Definition foundKeys (fetchExpandDependencies : string → option graphData)
    (part : graphData → option (list element)) (l : list string) : gset string :=
  ⋃ (answerKeys fetchExpandDependencies part <$> l).

(** Two states of the traversal that differ at most in the order of the
    frontier, of the fetches of a round, and of the elements and kept
    versions in [extraGraph]. *)
Definition sameUpToOrder (w1 w2 : walk) : Prop :=
  visited w1 = visited w2 ∧
  depth w1 = depth w2 ∧
  frontier w1 ≡ₚ frontier w2 ∧
  Forall2 (≡ₚ) (rounds w1) (rounds w2) ∧
  keysOf (orEmpty (nodes (w_extraGraph w1))) = keysOf (orEmpty (nodes (w_extraGraph w2))) ∧
  keysOf (orEmpty (edges (w_extraGraph w1))) = keysOf (orEmpty (edges (w_extraGraph w2))).

(** Responses arrive in the reverse of the order the fetches were issued. *)
Definition lastFirst (level : Z) (frontier : list string) : list string :=
  reverse frontier.

(** The frontiers of a traversal so far: the rounds run, then the frontier
    that is left. *)
Definition levels (w : walk) : list (list string) := rounds w ++ [frontier w].

(** [x] is in one of the entries [0 .. k] of [ls]. *)
Definition within (k : nat) (ls : list (list string)) (x : string) : Prop :=
  ∃ i r, (i ≤ k)%nat ∧ ls !! i = Some r ∧ x ∈ r.

(** Invariant of a traversal from [nodeId] that started with the graph
    [g0]: every id in a response to round [j] was visited at the start or
    is in a frontier up to [j + 1], and [extraGraph] has the ids of every
    response. *)
Definition traceOk (fetchExpandDependencies : string → option graphData)
    (nodeId : string) (g0 : graphData) (w : walk) : Prop :=
  ((rounds w = [] ∧ frontier w = [nodeId]) ∨ ∃ rest, rounds w = [nodeId] :: rest) ∧
  depth w = Z.of_nat (length (rounds w)) ∧
  (∀ x, x ∈ visited w →
     x ∈ nodeIds (orEmpty (nodes g0)) ∨ within (length (rounds w)) (levels w) x) ∧
  (∀ j r y x, rounds w !! j = Some r → y ∈ r →
     x ∈ answerIds fetchExpandDependencies y →
     x ∈ nodeIds (orEmpty (nodes g0)) ∨ within (S j) (levels w) x) ∧
  (∀ y, y ∈ concat (rounds w) →
     answerKeys fetchExpandDependencies nodes y
       ⊆ keysOf (orEmpty (nodes (w_extraGraph w))) ∧
     answerKeys fetchExpandDependencies edges y
       ⊆ keysOf (orEmpty (edges (w_extraGraph w)))).

(** Invariant of a second traversal [w2] that starts from the graph the
    finished traversal [w1] (of depth [maxDepth]) left: it stores nothing
    new, and what it fetches at level [k] the first one fetched at a level
    up to [k]. *)
Definition replayOk (maxDepth : Z) (w1 w2 : walk) : Prop :=
  orEmpty (nodes (w_extraGraph w2)) = orEmpty (nodes (w_extraGraph w1)) ∧
  orEmpty (edges (w_extraGraph w2)) = orEmpty (edges (w_extraGraph w1)) ∧
  depth w2 = Z.of_nat (length (rounds w2)) ∧
  nodeIds (orEmpty (nodes (w_extraGraph w1))) ⊆ visited w2 ∧
  (∀ k r x, levels w2 !! k = Some r → x ∈ r → (Z.of_nat k < maxDepth)%Z →
     within k (rounds w1) x).

(** ** Selection and view mode *)

(** The part of the component state that decides what the graph shows. *)
Record viewState := ViewState {
  selectedObjects : gmap string (gmap string bool);
  showAllObjects : bool
}.

(** [useState({})] and [useState(false)]. *)
Definition initialView : viewState :=
  {| selectedObjects := ∅; showAllObjects := false |}.

(** [handleObjectSelect(category, objectId, isSelected)] (lines 373-403),
    called from a checkbox with the state of the current render:
    [setSelectedObjects(prev => ({ ...prev,
       [category]: { ...prev[category], [objectId]: isSelected } }));
     if (isSelected && showAllObjects) setShowAllObjects(false);] *)
Definition handleObjectSelect (category objectId : string) (isSelected : bool)
    (st : viewState) : viewState :=
  {| selectedObjects :=
       <[ category := <[ objectId := isSelected ]>
                        (default ∅ (selectedObjects st !! category)) ]>
         (selectedObjects st);
     showAllObjects :=
       if isSelected && showAllObjects st then false else showAllObjects st |}.

(** The [onClick] of the Show All button (lines 1295-1302):
    [setShowAllObjects(prev => !prev);
     if (!showAllObjects) setSelectedObjects({});] *)
Definition toggleShowAll (st : viewState) : viewState :=
  {| selectedObjects := if negb (showAllObjects st) then ∅ else selectedObjects st;
     showAllObjects := negb (showAllObjects st) |}.

(** The two user actions that write this state, each handled after the
    render that follows the previous one. *)
Inductive uiEvent :=
  | ObjectSelect (category objectId : string) (isSelected : bool)
  | ShowAllClick.

Definition handleEvent (st : viewState) (ev : uiEvent) : viewState :=
  match ev with
  | ObjectSelect category objectId isSelected =>
      handleObjectSelect category objectId isSelected st
  | ShowAllClick => toggleShowAll st
  end.

(** What the graph effect (lines 1181-1197) does: it runs [updateGraph], or
    it empties the graph with [setGraphElements([])]. *)
Inductive effectResult :=
  | Cleared
  | Updated (result : option assembly).

Definition graphEffect (fetchGraphData : gmap string (gmap string bool) → option graphData)
    (st : viewState) (extra : graphData) (selected : option string) : effectResult :=
  if hasActiveSelections (selectedObjects st) || showAllObjects st
  then Updated (updateGraph fetchGraphData (selectedObjects st) (showAllObjects st)
                            extra selected)
  else Cleared.

(** The object [objectId] of [category] is ticked in the selection. *)
Definition ticked (sel : gmap string (gmap string bool)) (category objectId : string)
  : Prop :=
  ∃ objs, sel !! category = Some objs ∧ objs !! objectId = Some true.

(** ** Layout: grouping of activities by automation *)

(** [ToInt32], the value a 32-bit bitwise operator gives its operand. *)
Definition toInt32 (z : Z) : Z := ((z + 2 ^ 31) `mod` 2 ^ 32 - 2 ^ 31)%Z.

(** One iteration of the loop of [hashCode]:
    [hash = ((hash << 5) - hash) + char; hash = hash & hash;] *)
Definition hashStep (hash char : Z) : Z :=
  let hash := (toInt32 (Z.shiftl (toInt32 hash) 5) - hash + char)%Z in
  Z.land (toInt32 hash) (toInt32 hash).

(** [hashCode(str)] (lines 800-808), on the UTF-16 code units of [str]
    ([str.charCodeAt(i)] for [i < str.length]); ends with [Math.abs(hash)]. *)
Definition hashCode (str : list Z) : Z := Z.abs (foldl hashStep 0%Z str).

(** [automationId ? hashCode(automationId) % 5 : 0] for a string
    [automationId]; the empty string is falsy. *)
Definition automationIndex (automationId : option (list Z)) : Z :=
  match automationId with
  | Some (c :: str) => Z.rem (hashCode (c :: str)) 5
  | _ => 0%Z
  end.

(** The 31-polynomial of the code units, [c0*31^(n-1) + ... + c(n-1)]. *)
Definition poly31 (str : list Z) : Z := foldl (λ h c, 31 * h + c)%Z 0%Z str.

(** The code units of a string of ASCII characters. *)
Definition asciiUnits (s : string) : list Z :=
  (λ c, Z.of_N (Ascii.N_of_ascii c)) <$> String.list_ascii_of_string s.

(** ** Server: credentials of a search request *)

(** The two headers the search endpoints read ([req.headers[...]];
    [None] when the header is absent). *)
Record request := Request {
  authorization : option string;
  x_mc_subdomain : option string
}.

(** [getAccessTokenFromRequest] (server.js lines 82-88). *)
Definition getAccessTokenFromRequest (req : request) : option string :=
  match asTruthy (authorization req) with
  | Some authHeader =>
      if String.prefix "Bearer " authHeader
      then Some (String.substring 7 (String.length authHeader - 7) authHeader)
      else None
  | None => None
  end.

(** [getSubdomainFromRequest]: [req.headers['x-mc-subdomain'] || null]. *)
Definition getSubdomainFromRequest (req : request) : option string :=
  asTruthy (x_mc_subdomain req).

(** The guard every search endpoint starts with:
    [if (!accessToken || !subdomain) return res.status(401).json([]);]
    [None] is the 401 response, otherwise the credentials the handler goes
    on with. *)
Definition searchCredentials (req : request) : option (string * string) :=
  match asTruthy (getAccessTokenFromRequest req), asTruthy (getSubdomainFromRequest req) with
  | Some accessToken, Some subdomain => Some (accessToken, subdomain)
  | _, _ => None
  end.

(** The header the REST searches send on:
    [Authorization: `Bearer ${accessToken}`]. *)
Definition forwardedAuthorization (accessToken : string) : string :=
  "Bearer " ++ accessToken.

(** The character [.], code 46. *)
Definition dot : Ascii.ascii := Ascii.ascii_of_nat 46.

(** The characters of [s] before its first dot; [None] without a dot. *)
Fixpoint beforeDot (s : string) : option string :=
  match s with
  | EmptyString => None
  | String c rest =>
      if Ascii.eqb c dot then Some EmptyString
      else String c <$> beforeDot rest
  end.

(** [const match = AUTH_DOMAIN.match(/^([^.]+)\./);
     const subdomain = match ? match[1] : null;] (server.js lines 72-73) *)
Definition subdomainOf (authDomain : string) : option string :=
  match beforeDot authDomain with
  | Some EmptyString => None
  | Some subdomain => Some subdomain
  | None => None
  end.

(** The host of the login URL of [/save-credentials] (line 33). *)
Definition authHost (subdomain : string) : string :=
  subdomain ++ ".auth.marketingcloudapis.com".

(** No dot among the characters of [s]. *)
Fixpoint dotFree (s : string) : bool :=
  match s with
  | EmptyString => true
  | String c rest => negb (Ascii.eqb c dot) && dotFree rest
  end.



(** A node with the value [id] as its [data.id], and an edge [e] between
    two values. *)
Definition nodeWith (id : jsval) : element :=
  {| el_data := Some {| data_id := id; data_source := Undefined;
                        data_target := Undefined; data_type := None;
                        data_label := None; data_metadata := None |};
     el_id := None |}.

Definition edgeWith (source target : jsval) : element :=
  {| el_data := Some {| data_id := Str "e"; data_source := source;
                        data_target := target; data_type := None;
                        data_label := None; data_metadata := None |};
     el_id := None |}.

(** * Properties *)

(** ** Insertion-ordered maps *)

Section jsmap_facts.
Context {K V : Type} `{EqDecision K}.
Implicit Types (k : K) (v : V) (m : list (K * V)).

Lemma jsmap_get_app k m1 m2 :
  JsMap.get k (m1 ++ m2) =
  match JsMap.get k m1 with Some v => Some v | None => JsMap.get k m2 end.
Proof.
  induction m1 as [|[k' v'] m1 IH]; simpl; [done|].
  destruct (decide (k = k')); done.
Qed.

Lemma jsmap_get_None_keys k m : JsMap.get k m = None ↔ k ∉ JsMap.keys m.
Proof.
  unfold JsMap.keys. induction m as [|[k' v'] m IH]; csimpl.
  - split; [intros _; apply not_elem_of_nil | done].
  - rewrite not_elem_of_cons. destruct (decide (k = k')) as [->|Hne].
    + split; [done | by intros [? _]].
    + rewrite IH. split; [by intros ? | by intros [_ ?]].
Qed.


Lemma jsmap_get_Some_keys k v m : JsMap.get k m = Some v → k ∈ JsMap.keys m.
Proof.
  intros Hg. destruct (decide (k ∈ JsMap.keys m)) as [|Hn]; [done|].
  apply jsmap_get_None_keys in Hn. congruence.
Qed.

Lemma jsmap_elem_get k v m :
  NoDup (JsMap.keys m) → (k, v) ∈ m → JsMap.get k m = Some v.
Proof.
  unfold JsMap.keys. induction m as [|[k' v'] m IH]; csimpl.
  - intros _ Hin. by apply elem_of_nil in Hin.
  - intros Hnd Hin. apply NoDup_cons in Hnd as [Hk Hnd].
    apply elem_of_cons in Hin as [Heq|Hin].
    + injection Heq as -> ->. by rewrite decide_True.
    + destruct (decide (k = k')) as [->|]; [|by apply IH].
      exfalso. apply Hk. apply list_elem_of_fmap. by exists (k', v).
Qed.

Lemma jsmap_set_fresh k v m : JsMap.get k m = None → JsMap.set k v m = m ++ [(k, v)].
Proof.
  induction m as [|[k' v'] m IH]; simpl; [done|].
  destruct (decide (k = k')); [done|]. intros Hg. by rewrite IH.
Qed.

Lemma jsmap_keys_set_present k v m :
  k ∈ JsMap.keys m → JsMap.keys (JsMap.set k v m) = JsMap.keys m.
Proof.
  unfold JsMap.keys. induction m as [|[k' v'] m IH]; csimpl.
  - intros Hin. by apply elem_of_nil in Hin.
  - intros Hin. destruct (decide (k = k')) as [->|Hne]; csimpl; [done|].
    apply elem_of_cons in Hin as [|Hin]; [done|]. by rewrite IH.
Qed.

Lemma jsmap_keys_set_NoDup k v m :
  NoDup (JsMap.keys m) → NoDup (JsMap.keys (JsMap.set k v m)).
Proof.
  intros Hnd. destruct (decide (k ∈ JsMap.keys m)) as [Hin|Hn].
  - by rewrite jsmap_keys_set_present.
  - apply jsmap_get_None_keys in Hn as Hg. rewrite (jsmap_set_fresh _ _ _ Hg).
    unfold JsMap.keys in *. rewrite fmap_app. simpl.
    apply NoDup_app. split; [done|]. split; [|apply NoDup_singleton].
    intros x Hx Hx'. apply list_elem_of_singleton in Hx' as ->. done.
Qed.

Lemma jsmap_get_set k k' v m :
  JsMap.get k' (JsMap.set k v m) =
  if decide (k' = k) then Some v else JsMap.get k' m.
Proof.
  induction m as [|[k0 v0] m IH]; simpl.
  - destruct (decide (k' = k)); done.
  - destruct (decide (k = k0)) as [->|Hne]; simpl.
    + destruct (decide (k' = k0)); done.
    + rewrite IH. destruct (decide (k' = k0)) as [->|]; [|done].
      by rewrite decide_False.
Qed.

Lemma jsmap_keys_modify k (f : V → V) m :
  JsMap.keys (JsMap.modify k f m) = JsMap.keys m.
Proof.
  unfold JsMap.keys. induction m as [|[k' v'] m IH]; csimpl; [done|].
  destruct (decide (k = k')); csimpl; [done|]. by rewrite IH.
Qed.

Lemma jsmap_get_modify k k' (f : V → V) m :
  JsMap.get k' (JsMap.modify k f m) =
  if decide (k' = k) then f <$> JsMap.get k' m else JsMap.get k' m.
Proof.
  induction m as [|[k0 v0] m IH]; simpl.
  - destruct (decide (k' = k)); done.
  - destruct (decide (k = k0)) as [->|Hne]; simpl.
    + destruct (decide (k' = k0)); done.
    + rewrite IH. destruct (decide (k' = k0)) as [->|]; [|done].
      by rewrite decide_False.
Qed.
End jsmap_facts.

(** ** Graph merger *)

Lemma asTruthy_Some v s : asTruthy v = Some s ↔ v = Some s ∧ s ≠ "".
Proof.
  unfold asTruthy, truthy. destruct v as [s'|]; [|by split; [|intros [? _]]].
  destruct (bool_decide_reflect (s' = "")) as [->|Hne]; simpl.
  - split; [done|]. by intros [[= <-] ?].
  - split; [by intros [= ->] | by intros [? _]].
Qed.

Lemma asTruthy_nonempty s : s ≠ "" → asTruthy (Some s) = Some s.
Proof. intros Hne. by apply asTruthy_Some. Qed.

Lemma elementKey_nonempty el id : elementKey el = Some id → id ≠ "".
Proof. unfold elementKey. by intros [_ ?]%asTruthy_Some. Qed.

Lemma elementKey_fields el id :
  elementKey el = Some id ↔
  id ≠ "" ∧ (dataId el = Some id ∨ (asTruthy (dataId el) = None ∧ el_id el = Some id)).
Proof.
  unfold elementKey. rewrite asTruthy_Some. unfold js_or, asTruthy.
  destruct (truthy (dataId el)) eqn:Ht.
  - split.
    + intros [-> ?]. split; [done|by left].
    + intros [? [->|[Hd ?]]]; [done|].
      rewrite Hd in Ht. done.
  - split.
    + intros [-> ?]. split; [done|by right].
    + intros [? [Hd|[_ ->]]]; [|done].
      rewrite Hd in Ht. unfold truthy in Ht.
      by rewrite bool_decide_eq_false_2 in Ht.
Qed.

Lemma dedupeLoop_app A B m :
  dedupeLoop (A ++ B) m = dedupeLoop B (dedupeLoop A m).
Proof.
  revert m. induction A as [|a A IH]; intros m; simpl; [done|].
  destruct (elementKey a); [|done]. by destruct (JsMap.has _ _).
Qed.

Lemma jsmap_has_get {V} (k : string) (m : list (string * V)) :
  JsMap.has k m = false ↔ JsMap.get k m = None.
Proof. unfold JsMap.has. destruct (JsMap.get k m); by split. Qed.

Lemma dedupeLoop_get k A m :
  JsMap.get k (dedupeLoop A m) =
  match JsMap.get k m with
  | Some el => Some el
  | None => versionOf k A
  end.
Proof.
  unfold versionOf. revert m. induction A as [|a A IH]; intros m; simpl.
  - by destruct (JsMap.get k m).
  - unfold keyIs at 1. destruct (elementKey a) as [id|] eqn:Hk.
    + destruct (JsMap.has id m) eqn:Hh.
      * rewrite IH. destruct (JsMap.get k m) eqn:Hg; [done|].
        rewrite bool_decide_eq_false_2; [done|].
        intros [= ->]. unfold JsMap.has in Hh. by rewrite Hg in Hh.
      * apply jsmap_has_get in Hh. rewrite IH, jsmap_get_set.
        destruct (decide (k = id)) as [->|Hne].
        -- by rewrite Hh, bool_decide_eq_true_2.
        -- rewrite bool_decide_eq_false_2; [done|]. by intros [= ->].
    + rewrite IH. by rewrite bool_decide_eq_false_2.
Qed.

Lemma dedupeLoop_ok A m : mapOk m → mapOk (dedupeLoop A m).
Proof.
  revert m. induction A as [|a A IH]; intros m Hm; simpl; [done|].
  destruct (elementKey a) as [id|] eqn:Hk; [|by apply IH].
  destruct (JsMap.has id m) eqn:Hh; [by apply IH|].
  apply IH. destruct Hm as [Hnd Hel]. split; [by apply jsmap_keys_set_NoDup|].
  apply jsmap_has_get in Hh. rewrite (jsmap_set_fresh _ _ _ Hh).
  intros k el [Hin|Hin%list_elem_of_singleton]%elem_of_app; [by apply Hel|].
  by injection Hin as -> ->.
Qed.

Lemma dedupeLoop_elem k el A m :
  (k, el) ∈ dedupeLoop A m → (k, el) ∈ m ∨ (el ∈ A ∧ elementKey el = Some k).
Proof.
  revert m. induction A as [|a A IH]; intros m; simpl; [by left|].
  destruct (elementKey a) as [id|] eqn:Hk.
  - destruct (JsMap.has id m) eqn:Hh.
    + intros [?|[? ?]]%IH; [by left|right]. split; [by apply list_elem_of_further|done].
    + apply jsmap_has_get in Hh. rewrite (jsmap_set_fresh _ _ _ Hh).
      intros [Hin|[? ?]]%IH.
      * apply elem_of_app in Hin as [?|Hin%list_elem_of_singleton]; [by left|].
        injection Hin as -> ->. right. split; [apply list_elem_of_here|done].
      * right. split; [by apply list_elem_of_further|done].
  - intros [?|[? ?]]%IH; [by left|right]. split; [by apply list_elem_of_further|done].
Qed.

Lemma dedupeLoop_absorb B m :
  (∀ el k, el ∈ B → elementKey el = Some k → JsMap.has k m = true) →
  dedupeLoop B m = m.
Proof.
  induction B as [|b B IH]; intros Hall; simpl; [done|].
  destruct (elementKey b) as [id|] eqn:Hk.
  - rewrite (Hall b id); [|apply list_elem_of_here|done].
    apply IH. intros el k ?. apply Hall. by apply list_elem_of_further.
  - apply IH. intros el k ?. apply Hall. by apply list_elem_of_further.
Qed.

Lemma versionOf_Some n arr el :
  versionOf n arr = Some el → el ∈ arr ∧ elementKey el = Some n.
Proof.
  unfold versionOf. intros Hf. apply find_some in Hf as [Hin Hk].
  split; [by apply list_elem_of_In|]. unfold keyIs in Hk.
  by apply bool_decide_eq_true_1 in Hk.
Qed.

Lemma versionOf_None n arr el :
  versionOf n arr = None → el ∈ arr → elementKey el ≠ Some n.
Proof.
  unfold versionOf. intros Hf Hin Hk.
  apply list_elem_of_In in Hin. pose proof (find_none _ _ Hf _ Hin) as Hb.
  unfold keyIs in Hb. by rewrite bool_decide_eq_true_2 in Hb.
Qed.

Lemma versionOf_values n m :
  mapOk m → versionOf n (JsMap.values m) = JsMap.get n m.
Proof.
  unfold versionOf, JsMap.values, JsMap.keys, mapOk.
  induction m as [|[k el] m IH]; simpl; [done|].
  intros [Hnd Hel]. apply NoDup_cons in Hnd as [Hk Hnd].
  unfold keyIs at 1. rewrite (Hel k el); [|apply list_elem_of_here].
  destruct (decide (n = k)) as [->|Hne].
  - by rewrite bool_decide_eq_true_2.
  - rewrite bool_decide_eq_false_2; [|by intros [= ->]].
    apply IH. split; [done|]. intros ???. apply Hel. by apply list_elem_of_further.
Qed.

Lemma mapOk_nil : mapOk [].
Proof. split; [apply NoDup_nil_2|]. by intros ?? ?%elem_of_nil. Qed.

Lemma dedupeById_version n arr :
  versionOf n (dedupeById arr) = versionOf n arr.
Proof.
  unfold dedupeById. rewrite versionOf_values; [|apply dedupeLoop_ok, mapOk_nil].
  by rewrite dedupeLoop_get.
Qed.

Lemma versionOf_app n A B :
  versionOf n (A ++ B) =
  match versionOf n A with Some el => Some el | None => versionOf n B end.
Proof.
  unfold versionOf. induction A as [|a A IH]; simpl; [done|].
  by destruct (keyIs n a).
Qed.

Lemma dedupeById_elem el arr :
  el ∈ dedupeById arr → el ∈ arr ∧ ∃ id, elementKey el = Some id.
Proof.
  unfold dedupeById, JsMap.values.
  intros [[k e] [-> Hin]]%list_elem_of_fmap. simpl.
  apply dedupeLoop_elem in Hin as [Hin|[? ?]]; [by apply elem_of_nil in Hin|].
  split; [done|by exists k].
Qed.

Lemma dedupeById_keys_NoDup arr : NoDup (elementKey <$> dedupeById arr).
Proof.
  unfold dedupeById, JsMap.values.
  pose proof (dedupeLoop_ok arr [] mapOk_nil) as [Hnd Hel].
  revert Hnd Hel. unfold JsMap.keys.
  generalize (dedupeLoop arr []). intros m Hnd Hel.
  assert (elementKey <$> (snd <$> m) = Some <$> (fst <$> m)) as ->.
  { induction m as [|[k e] m IH]; simpl; [done|].
    rewrite (Hel k e); [|apply list_elem_of_here]. f_equal.
    apply IH; [by apply NoDup_cons in Hnd as [_ ?]|].
    intros ???. apply Hel. by apply list_elem_of_further. }
  apply NoDup_fmap_2; [|done]. by intros ?? [= ->].
Qed.

Lemma dedupeById_idem_app G : dedupeById (G ++ G) = dedupeById G.
Proof.
  unfold dedupeById. rewrite dedupeLoop_app. f_equal.
  apply dedupeLoop_absorb. intros el k Hin Hk.
  unfold JsMap.has. rewrite dedupeLoop_get. simpl.
  destruct (versionOf k G) eqn:Hv; [done|].
  by apply (versionOf_None _ _ el) in Hv.
Qed.

Lemma dedupeById_unique_version el n arr :
  el ∈ dedupeById arr → elementKey el = Some n →
  versionOf n (dedupeById arr) = Some el.
Proof.
  unfold dedupeById. intros Hin Hk.
  pose proof (dedupeLoop_ok arr [] mapOk_nil) as Hok.
  rewrite versionOf_values; [|done].
  unfold JsMap.values in Hin. apply list_elem_of_fmap in Hin as [[k e] [-> Hin]].
  simpl in *. destruct Hok as [Hnd Hel].
  rewrite (Hel _ _ Hin) in Hk. injection Hk as ->.
  by apply jsmap_elem_get.
Qed.

(** C9. Merging a graph with itself is merging it once: [dedupeById] of a
    collection followed by itself is [dedupeById] of the collection, for the
    nodes and for the edges of any graph, with the same version kept under
    every id. *)
Theorem dedupeById_idempotent_merge (G : graphData) :
  dedupeById (orEmpty (nodes G) ++ orEmpty (nodes G)) = dedupeById (orEmpty (nodes G)) ∧
  dedupeById (orEmpty (edges G) ++ orEmpty (edges G)) = dedupeById (orEmpty (edges G)) ∧
  ∀ (arr : list element) (n : string),
    dedupeById (arr ++ arr) = dedupeById arr ∧
    versionOf n (dedupeById (arr ++ arr)) = versionOf n arr.
Proof.
  split_and!; [apply dedupeById_idem_app | apply dedupeById_idem_app |].
  intros arr n. split; [apply dedupeById_idem_app|].
  by rewrite dedupeById_idem_app, dedupeById_version.
Qed.

(** C4. First write wins: when [A]'s version [a] of the id [n] differs from
    [B]'s version [b], [dedupeById] over [A]'s elements followed by [B]'s
    keeps [a] as the only element under [n] and drops [b]; in the other
    order it keeps [b], so the result depends on the order. *)
Theorem dedupeById_first_write_wins (A B : list element) (n : string) (a b : element) :
  versionOf n A = Some a →
  versionOf n B = Some b →
  a ≠ b →
  versionOf n (dedupeById (A ++ B)) = Some a ∧
  a ∈ dedupeById (A ++ B) ∧
  (∀ el, el ∈ dedupeById (A ++ B) → elementKey el = Some n → el = a) ∧
  (b ∉ dedupeById (A ++ B)) ∧
  versionOf n (dedupeById (B ++ A)) = Some b ∧
  dedupeById (A ++ B) ≠ dedupeById (B ++ A).
Proof.
  intros Ha Hb Hne.
  assert (versionOf n (dedupeById (A ++ B)) = Some a) as HAB.
  { by rewrite dedupeById_version, versionOf_app, Ha. }
  assert (versionOf n (dedupeById (B ++ A)) = Some b) as HBA.
  { by rewrite dedupeById_version, versionOf_app, Hb. }
  assert (∀ el, el ∈ dedupeById (A ++ B) → elementKey el = Some n → el = a) as Huniq.
  { intros el Hin Hk. pose proof (dedupeById_unique_version _ _ _ Hin Hk) as Hv.
    rewrite HAB in Hv. by injection Hv. }
  split_and!; try done.
  - by apply versionOf_Some in HAB as [? _].
  - intros Hin. apply Hne. symmetry. apply Huniq; [done|].
    by apply versionOf_Some in Hb as [_ ?].
  - intros Heq. rewrite Heq, HBA in HAB. by injection HAB as ->.
Qed.

(** C10. Every element [dedupeById] returns is an element of the input with a
    non-empty id, which is its [data.id] or, when that is missing or empty,
    its own [id]; the ids of the output are pairwise distinct; an element
    with neither id is not in the output.  The helper returns the list and
    nothing else, so a graph merged with it ([extraGraph] after any
    expansion) has no node or edge without an id. *)
Theorem dedupeById_ids (arr : list element) :
  (∀ el, el ∈ dedupeById arr →
     el ∈ arr ∧
     ∃ id, elementKey el = Some id ∧ id ≠ "" ∧
           (dataId el = Some id ∨ (asTruthy (dataId el) = None ∧ el_id el = Some id))) ∧
  NoDup (elementKey <$> dedupeById arr) ∧
  (∀ el, asTruthy (dataId el) = None → asTruthy (el_id el) = None →
     el ∉ dedupeById arr) ∧
  (∀ prev ns es el,
     el ∈ orEmpty (nodes (mergeInto prev ns es)) ∨
     el ∈ orEmpty (edges (mergeInto prev ns es)) →
     ∃ id, elementKey el = Some id ∧ id ≠ "").
Proof.
  split_and!; cycle 3.
  { intros prev ns es el. simpl.
    intros [[_ [id Hk]]%dedupeById_elem | [_ [id Hk]]%dedupeById_elem];
      exists id; (split; [done|by eapply elementKey_nonempty]). }
  - intros el [Hin [id Hk]]%dedupeById_elem. split; [done|]. exists id.
    split; [done|]. by apply elementKey_fields.
  - apply dedupeById_keys_NoDup.
  - intros el Hd Hi [_ [id Hk]]%dedupeById_elem.
    apply elementKey_fields in Hk as [Hne [Hk|[_ Hk]]].
    + by rewrite Hk, asTruthy_nonempty in Hd.
    + by rewrite Hk, asTruthy_nonempty in Hi.
Qed.

(** ** Connectivity indexer *)

Lemma lastNodeWith_Some k ns n :
  lastNodeWith k ns = Some n → n ∈ ns ∧ dataKey n = k.
Proof.
  induction ns as [|n0 ns IH]; simpl; [done|].
  destruct (lastNodeWith k ns) as [n'|].
  - intros [= ->]. destruct IH as [? ?]; [done|].
    split; [by apply list_elem_of_further|done].
  - destruct (decide (dataKey n0 = k)); [|done].
    intros [= ->]. split; [apply list_elem_of_here|done].
Qed.

Lemma lastNodeWith_None k ns :
  lastNodeWith k ns = None ↔ k ∉ dataKey <$> ns.
Proof.
  induction ns as [|n0 ns IH]; csimpl.
  - split; [intros _; apply not_elem_of_nil|done].
  - rewrite not_elem_of_cons. destruct (lastNodeWith k ns) as [n'|].
    + split; [done|]. intros [_ Hn]. by apply IH in Hn.
    + destruct (decide (dataKey n0 = k)) as [<-|Hne].
      * split; [done|]. by intros [? _].
      * split; [|done]. intros _. split; [done|]. by apply IH.
Qed.


Lemma initConnections_get ns m conns k :
  initConnections ns m = Some conns →
  JsMap.get k conns =
  match lastNodeWith k ns with
  | Some n => Some (newConnection n)
  | None => JsMap.get k m
  end.
Proof.
  revert m. induction ns as [|n ns IH]; intros m; simpl.
  - by intros [= ->].
  - destruct (el_data n) as [d|] eqn:Hd; [simpl|done].
    intros Hinit. rewrite (IH _ Hinit).
    destruct (lastNodeWith k ns); [done|].
    rewrite jsmap_get_set. unfold dataKey. rewrite Hd. simpl.
    destruct (decide (k = data_id d)) as [->|Hne].
    + by rewrite decide_True.
    + by rewrite decide_False.
Qed.

Lemma initConnections_NoDup ns m conns :
  initConnections ns m = Some conns →
  NoDup (JsMap.keys m) → NoDup (JsMap.keys conns).
Proof.
  revert m. induction ns as [|n ns IH]; intros m; simpl.
  - by intros [= ->].
  - destruct (el_data n) as [d|]; [simpl|done].
    intros Hinit Hnd. eapply IH; [done|]. by apply jsmap_keys_set_NoDup.
Qed.

Lemma initConnections_data ns m conns n :
  initConnections ns m = Some conns → n ∈ ns → is_Some (el_data n).
Proof.
  revert m. induction ns as [|n0 ns IH]; intros m; simpl.
  - by intros _ ?%elem_of_nil.
  - destruct (el_data n0) as [d|] eqn:Hd; [simpl|done].
    intros Hinit [->|Hin]%elem_of_cons; [by rewrite Hd|]. by eapply IH.
Qed.

Lemma initConnections_total ns m :
  (∀ n, n ∈ ns → is_Some (el_data n)) → is_Some (initConnections ns m).
Proof.
  revert m. induction ns as [|n ns IH]; intros m Hall; simpl; [done|].
  destruct (Hall n) as [d ->]; [apply list_elem_of_here|]. simpl.
  apply IH. intros ??. apply Hall. by apply list_elem_of_further.
Qed.

Lemma initConnections_keys ns conns k :
  initConnections ns [] = Some conns →
  k ∈ JsMap.keys conns ↔ k ∈ dataKey <$> ns.
Proof.
  intros Hinit. pose proof (initConnections_get _ _ _ k Hinit) as Hg.
  destruct (lastNodeWith k ns) as [n|] eqn:Hl.
  - split.
    + intros _. apply lastNodeWith_Some in Hl as [? <-].
      apply list_elem_of_fmap. by exists n.
    + intros _. by eapply jsmap_get_Some_keys.
  - simpl in Hg. apply jsmap_get_None_keys in Hg.
    apply lastNodeWith_None in Hl. done.
Qed.

Lemma processEdge_invalid st e d :
  el_data e = Some d →
  JsMap.get (data_source d) (nodeConnections st) = None ∨
  JsMap.get (data_target d) (nodeConnections st) = None →
  processEdge st e =
  Some {| nodeConnections := nodeConnections st;
          validEdges := validEdges st;
          warnings := warnings st ++ [InvalidEdge (data_source d) (data_target d)] |}.
Proof.
  intros Hd Hmiss. unfold processEdge. rewrite Hd. simpl.
  destruct Hmiss as [-> | ->]; [done|].
  by destruct (JsMap.get (data_source d) _).
Qed.

Lemma processEdge_valid st e d st' :
  processEdge st e = Some st' →
  el_data e = Some d →
  is_Some (JsMap.get (data_source d) (nodeConnections st)) →
  is_Some (JsMap.get (data_target d) (nodeConnections st)) →
  let lvl := classifyRelationship (data_type d) in
  st' =
  {| nodeConnections :=
       JsMap.modify (data_target d) (touchTarget d lvl)
         (JsMap.modify (data_source d) (touchSource d lvl) (nodeConnections st));
     validEdges := validEdges st ++
       [{| edge := e; level := lvl;
           isDirect := match lvl with direct => true | _ => false end;
           isIndirect := match lvl with indirect => true | _ => false end;
           isMetadata := match lvl with metadata => true | _ => false end |}];
     warnings := warnings st |}.
Proof.
  intros Hp Hd [cs Hs] [ct Ht] lvl. unfold processEdge in Hp.
  rewrite Hd in Hp. simpl in Hp. rewrite Hs, Ht in Hp.
  destruct (filterActivityCheck d); simpl in Hp; [|done].
  by injection Hp as <-.
Qed.

Lemma processEdge_cases st e st' :
  processEdge st e = Some st' →
  ∃ d, el_data e = Some d ∧
    ((JsMap.get (data_source d) (nodeConnections st) = None ∨
      JsMap.get (data_target d) (nodeConnections st) = None) ∨
     (is_Some (JsMap.get (data_source d) (nodeConnections st)) ∧
      is_Some (JsMap.get (data_target d) (nodeConnections st)))).
Proof.
  unfold processEdge. destruct (el_data e) as [d|]; [simpl|done].
  intros _. exists d. split; [done|].
  destruct (JsMap.get (data_source d) _); [|by left; left].
  destruct (JsMap.get (data_target d) _); [|by left; right].
  right. by split.
Qed.

Lemma processEdge_keys st e st' :
  processEdge st e = Some st' →
  JsMap.keys (nodeConnections st') = JsMap.keys (nodeConnections st).
Proof.
  intros Hp. destruct (processEdge_cases _ _ _ Hp) as (d & Hd & [Hmiss|[Hs Ht]]).
  - rewrite (processEdge_invalid _ _ _ Hd Hmiss) in Hp. by injection Hp as <-.
  - rewrite (processEdge_valid _ _ _ _ Hp Hd Hs Ht). simpl.
    by rewrite !jsmap_keys_modify.
Qed.

Lemma processEdge_node st e st' k :
  processEdge st e = Some st' →
  node <$> JsMap.get k (nodeConnections st') = node <$> JsMap.get k (nodeConnections st).
Proof.
  intros Hp. destruct (processEdge_cases _ _ _ Hp) as (d & Hd & [Hmiss|[Hs Ht]]).
  - rewrite (processEdge_invalid _ _ _ Hd Hmiss) in Hp. by injection Hp as <-.
  - rewrite (processEdge_valid _ _ _ _ Hp Hd Hs Ht). simpl.
    rewrite !jsmap_get_modify.
    destruct (JsMap.get k (nodeConnections st)) as [c|]; simpl.
    + by repeat case_decide.
    + by repeat case_decide.
Qed.

Lemma processEdge_ok st e st' :
  indexOk st → processEdge st e = Some st' → indexOk st'.
Proof.
  intros (Hnd & Hrec & Hval) Hp.
  pose proof (processEdge_keys _ _ _ Hp) as Hkeys.
  destruct (processEdge_cases _ _ _ Hp) as (d & Hd & [Hmiss|[Hs Ht]]).
  { rewrite (processEdge_invalid _ _ _ Hd Hmiss) in Hp. injection Hp as <-.
    by split_and!. }
  pose proof (processEdge_valid _ _ _ _ Hp Hd Hs Ht) as Hst'. simpl in Hst'.
  set (lvl := classifyRelationship (data_type d)) in *.
  split_and!.
  - by rewrite Hkeys.
  - intros k c'. rewrite Hst'. simpl. rewrite !jsmap_get_modify.
    rewrite !omap_app. simpl. unfold outConnFor at 2, inConnFor at 2. simpl.
    rewrite Hd. simpl.
    destruct (JsMap.get k (nodeConnections st)) as [c|] eqn:Hg; simpl;
      [|by repeat case_decide].
    destruct (Hrec _ _ Hg) as (Hout & Hin & Htot).
    rewrite <- Hout, <- Hin.
    repeat case_decide; simplify_eq; intros [= <-]; simpl;
      rewrite ?length_app, ?app_nil_r; simpl; split_and!; try done; lia.
  - rewrite Hkeys. intros ei. rewrite Hst'. simpl.
    intros [Hin|Hin%list_elem_of_singleton]%elem_of_app; [by apply Hval|].
    subst ei. simpl. exists d. split_and!; try done.
    + destruct Hs as [? Hs]. by eapply jsmap_get_Some_keys.
    + destruct Ht as [? Ht]. by eapply jsmap_get_Some_keys.
Qed.

Lemma processEdges_ok st es st' :
  indexOk st → processEdges st es = Some st' → indexOk st'.
Proof.
  revert st. induction es as [|e es IH]; intros st Hok; simpl.
  - by intros [= <-].
  - destruct (processEdge st e) as [st1|] eqn:Hp; [simpl|done].
    apply IH. by eapply processEdge_ok.
Qed.

Lemma processEdges_keys st es st' :
  processEdges st es = Some st' →
  JsMap.keys (nodeConnections st') = JsMap.keys (nodeConnections st).
Proof.
  revert st. induction es as [|e es IH]; intros st; simpl.
  - by intros [= <-].
  - destruct (processEdge st e) as [st1|] eqn:Hp; [simpl|done].
    intros Hps. rewrite (IH _ Hps). by eapply processEdge_keys.
Qed.

Lemma processEdges_node st es st' k :
  processEdges st es = Some st' →
  node <$> JsMap.get k (nodeConnections st') = node <$> JsMap.get k (nodeConnections st).
Proof.
  revert st. induction es as [|e es IH]; intros st; simpl.
  - by intros [= <-].
  - destruct (processEdge st e) as [st1|] eqn:Hp; [simpl|done].
    intros Hps. rewrite (IH _ Hps). by eapply processEdge_node.
Qed.

Lemma processEdges_total st es :
  forallb (λ e, match el_data e with
                | Some d => bool_decide (is_Some (strOf (data_source d))) &&
                            bool_decide (is_Some (strOf (data_target d)))
                | None => false
                end) es = true →
  is_Some (processEdges st es).
Proof.
  revert st. induction es as [|e es IH]; intros st; simpl; [done|].
  intros [He Hes]%andb_prop.
  destruct (el_data e) as [d|] eqn:Hd; [|done].
  apply andb_prop in He as [[s Hs]%bool_decide_eq_true_1 [t Ht]%bool_decide_eq_true_1].
  assert (is_Some (processEdge st e)) as [st1 ->]; [|by apply IH].
  unfold processEdge. rewrite Hd. simpl.
  unfold filterActivityCheck. rewrite Hs, Ht. simpl.
  destruct (JsMap.get _ _); [|done]. destruct (JsMap.get _ _); [|done].
  by destruct (includes _ _).
Qed.


Lemma splitNodes_orphan conns cn on v :
  v ∈ (splitNodes conns cn on).2 ↔
  v ∈ on ∨ ∃ k c, (k, c) ∈ conns ∧ totalConnections c = 0 ∧ node c = v.
Proof.
  revert cn on. induction conns as [|[k c] conns IH]; intros cn on; simpl.
  - split; [by left|]. intros [?|(? & ? & ?%elem_of_nil & _)]; done.
  - case_bool_decide as Hpos; rewrite IH; split.
    + intros [?|(k' & c' & ? & ? & ?)]; [by left|].
      right. exists k', c'. split; [by apply list_elem_of_further|done].
    + intros [?|(k' & c' & [[= -> ->]|?]%elem_of_cons & ? & ?)]; [by left|lia|].
      right. by exists k', c'.
    + intros [[?|Hv%list_elem_of_singleton]%elem_of_app|(k' & c' & ? & ? & ?)].
      * by left.
      * right. exists k, c. split; [apply list_elem_of_here|]. split; [lia|done].
      * right. exists k', c'. split; [by apply list_elem_of_further|done].
    + intros [?|(k' & c' & [[= -> ->]|?]%elem_of_cons & ? & ?)].
      * left. apply elem_of_app. by left.
      * left. apply elem_of_app. right. by apply list_elem_of_singleton.
      * right. by exists k', c'.
Qed.


Lemma styleOrphan_keeps n n' :
  styleOrphan n = Some n' →
  el_id n' = el_id n ∧ dataKey n' = dataKey n ∧
  ∃ d d', el_data n = Some d ∧ el_data n' = Some d' ∧
    data_source d' = data_source d ∧ data_target d' = data_target d ∧
    data_type d' = data_type d ∧ data_label d' = data_label d ∧
    ∀ key, key ≠ "isOrphan" →
      default ∅ (data_metadata d') !! key = default ∅ (data_metadata d) !! key.
Proof.
  unfold styleOrphan, dataKey. destruct (el_data n) as [d|]; [simpl|done].
  intros [= <-]. simpl. split_and!; try done.
  eexists _, _. split_and!; try done. simpl.
  intros key Hne. by rewrite lookup_insert_ne.
Qed.

(** ** The assembly pass *)

Lemma assemble_Some merged sel a :
  assemble merged sel = Some a →
  ∃ conns st styled,
    initConnections (merged_nodes merged) [] = Some conns ∧
    processEdges {| nodeConnections := conns; validEdges := []; warnings := [] |}
                 (merged_edges merged) = Some st ∧
    mapM styleOrphan (splitNodes (nodeConnections st) [] []).2 = Some styled ∧
    asm_connections a = nodeConnections st ∧
    asm_validEdges a = validEdges st ∧
    connectedNodes a = (splitNodes (nodeConnections st) [] []).1 ∧
    orphanNodes a = (splitNodes (nodeConnections st) [] []).2 ∧
    finalNodes a = connectedNodes a ++ styled ∧
    (highlightedNodes a, highlightedEdges a) = highlight sel (nodeConnections st) ∧
    asm_console a = warnings st.
Proof.
  unfold assemble.
  destruct (initConnections _ _) as [conns|] eqn:Hinit; [simpl|done].
  destruct (processEdges _ _) as [st|] eqn:Hp; [simpl|done].
  destruct (splitNodes _ _ _) as [connected orphans] eqn:Hsplit. simpl.
  destruct (mapM styleOrphan orphans) as [styled|] eqn:Hm; [simpl|done].
  destruct (highlight _ _) as [hn he] eqn:Hh. intros [= <-]. simpl.
  exists conns, st, styled. rewrite Hp, Hsplit, Hh. simpl. by rewrite Hm.
Qed.

Lemma initial_indexOk ns conns :
  initConnections ns [] = Some conns →
  indexOk {| nodeConnections := conns; validEdges := []; warnings := [] |}.
Proof.
  intros Hinit. split_and!; simpl.
  - eapply initConnections_NoDup; [done|]. apply NoDup_nil_2.
  - intros k c. rewrite (initConnections_get _ _ _ k Hinit).
    destruct (lastNodeWith k ns); [|done]. by intros [= <-].
  - by intros ei ?%elem_of_nil.
Qed.

Lemma assemble_index merged sel a :
  assemble merged sel = Some a →
  indexOk {| nodeConnections := asm_connections a;
             validEdges := asm_validEdges a;
             warnings := asm_console a |} ∧
  (∀ k, k ∈ JsMap.keys (asm_connections a) ↔ k ∈ dataKey <$> merged_nodes merged) ∧
  (∀ k, node <$> JsMap.get k (asm_connections a) =
        lastNodeWith k (merged_nodes merged)) ∧
  (∀ n, n ∈ merged_nodes merged → is_Some (el_data n)).
Proof.
  intros (conns & st & styled & Hinit & Hp & _ & -> & -> & _ & _ & _ & _ & ->)%assemble_Some.
  split_and!.
  - pose proof (processEdges_ok _ _ _ (initial_indexOk _ _ Hinit) Hp) as Hok.
    by destruct st.
  - intros k. rewrite (processEdges_keys _ _ _ Hp). simpl.
    by apply initConnections_keys.
  - intros k. rewrite (processEdges_node _ _ _ k Hp). simpl.
    rewrite (initConnections_get _ _ _ k Hinit).
    by destruct (lastNodeWith k _).
  - intros n. by eapply initConnections_data.
Qed.

Lemma omap_nil_iff {A B} (f : A → option B) (l : list A) :
  omap f l = [] ↔ ∀ x, x ∈ l → f x = None.
Proof.
  induction l as [|x l IH]; simpl.
  - split; [by intros _ ? ?%elem_of_nil|done].
  - destruct (f x) eqn:Hf.
    + split; [done|]. intros Hall. specialize (Hall x (list_elem_of_here _ _)).
      congruence.
    + rewrite IH. split.
      * intros Hall y [->|?]%elem_of_cons; [done|by apply Hall].
      * intros Hall y ?. apply Hall. by apply list_elem_of_further.
Qed.

Lemma outConnFor_None k ei :
  outConnFor k ei = None ↔ ∀ d, el_data (edge ei) = Some d → data_source d ≠ k.
Proof.
  unfold outConnFor. destruct (el_data (edge ei)) as [d|]; simpl; [|done].
  case_decide as Hk; split; try done.
  - intros H. by specialize (H d eq_refl).
  - by intros _ d' [= <-].
Qed.

Lemma inConnFor_None k ei :
  inConnFor k ei = None ↔ ∀ d, el_data (edge ei) = Some d → data_target d ≠ k.
Proof.
  unfold inConnFor. destruct (el_data (edge ei)) as [d|]; simpl; [|done].
  case_decide as Hk; split; try done.
  - intros H. by specialize (H d eq_refl).
  - by intros _ d' [= <-].
Qed.

Lemma assemble_total merged sel :
  wellFormed merged = true → is_Some (assemble merged sel).
Proof.
  unfold wellFormed. intros [Hns Hes]%andb_prop.
  assert (∀ n, n ∈ merged_nodes merged → is_Some (el_data n)) as Hdata.
  { intros n Hin. rewrite forallb_forall in Hns.
    apply list_elem_of_In, Hns in Hin. by apply bool_decide_eq_true_1 in Hin. }
  destruct (initConnections_total _ [] Hdata) as [conns Hinit].
  destruct (processEdges_total
              {| nodeConnections := conns; validEdges := []; warnings := [] |}
              _ Hes) as [st Hp].
  unfold assemble. rewrite Hinit. simpl. rewrite Hp. simpl.
  destruct (splitNodes _ _ _) as [connected orphans] eqn:Hsplit. simpl.
  assert (is_Some (mapM styleOrphan orphans)) as [styled ->].
  { apply mapM_is_Some, Forall_forall. intros v Hv.
    replace orphans with (splitNodes (nodeConnections st) [] []).2
      in Hv by by rewrite Hsplit.
    apply splitNodes_orphan in Hv as [?%elem_of_nil|(k & c & Hkc & _ & <-)]; [done|].
    pose proof (processEdges_ok _ _ _ (initial_indexOk _ _ Hinit) Hp) as (Hnd & _ & _).
    pose proof (jsmap_elem_get _ _ _ Hnd Hkc) as Hg.
    pose proof (processEdges_node _ _ _ k Hp) as Hn. simpl in Hn.
    rewrite Hg, (initConnections_get _ _ _ k Hinit) in Hn. simpl in Hn.
    destruct (lastNodeWith k _) as [n|] eqn:Hl; [|done].
    injection Hn as ->. apply lastNodeWith_Some in Hl as [Hin _].
    unfold compose, styleOrphan. by destruct (Hdata _ Hin) as [d ->]. }
  simpl. by destruct (highlight _ _).
Qed.

Lemma resolvesIn_get ns (conns : list (jsval * connection)) e d :
  (∀ k, k ∈ JsMap.keys conns ↔ k ∈ dataKey <$> ns) →
  el_data e = Some d →
  (resolvesIn ns e = true ↔
   is_Some (JsMap.get (data_source d) conns) ∧ is_Some (JsMap.get (data_target d) conns)).
Proof.
  intros Hkeys Hd. unfold resolvesIn. rewrite Hd, andb_true_iff, !bool_decide_eq_true.
  rewrite <- !Hkeys, <- !not_eq_None_Some, !jsmap_get_None_keys. 
  split; intros [? ?]; split; try (by intros ?); by apply dec_stable.
Qed.

Lemma processEdges_valid_edges ns st es st' :
  (∀ k, k ∈ JsMap.keys (nodeConnections st) ↔ k ∈ dataKey <$> ns) →
  processEdges st es = Some st' →
  edge <$> validEdges st' = (edge <$> validEdges st) ++ filter (λ e, resolvesIn ns e = true) es ∧
  warnings st' = warnings st ++ omap (warningFor ns) es.
Proof.
  revert st. induction es as [|e es IH]; intros st Hkeys; simpl.
  - intros [= <-]. by rewrite !app_nil_r.
  - destruct (processEdge st e) as [st1|] eqn:Hp; [simpl|done]. intros Hps.
    pose proof (processEdge_keys _ _ _ Hp) as Hk1.
    destruct (IH st1) as [Hv Hw]; [by intros k; rewrite Hk1|done|].
    rewrite Hv, Hw. clear Hv Hw.
    destruct (processEdge_cases _ _ _ Hp) as (d & Hd & Hcase).
    pose proof (resolvesIn_get ns _ e d Hkeys Hd) as Hres.
    rewrite filter_cons. unfold warningFor at 2. rewrite Hd. simpl.
    destruct Hcase as [Hmiss|[Hs Ht]].
    + rewrite (processEdge_invalid _ _ _ Hd Hmiss) in Hp. injection Hp as <-. simpl.
      assert (resolvesIn ns e = false) as Hf.
      { destruct (resolvesIn ns e); [|done]. destruct Hres as [[[? ?] [? ?]] _]; [done|].
        destruct Hmiss; congruence. }
      rewrite Hf. rewrite decide_False by done. by rewrite <- app_assoc.
    + rewrite (processEdge_valid _ _ _ _ Hp Hd Hs Ht). simpl.
      assert (resolvesIn ns e = true) as Hf by (by apply Hres).
      rewrite Hf, decide_True by done. rewrite fmap_app, <- app_assoc. done.
Qed.







Example sample_orphans :
  orphanNodes <$> assemble sampleGraph None = Some [mkNode "D"].
Proof. vm_compute. reflexivity. Qed.

Example sample_connected :
  connectedNodes <$> assemble sampleGraph None =
  Some [mkNode "A"; mkNode "B"; mkNode "C"].
Proof. vm_compute. reflexivity. Qed.

Example sample_validEdges :
  (λ a, (edge <$> asm_validEdges a, level <$> asm_validEdges a, asm_console a))
    <$> assemble sampleGraph None =
  Some ([mkEdge "e1" "A" "B" "writes_to"; mkEdge "e2" "C" "A" "uses_in_decision"],
        [direct; metadata],
        [InvalidEdge (Str "A") (Str "Z")]).
Proof. vm_compute. reflexivity. Qed.

Example sample_totals :
  (λ a, (λ kc, (kc.1, totalConnections kc.2)) <$> asm_connections a)
    <$> assemble sampleGraph None =
  Some [(Str "A", 2); (Str "B", 1); (Str "C", 1); (Str "D", 0)].
Proof. vm_compute. reflexivity. Qed.

Example sample_highlight :
  (λ a, (highlightedNodes a, highlightedEdges a))
    <$> assemble sampleGraph (Some "B") =
  Some ({[ Str "A"; Str "B" ]}, {[ Str "e1" ]}).
Proof. vm_compute. reflexivity. Qed.

(** ** Dropped edges *)









(** ** Selection highlighter *)

Lemma highlight_inbound_fold (l : list inConn) (hn he : gset jsval) :
  foldl (λ '(hn, he) conn, (hn ∪ {[ sourceId conn ]}, he ∪ {[ in_edgeId conn ]}))
        (hn, he) l =
  (hn ∪ list_to_set (sourceId <$> l), he ∪ list_to_set (in_edgeId <$> l)).
Proof.
  revert hn he. induction l as [|conn l IH]; intros hn he; csimpl.
  - f_equal; set_solver.
  - rewrite IH. f_equal; set_solver.
Qed.

Lemma highlight_outbound_fold (l : list outConn) (hn he : gset jsval) :
  foldl (λ '(hn, he) conn, (hn ∪ {[ targetId conn ]}, he ∪ {[ out_edgeId conn ]}))
        (hn, he) l =
  (hn ∪ list_to_set (targetId <$> l), he ∪ list_to_set (out_edgeId <$> l)).
Proof.
  revert hn he. induction l as [|conn l IH]; intros hn he; csimpl.
  - f_equal; set_solver.
  - rewrite IH. f_equal; set_solver.
Qed.

Lemma highlight_falsy sel conns :
  asTruthy sel = None → highlight sel conns = (∅, ∅).
Proof.
  unfold highlight. by intros ->.
Qed.

Lemma highlight_truthy s conns :
  s ≠ "" →
  highlight (Some s) conns =
  ({[ Str s ]}
     ∪ list_to_set (sourceId <$> default [] (inbound <$> JsMap.get (Str s) conns))
     ∪ list_to_set (targetId <$> default [] (outbound <$> JsMap.get (Str s) conns)),
   list_to_set (in_edgeId <$> default [] (inbound <$> JsMap.get (Str s) conns))
     ∪ list_to_set (out_edgeId <$> default [] (outbound <$> JsMap.get (Str s) conns))).
Proof.
  intros Hne. unfold highlight. rewrite (asTruthy_nonempty _ Hne).
  destruct (JsMap.get (Str s) conns) as [c|]; simpl.
  - rewrite highlight_inbound_fold, highlight_outbound_fold. f_equal; set_solver.
  - f_equal; set_solver.
Qed.

(** C6. With no selected node both highlight sets are empty.  With the
    selected node [s], [highlightedNodes] is [s] together with the
    [sourceId]s of its inbound and the [targetId]s of its outbound
    connections, and [highlightedEdges] is the set of the edge ids of those
    connections.  In terms of the graph: every valid edge between [s] and a
    node [u] puts [u] in [highlightedNodes] and its own id in
    [highlightedEdges], and nothing else is highlighted.  (The empty string
    is falsy and counts as no selection.) *)
Theorem highlight_one_hop (merged : mergedGraph) (sel : option string) :
  (wellFormed merged = true → is_Some (assemble merged sel)) ∧
  ∀ a, assemble merged sel = Some a →
    (sel = None ∨ sel = Some "" → highlightedNodes a = ∅ ∧ highlightedEdges a = ∅) ∧
    (∀ s, sel = Some s → s ≠ "" →
       let ins := default [] (inbound <$> JsMap.get (Str s) (asm_connections a)) in
       let outs := default [] (outbound <$> JsMap.get (Str s) (asm_connections a)) in
       highlightedNodes a =
         {[ Str s ]} ∪ list_to_set (sourceId <$> ins) ∪ list_to_set (targetId <$> outs) ∧
       highlightedEdges a =
         list_to_set (in_edgeId <$> ins) ∪ list_to_set (out_edgeId <$> outs) ∧
       (∀ ei d, ei ∈ asm_validEdges a → el_data (edge ei) = Some d →
          (data_source d = Str s →
             data_target d ∈ highlightedNodes a ∧ data_id d ∈ highlightedEdges a) ∧
          (data_target d = Str s →
             data_source d ∈ highlightedNodes a ∧ data_id d ∈ highlightedEdges a)) ∧
       (∀ x, x ∈ highlightedEdges a →
          ∃ ei d, ei ∈ asm_validEdges a ∧ el_data (edge ei) = Some d ∧ data_id d = x ∧
                  (data_source d = Str s ∨ data_target d = Str s)) ∧
       (∀ u, u ∈ highlightedNodes a →
          u = Str s ∨
          ∃ ei d, ei ∈ asm_validEdges a ∧ el_data (edge ei) = Some d ∧
                  ((data_source d = Str s ∧ data_target d = u) ∨
                   (data_target d = Str s ∧ data_source d = u)))).
Proof.
  split; [apply assemble_total|]. intros a Ha.
  destruct (assemble_index _ _ _ Ha) as ((Hnd & Hrec & Hval) & _ & _ & _).
  simpl in Hnd, Hrec, Hval.
  apply assemble_Some in Ha as
    (conns & st & styled & _ & _ & _ & Hc & _ & _ & _ & _ & Hh & _).
  rewrite <- Hc in Hh. split.
  { intros Hsel. rewrite highlight_falsy in Hh; [by injection Hh|].
    by destruct Hsel as [-> | ->]. }
  intros s -> Hne ins outs. rewrite (highlight_truthy _ _ Hne) in Hh.
  fold ins outs in Hh. injection Hh as HN HE.
  assert (∀ c, JsMap.get (Str s) (asm_connections a) = Some c →
               ins = omap (inConnFor (Str s)) (asm_validEdges a) ∧
               outs = omap (outConnFor (Str s)) (asm_validEdges a)) as Hio.
  { intros c Hg. subst ins outs. rewrite Hg. simpl.
    by destruct (Hrec _ _ Hg) as (-> & -> & _). }
  assert (Str s ∈ JsMap.keys (asm_connections a) →
          ∃ c, JsMap.get (Str s) (asm_connections a) = Some c) as Hkey.
  { intros Hin. destruct (JsMap.get (Str s) _) as [c|] eqn:Hg; [by exists c|].
    by apply jsmap_get_None_keys in Hg. }
  split; [done|]. split; [done|]. split_and!.
  - intros ei d Hei Hd. destruct (Hval _ Hei) as (d' & Hd' & _ & Hs & Ht).
    rewrite Hd in Hd'. injection Hd' as <-. split.
    + intros Hsrc. rewrite Hsrc in Hs. destruct (Hkey Hs) as [c Hg].
      destruct (Hio _ Hg) as [_ Hout].
      assert ({| out_edgeId := data_id d; targetId := data_target d;
                 out_type := data_type d; out_label := data_label d;
                 out_level := level ei |} ∈ outs) as Hmem.
      { rewrite Hout. apply list_elem_of_omap. exists ei. split; [done|].
        unfold outConnFor. rewrite Hd. simpl. by rewrite decide_True. }
      rewrite HN, HE. split.
      * apply elem_of_union_r, elem_of_list_to_set, list_elem_of_fmap.
        by eexists; split; [|exact Hmem].
      * apply elem_of_union_r, elem_of_list_to_set, list_elem_of_fmap.
        by eexists; split; [|exact Hmem].
    + intros Htgt. rewrite Htgt in Ht. destruct (Hkey Ht) as [c Hg].
      destruct (Hio _ Hg) as [Hin _].
      assert ({| in_edgeId := data_id d; sourceId := data_source d;
                 in_type := data_type d; in_label := data_label d;
                 in_level := level ei |} ∈ ins) as Hmem.
      { rewrite Hin. apply list_elem_of_omap. exists ei. split; [done|].
        unfold inConnFor. rewrite Hd. simpl. by rewrite decide_True. }
      rewrite HN, HE. split.
      * apply elem_of_union_l, elem_of_union_r, elem_of_list_to_set, list_elem_of_fmap.
        by eexists; split; [|exact Hmem].
      * apply elem_of_union_l, elem_of_list_to_set, list_elem_of_fmap.
        by eexists; split; [|exact Hmem].
  - intros x. rewrite HE, elem_of_union, !elem_of_list_to_set, !list_elem_of_fmap.
    destruct (JsMap.get (Str s) (asm_connections a)) as [c|] eqn:Hg.
    + destruct (Hio c eq_refl) as [-> ->].
      intros [(conn & -> & Hconn)|(conn & -> & Hconn)];
        apply list_elem_of_omap in Hconn as (ei & Hei & Hf).
      * unfold inConnFor in Hf. destruct (el_data (edge ei)) as [d|] eqn:Hd; [|done].
        simpl in Hf. case_decide; [|done]. injection Hf as <-. simpl.
        exists ei, d. split_and!; try done. by right.
      * unfold outConnFor in Hf. destruct (el_data (edge ei)) as [d|] eqn:Hd; [|done].
        simpl in Hf. case_decide; [|done]. injection Hf as <-. simpl.
        exists ei, d. split_and!; try done. by left.
    + subst ins outs. simpl.
      by intros [(conn & _ & ?%elem_of_nil)|(conn & _ & ?%elem_of_nil)].
  - intros u. rewrite HN, !elem_of_union, elem_of_singleton,
      !elem_of_list_to_set, !list_elem_of_fmap.
    destruct (JsMap.get (Str s) (asm_connections a)) as [c|] eqn:Hg.
    + destruct (Hio c eq_refl) as [-> ->].
      intros [[->|(conn & -> & Hconn)]|(conn & -> & Hconn)]; [by left|..];
        apply list_elem_of_omap in Hconn as (ei & Hei & Hf); right.
      * unfold inConnFor in Hf. destruct (el_data (edge ei)) as [d|] eqn:Hd; [|done].
        simpl in Hf. case_decide; [|done]. injection Hf as <-. simpl.
        exists ei, d. split_and!; try done. by right.
      * unfold outConnFor in Hf. destruct (el_data (edge ei)) as [d|] eqn:Hd; [|done].
        simpl in Hf. case_decide; [|done]. injection Hf as <-. simpl.
        exists ei, d. split_and!; try done. by left.
    + subst ins outs. simpl.
      intros [[->|(conn & _ & ?%elem_of_nil)]|(conn & _ & ?%elem_of_nil)]; try done.
      by left.
Qed.

Lemma highlight_one_hop_witness :
  wellFormed sampleGraph = true ∧
  ∃ a, assemble sampleGraph (Some "B") = Some a ∧
    highlightedNodes a =
      {[ Str "B" ]}
        ∪ list_to_set (sourceId <$>
            default [] (inbound <$> JsMap.get (Str "B") (asm_connections a)))
        ∪ list_to_set (targetId <$>
            default [] (outbound <$> JsMap.get (Str "B") (asm_connections a))) ∧
    ∀ ei d, ei ∈ asm_validEdges a → el_data (edge ei) = Some d →
      data_target d = Str "B" →
      data_source d ∈ highlightedNodes a ∧ data_id d ∈ highlightedEdges a.
Proof.
  split; [reflexivity|].
  destruct (highlight_one_hop sampleGraph (Some "B")) as [Htot Hpart].
  destruct (Htot eq_refl) as [a Ha]. exists a. split; [exact Ha|].
  destruct (Hpart a Ha) as [_ Hsel].
  assert ("B" ≠ "") as Hne by discriminate.
  destruct (Hsel "B" eq_refl Hne) as (HN & _ & Hsym & _).
  split; [exact HN|].
  intros ei d Hei Hd Ht. destruct (Hsym ei d Hei Hd) as [_ Hin]. exact (Hin Ht).
Defined.

(** ** The merge step of [updateGraph] *)

Lemma first_write_wins_witness :
  versionOf "n1" [labelled "n1" "from A"] = Some (labelled "n1" "from A") ∧
  versionOf "n1" [labelled "n1" "from B"] = Some (labelled "n1" "from B") ∧
  dedupeById ([labelled "n1" "from A"] ++ [labelled "n1" "from B"]) ≠
  dedupeById ([labelled "n1" "from B"] ++ [labelled "n1" "from A"]) ∧
  versionOf "n1" (dedupeById ([labelled "n1" "from A"] ++ [labelled "n1" "from B"]))
    = Some (labelled "n1" "from A").
Proof.
  assert (labelled "n1" "from A" ≠ labelled "n1" "from B") as Hne by discriminate.
  destruct (dedupeById_first_write_wins
              [labelled "n1" "from A"] [labelled "n1" "from B"] "n1"
              (labelled "n1" "from A") (labelled "n1" "from B")
              eq_refl eq_refl Hne) as (Hv & _ & _ & _ & _ & Hord).
  split; [reflexivity|]. split; [reflexivity|]. split; [exact Hord | exact Hv].
Defined.

Lemma hasActiveSelections_true (sel : gmap string (gmap string bool)) :
  hasActiveSelections sel = true ↔
  ∃ category objs objectId, sel !! category = Some objs ∧ objs !! objectId = Some true.
Proof.
  unfold hasActiveSelections. rewrite andb_true_iff, bool_decide_eq_true, existsb_exists.
  split.
  - intros [_ (objs & Hobjs & Hex)]. apply existsb_exists in Hex as (b & Hb & Htrue).
    apply list_elem_of_In, list_elem_of_fmap in Hobjs as ([category objs'] & Heq & Hin).
    apply list_elem_of_In, list_elem_of_fmap in Hb as ([objectId b'] & Heq' & Hin').
    simpl in Heq, Heq'. subst objs' b' b.
    apply elem_of_map_to_list in Hin, Hin'. by exists category, objs, objectId.
  - intros (category & objs & objectId & Hc & Ho). split.
    + assert (size sel ≠ 0); [|lia]. by eapply map_size_ne_0_lookup_2.
    + exists objs. split.
      * apply list_elem_of_In, list_elem_of_fmap. exists (category, objs).
        split; [done|]. by apply elem_of_map_to_list.
      * apply existsb_exists. exists true. split; [|done].
        apply list_elem_of_In, list_elem_of_fmap. exists (objectId, true).
        split; [done|]. by apply elem_of_map_to_list.
Qed.

(** C1 as stated fails: with an object ticked in the selection, the graph
    handed to the indexer is the fetched graph alone. *)
Lemma focused_selection_skips_merge :
  merged_nodes (mergedGraphData focusedSelection fetchedGraph expandedGraph)
    = [mkNode "A"] ∧
  dedupeById (orEmpty (nodes fetchedGraph) ++ orEmpty (nodes expandedGraph))
    = [mkNode "A"; mkNode "B"] ∧
  ¬ (merged_nodes (mergedGraphData focusedSelection fetchedGraph expandedGraph)
       = dedupeById (orEmpty (nodes fetchedGraph) ++ orEmpty (nodes expandedGraph)) ∧
     merged_edges (mergedGraphData focusedSelection fetchedGraph expandedGraph)
       = dedupeById (orEmpty (edges fetchedGraph) ++ orEmpty (edges expandedGraph))).
Proof.
  assert (merged_nodes (mergedGraphData focusedSelection fetchedGraph expandedGraph)
          = [mkNode "A"]) as H1 by (vm_compute; reflexivity).
  assert (dedupeById (orEmpty (nodes fetchedGraph) ++ orEmpty (nodes expandedGraph))
          = [mkNode "A"; mkNode "B"]) as H2 by (vm_compute; reflexivity).
  split; [exact H1|]. split; [exact H2|].
  intros [Heq _]. rewrite H1, H2 in Heq. discriminate Heq.
Qed.

(** C1, amended. Without any ticked object in the selection (general
    browsing), the graph handed to the indexer is the first-write-wins merge
    of the fetched graph with [extraGraph]; with a ticked object it is the
    fetched graph as it came, and [extraGraph] is not merged in. *)
Theorem mergedGraphData_by_mode (selectedObjects : gmap string (gmap string bool))
    (baseGraphData extraGraph : graphData) :
  ((∀ category objs objectId,
      selectedObjects !! category = Some objs → objs !! objectId ≠ Some true) →
   mergedGraphData selectedObjects baseGraphData extraGraph =
     {| merged_nodes :=
          dedupeById (orEmpty (nodes baseGraphData) ++ orEmpty (nodes extraGraph));
        merged_edges :=
          dedupeById (orEmpty (edges baseGraphData) ++ orEmpty (edges extraGraph)) |}) ∧
  (∀ category objs objectId,
     selectedObjects !! category = Some objs → objs !! objectId = Some true →
     mergedGraphData selectedObjects baseGraphData extraGraph =
       {| merged_nodes := orEmpty (nodes baseGraphData);
          merged_edges := orEmpty (edges baseGraphData) |}) ∧
  (∀ fetchGraphData showAllObjects selectedNodeId,
     viewOf <$> updateGraph fetchGraphData selectedObjects showAllObjects
                            extraGraph selectedNodeId =
     viewOf <$> assemble
       (mergedGraphData selectedObjects
          (loadGraphData fetchGraphData selectedObjects showAllObjects).1 extraGraph)
       selectedNodeId).
Proof.
  split_and!.
  - intros Hnone. unfold mergedGraphData.
    destruct (hasActiveSelections selectedObjects) eqn:Hact; [|done].
    apply hasActiveSelections_true in Hact as (c & objs & o & Hc & Ho).
    by destruct (Hnone c objs o Hc).
  - intros c objs o Hc Ho. unfold mergedGraphData.
    rewrite (proj2 (hasActiveSelections_true _)); [done|]. by exists c, objs, o.
  - intros fetch showAll selId. unfold updateGraph.
    destruct (loadGraphData _ _ _) as [base errs]. simpl.
    by destruct (assemble _ _).
Qed.

Lemma mergedGraphData_by_mode_witness :
  mergedGraphData ∅ fetchedGraph expandedGraph =
    {| merged_nodes := [mkNode "A"; mkNode "B"];
       merged_edges := [mkEdge "e1" "A" "B" "writes_to"] |} ∧
  mergedGraphData focusedSelection fetchedGraph expandedGraph =
    {| merged_nodes := [mkNode "A"]; merged_edges := [] |}.
Proof.
  destruct (mergedGraphData_by_mode ∅ fetchedGraph expandedGraph) as (Hbrowse & _ & _).
  destruct (mergedGraphData_by_mode focusedSelection fetchedGraph expandedGraph)
    as (_ & Hfocus & _).
  split.
  - rewrite Hbrowse; [reflexivity|]. intros category objs objectId Hc.
    vm_compute in Hc. discriminate Hc.
  - apply (Hfocus "Data Extensions" {[ "de-1" := true ]} "de-1"); reflexivity.
Defined.

(** ** Expansion engine *)

Section expansion_facts.
Variable fetchExpandDependencies : string → option graphData.
Variable arrival : Z → list string → list string.

Local Abbreviation expandLevel := (expandLevel fetchExpandDependencies arrival).
Local Abbreviation expandLoop := (expandLoop fetchExpandDependencies arrival).
Local Abbreviation expandWalk := (expandWalk fetchExpandDependencies arrival).

Lemma expandLevel_depth w : depth (expandLevel w) = (depth w + 1)%Z.
Proof. done. Qed.

Lemma expandLevel_rounds w : rounds (expandLevel w) = rounds w ++ [frontier w].
Proof. done. Qed.

Lemma loopGuard_true maxDepth w :
  loopGuard maxDepth w = true ↔ frontier w ≠ [] ∧ (depth w < maxDepth)%Z.
Proof.
  unfold loopGuard. rewrite andb_true_iff, !bool_decide_eq_true.
  destruct (frontier w); simpl; split; intros [? ?]; split; try done; lia.
Qed.

Lemma loopGuard_false maxDepth w :
  loopGuard maxDepth w = false ↔ frontier w = [] ∨ (maxDepth ≤ depth w)%Z.
Proof.
  destruct (loopGuard maxDepth w) eqn:Hg.
  - apply loopGuard_true in Hg as [? ?]. split; [done|]. intros [?|?]; [done|lia].
  - split; [|done]. intros _.
    destruct (decide (frontier w = [])) as [|Hne]; [by left|right].
    destruct (decide (maxDepth ≤ depth w)%Z) as [|Hlt]; [done|].
    assert (loopGuard maxDepth w = true); [|congruence].
    apply loopGuard_true. split; [done|lia].
Qed.

(** The loop leaves by its own condition once [maxDepth - depth]
    iterations are allowed. *)
Lemma expandLoop_exits fuel maxDepth w :
  (Z.to_nat (maxDepth - depth w) ≤ fuel)%nat →
  loopGuard maxDepth (expandLoop fuel maxDepth w) = false.
Proof.
  revert w. induction fuel as [|fuel IH]; intros w Hfuel; simpl.
  - apply loopGuard_false. right. lia.
  - destruct (loopGuard maxDepth w) eqn:Hg; [|done].
    apply IH. rewrite expandLevel_depth. lia.
Qed.

(** More iterations than that change nothing. *)
Lemma expandLoop_fuel fuel maxDepth w :
  (Z.to_nat (maxDepth - depth w) ≤ fuel)%nat →
  expandLoop fuel maxDepth w =
  expandLoop (Z.to_nat (maxDepth - depth w)) maxDepth w.
Proof.
  revert w. induction fuel as [|fuel IH]; intros w Hfuel.
  - by replace (Z.to_nat (maxDepth - depth w)) with 0 by lia.
  - simpl. destruct (loopGuard maxDepth w) eqn:Hg.
    + apply loopGuard_true in Hg as Hg'. destruct Hg' as [_ Hlt].
      replace (Z.to_nat (maxDepth - depth w))
        with (S (Z.to_nat (maxDepth - depth (expandLevel w))))
        by (rewrite expandLevel_depth; lia).
      simpl. rewrite Hg. apply IH. rewrite expandLevel_depth. lia.
    + destruct (Z.to_nat (maxDepth - depth w)); simpl; [done|by rewrite Hg].
Qed.

(** Every executed loop body adds one round and one level, and only
    while [depth < maxDepth] and the frontier is not empty. *)
Lemma expandLoop_rounds fuel maxDepth w :
  ∃ more,
    rounds (expandLoop fuel maxDepth w) = rounds w ++ more ∧
    depth (expandLoop fuel maxDepth w) = (depth w + Z.of_nat (length more))%Z ∧
    (length more ≤ fuel)%nat ∧
    (depth w + Z.of_nat (length more) ≤ Z.max (depth w) maxDepth)%Z ∧
    Forall (λ r, r ≠ []) more.
Proof.
  revert w. induction fuel as [|fuel IH]; intros w; simpl.
  - exists []. rewrite app_nil_r. simpl. split_and!; try done; lia.
  - destruct (loopGuard maxDepth w) eqn:Hg.
    + apply loopGuard_true in Hg as [Hne Hlt].
      destruct (IH (expandLevel w)) as (more & Hr & Hd & Hlen & Hmax & Hall).
      exists (frontier w :: more).
      rewrite Hr, Hd, expandLevel_rounds, expandLevel_depth, <- app_assoc.
      rewrite expandLevel_depth in Hmax. simpl.
      split_and!; try done; try lia. by constructor.
    + exists []. rewrite app_nil_r. simpl. split_and!; try done; lia.
Qed.
End expansion_facts.

(** C7. The recursive expansion terminates and runs its loop body at most
    [maxDepth] times, whatever the backend returns: from the start state
    the loop leaves by its own condition within [maxDepth] iterations (more
    allowed iterations change nothing), each executed body issues the
    fetches of one non-empty frontier, the number of these rounds equals the
    final [depth] and is at most [maxDepth] (none when [maxDepth] is not
    positive), and the loop stops below [maxDepth] only on an empty
    frontier. *)
Theorem expansion_terminates
    (fetchExpandDependencies : string → option graphData)
    (arrival : Z → list string → list string)
    (nodeId : string) (maxDepth : Z) (s : session) :
  let w := expandWalk fetchExpandDependencies arrival nodeId maxDepth s in
  loopGuard maxDepth w = false ∧
  (∀ fuel, (Z.to_nat maxDepth ≤ fuel)%nat →
     expandLoop fetchExpandDependencies arrival fuel maxDepth (startWalk nodeId s) = w) ∧
  depth w = Z.of_nat (length (rounds w)) ∧
  (Z.of_nat (length (rounds w)) ≤ Z.max 0 maxDepth)%Z ∧
  Forall (λ r, r ≠ []) (rounds w) ∧
  ((Z.of_nat (length (rounds w)) < maxDepth)%Z → frontier w = []).
Proof.
  intros w. subst w. unfold expandWalk.
  assert (loopGuard maxDepth
            (expandLoop fetchExpandDependencies arrival (Z.to_nat maxDepth) maxDepth
               (startWalk nodeId s)) = false) as Hexit.
  { apply expandLoop_exits. simpl. lia. }
  destruct (expandLoop_rounds fetchExpandDependencies arrival
              (Z.to_nat maxDepth) maxDepth (startWalk nodeId s))
    as (more & Hr & Hd & Hlen & Hmax & Hall).
  simpl in Hr, Hd, Hmax. rewrite Hr, Hd.
  split_and!; try done.
  - intros fuel Hfuel. rewrite expandLoop_fuel by (simpl; lia).
    simpl. by rewrite Z.sub_0_r.
  - intros Hlt. apply loopGuard_false in Hexit as [?|Hge]; [done|].
    rewrite Hd in Hge. lia.
Qed.

(** ** The two-level chain *)

Lemma elementKey_dataId el id :
  dataId el = Some id → id ≠ "" → elementKey el = Some id.
Proof. intros Hd Hne. apply elementKey_fields. split; [done|by left]. Qed.

Lemma dedupeById_one b kb : elementKey b = Some kb → dedupeById [b] = [b].
Proof. intros Hb. unfold dedupeById. simpl. by rewrite Hb. Qed.

Lemma dedupeById_two b c kb kc :
  elementKey b = Some kb → elementKey c = Some kc → kb ≠ kc →
  dedupeById [b; c] = [b; c].
Proof.
  intros Hb Hc Hne. unfold dedupeById. simpl. rewrite Hb. simpl.
  rewrite Hc. unfold JsMap.has. simpl.
  rewrite decide_False by done. simpl. by rewrite decide_False by done.
Qed.

(** A level whose frontier is the single node [x], when the response for
    [x] holds the single node [n], not visited so far. *)
Lemma expandLevel_single_new fetch arrival w x res n idn :
  frontier w = [x] →
  arrival (depth w) [x] = [x] →
  fetch x = Some res →
  orEmpty (nodes res) = [n] →
  dataId n = Some idn → idn ≠ "" → idn ∉ visited w →
  expandLevel fetch arrival w =
  {| w_extraGraph := mergeInto (w_extraGraph w) [n] (orEmpty (edges res));
     w_console := w_console w;
     visited := {[ idn ]} ∪ visited w;
     frontier := [idn];
     depth := depth w + 1;
     rounds := rounds w ++ [[x]] |}.
Proof.
  intros Hf Harr Hfetch Hns Hid Hne Hnew. unfold expandLevel.
  rewrite Hf, Harr. simpl. unfold expandNode. rewrite Hfetch, Hns. simpl.
  unfold discover. rewrite Hid, (asTruthy_nonempty _ Hne). simpl.
  by rewrite bool_decide_eq_false_2.
Qed.

(** C2 as stated fails: after [expandSelectedNodeRecursively(2)] from [A] on
    the chain backend, [extraGraph] holds the nodes [B] and [C] but not [A],
    and the frontier is [C], not empty.  The frontier is [C] as well when
    every response also contains the node that was expanded. *)
Lemma chain_depth2_counterexample :
  let w := expandWalk chainFetch inOrder "A" 2 (freshSession "A") in
  orEmpty (nodes (w_extraGraph w)) = [mkNode "B"; mkNode "C"] ∧
  frontier w = ["C"] ∧
  ¬ ((∀ id, Some id ∈ dataId <$> orEmpty (nodes (w_extraGraph w))
            ↔ id ∈ ["A"; "B"; "C"]) ∧
     frontier w = []).
Proof.
  assert (orEmpty (nodes (w_extraGraph
            (expandWalk chainFetch inOrder "A" 2 (freshSession "A"))))
          = [mkNode "B"; mkNode "C"]) as Hn by (vm_compute; reflexivity).
  assert (frontier (expandWalk chainFetch inOrder "A" 2 (freshSession "A"))
          = ["C"]) as Hf by (vm_compute; reflexivity).
  simpl. split; [exact Hn|]. split; [exact Hf|].
  intros [_ Hempty]. rewrite Hf in Hempty. discriminate Hempty.
Qed.

Example chain_depth2_inclusive_responses :
  let fetch := λ nodeId : string,
    if bool_decide (nodeId = "A")
    then Some {| nodes := Some [mkNode "A"; mkNode "B"]; edges := Some [] |}
    else if bool_decide (nodeId = "B")
    then Some {| nodes := Some [mkNode "B"; mkNode "C"]; edges := Some [] |}
    else Some {| nodes := Some []; edges := Some [] |} in
  let w := expandWalk fetch inOrder "A" 2 (freshSession "A") in
  orEmpty (nodes (w_extraGraph w)) = [mkNode "A"; mkNode "B"; mkNode "C"] ∧
  frontier w = ["C"] ∧ rounds w = [["A"]; ["A"; "B"]].
Proof. vm_compute. done. Qed.

(** C2, amended. From an empty [extraGraph], when the response for the start
    node holds the single node [b] and the response for [b] the single node
    [c], [expandSelectedNodeRecursively(2)] runs two rounds and ends with
    [extraGraph] holding exactly the nodes [b] and [c], in this order, and
    with the frontier [[c]]. *)
Theorem chain_depth2
    (fetch : string → option graphData) (call : list diag * bool)
    (arrival : Z → list string → list string)
    (a idb idc : string) (b c : element) (ra rb : graphData) (s : session) :
  (∀ level x, arrival level [x] = [x]) →
  selectedNodeId s = Some a → a ≠ "" →
  orEmpty (nodes (extraGraph s)) = [] →
  fetch a = Some ra → orEmpty (nodes ra) = [b] →
  fetch idb = Some rb → orEmpty (nodes rb) = [c] →
  dataId b = Some idb → idb ≠ "" →
  dataId c = Some idc → idc ≠ "" →
  idb ≠ idc →
  let w := expandWalk fetch arrival a 2 s in
  extraGraph (expandSelectedNodeRecursively fetch call arrival 2 s) = w_extraGraph w ∧
  orEmpty (nodes (w_extraGraph w)) = [b; c] ∧
  frontier w = [idc] ∧
  depth w = 2%Z ∧
  rounds w = [[a]; [idb]] ∧
  visited w = {[ idb; idc ]}.
Proof.
  intros Harr Hsel Hna Hempty Hfa Hra Hfb Hrb Hb Hnb Hc Hnc Hne w. subst w.
  split.
  { unfold expandSelectedNodeRecursively. by rewrite Hsel, (asTruthy_nonempty _ Hna). }
  unfold expandWalk. change (Z.to_nat 2) with 2.
  set (w0 := startWalk a s).
  assert (visited w0 = ∅) as Hv0.
  { subst w0. simpl. by rewrite Hempty. }
  assert (expandLevel fetch arrival w0 =
          {| w_extraGraph := mergeInto (extraGraph s) [b] (orEmpty (edges ra));
             w_console := console s;
             visited := {[ idb ]} ∪ ∅;
             frontier := [idb];
             depth := 1;
             rounds := [[a]] |}) as H1.
  { assert (idb ∉ visited w0) as Hnew by (rewrite Hv0; set_solver).
    rewrite (expandLevel_single_new fetch arrival w0 a ra b idb
               eq_refl (Harr _ _) Hfa Hra Hb Hnb Hnew).
    by rewrite Hv0. }
  set (w1 := expandLevel fetch arrival w0) in *.
  assert (expandLevel fetch arrival w1 =
          {| w_extraGraph := mergeInto (w_extraGraph w1) [c] (orEmpty (edges rb));
             w_console := w_console w1;
             visited := {[ idc ]} ∪ visited w1;
             frontier := [idc];
             depth := 2;
             rounds := [[a]; [idb]] |}) as H2.
  { assert (frontier w1 = [idb]) as Hf1 by by rewrite H1.
    assert (idc ∉ visited w1) as Hv1 by (rewrite H1; simpl; set_solver).
    rewrite (expandLevel_single_new fetch arrival w1 idb rb c idc
               Hf1 (Harr _ _) Hfb Hrb Hc Hnc Hv1).
    by rewrite H1. }
  assert (expandLoop fetch arrival 2 2 w0 = expandLevel fetch arrival w1) as ->.
  { change (expandLoop fetch arrival 2 2 w0)
      with (if loopGuard 2 w0 then expandLoop fetch arrival 1 2 w1 else w0).
    assert (loopGuard 2 w0 = true) as -> by done.
    change (expandLoop fetch arrival 1 2 w1)
      with (if loopGuard 2 w1 then expandLevel fetch arrival w1 else w1).
    assert (loopGuard 2 w1 = true) as ->; [|done].
    unfold loopGuard. by rewrite H1. }
  rewrite H2, H1. simpl. split_and!; try done.
  - rewrite Hempty. simpl.
    rewrite (dedupeById_one b idb) by by apply elementKey_dataId.
    simpl. apply (dedupeById_two b c idb idc); [by apply elementKey_dataId..|done].
  - set_solver.
Qed.

Lemma chain_depth2_witness :
  let w := expandWalk chainFetch inOrder "A" 2 (freshSession "A") in
  extraGraph (expandSelectedNodeRecursively chainFetch ([], true) inOrder 2
                (freshSession "A")) = w_extraGraph w ∧
  orEmpty (nodes (w_extraGraph w)) = [mkNode "B"; mkNode "C"] ∧
  frontier w = ["C"] ∧
  depth w = 2%Z ∧
  rounds w = [["A"]; ["B"]] ∧
  visited w = {[ "B"; "C" ]}.
Proof.
  assert ("A" ≠ "") as HA by discriminate.
  assert ("B" ≠ "") as HB by discriminate.
  assert ("C" ≠ "") as HC by discriminate.
  assert ("B" ≠ "C") as HBC by discriminate.
  exact (chain_depth2 chainFetch ([], true) inOrder "A" "B" "C" (mkNode "B") (mkNode "C")
           {| nodes := Some [mkNode "B"]; edges := Some [mkEdge "e1" "A" "B" "writes_to"] |}
           {| nodes := Some [mkNode "C"]; edges := Some [mkEdge "e2" "B" "C" "reads_from"] |}
           (freshSession "A")
           (λ _ _, eq_refl) eq_refl HA eq_refl eq_refl eq_refl eq_refl eq_refl
           eq_refl HB eq_refl HC HBC).
Defined.

(** ** Failed fetches *)

Section failure_facts.
Variable fetchExpandDependencies : string → option graphData.

Local Abbreviation handle := (expandNode fetchExpandDependencies).

Lemma expandNode_failed acc x :
  fetchExpandDependencies x = None →
  handle acc x =
  {| acc_extraGraph := acc_extraGraph acc;
     acc_console := acc_console acc ++ [ExpandNodeFailed x];
     acc_visited := acc_visited acc;
     nextFrontier := nextFrontier acc |}.
Proof. intros Hf. unfold expandNode. by rewrite Hf. Qed.

(** The handler of a response never reads the console. *)
Lemma expandNode_blind acc1 acc2 x :
  graphOfAcc acc1 = graphOfAcc acc2 →
  graphOfAcc (handle acc1 x) = graphOfAcc (handle acc2 x).
Proof.
  unfold graphOfAcc. intros [= Hg Hv Hn]. unfold expandNode.
  destruct (fetchExpandDependencies x) as [res|]; simpl; [|congruence].
  rewrite Hg, Hv, Hn. by destruct (foldl discover _ _).
Qed.

Lemma expandNode_console acc x :
  ∃ more, acc_console (handle acc x) = acc_console acc ++ more.
Proof.
  unfold expandNode.
  destruct (fetchExpandDependencies x) as [res|]; simpl.
  - destruct (foldl discover _ _). simpl. exists []. by rewrite app_nil_r.
  - by eexists.
Qed.

Lemma foldl_expandNode_blind acc1 acc2 l :
  graphOfAcc acc1 = graphOfAcc acc2 →
  graphOfAcc (foldl handle acc1 l) = graphOfAcc (foldl handle acc2 l).
Proof.
  revert acc1 acc2. induction l as [|x l IH]; intros acc1 acc2 Heq; simpl; [done|].
  by apply IH, expandNode_blind.
Qed.

Lemma foldl_expandNode_console acc l :
  ∃ more, acc_console (foldl handle acc l) = acc_console acc ++ more.
Proof.
  revert acc. induction l as [|x l IH]; intros acc; simpl.
  - exists []. by rewrite app_nil_r.
  - destruct (IH (handle acc x)) as [m1 ->].
    destruct (expandNode_console acc x) as [m2 ->].
    exists (m2 ++ m1). by rewrite app_assoc.
Qed.

(** A level gives the graph it gives without the nodes whose fetch
    failed. *)
Lemma foldl_expandNode_filter acc l :
  graphOfAcc (foldl handle acc l) =
  graphOfAcc (foldl handle acc (filter (λ x, answers fetchExpandDependencies x = true) l)).
Proof.
  revert acc. induction l as [|x l IH]; intros acc; simpl; [done|].
  rewrite filter_cons. unfold answers at 1. case_decide as Hx.
  - apply bool_decide_eq_true_1 in Hx. simpl. apply IH.
  - rewrite IH. apply foldl_expandNode_blind.
    rewrite expandNode_failed; [done|].
    destruct (fetchExpandDependencies x) eqn:Hf; [|done].
    exfalso. apply Hx. by apply bool_decide_eq_true_2.
Qed.
End failure_facts.

Section traversal_facts.
Variable fetchExpandDependencies : string → option graphData.
Variable arrival : Z → list string → list string.

Local Abbreviation level := (expandLevel fetchExpandDependencies arrival).
Local Abbreviation loop := (expandLoop fetchExpandDependencies arrival).
Local Abbreviation level' :=
  (expandLevel fetchExpandDependencies (answered fetchExpandDependencies arrival)).
Local Abbreviation loop' :=
  (expandLoop fetchExpandDependencies (answered fetchExpandDependencies arrival)).

Lemma expandLevel_answered w1 w2 :
  graphOfWalk w1 = graphOfWalk w2 →
  graphOfWalk (level w1) = graphOfWalk (level' w2).
Proof.
  unfold graphOfWalk. intros [= Hg Hv Hf Hd Hr]. unfold expandLevel, answered.
  rewrite Hg, Hv, Hf, Hd, Hr. simpl.
  pose proof (foldl_expandNode_filter fetchExpandDependencies
    {| acc_extraGraph := w_extraGraph w2; acc_console := w_console w1;
       acc_visited := visited w2; nextFrontier := [] |}
    (arrival (depth w2) (frontier w2))) as Hfil.
  pose proof (foldl_expandNode_blind fetchExpandDependencies
    {| acc_extraGraph := w_extraGraph w2; acc_console := w_console w1;
       acc_visited := visited w2; nextFrontier := [] |}
    {| acc_extraGraph := w_extraGraph w2; acc_console := w_console w2;
       acc_visited := visited w2; nextFrontier := [] |}
    (filter (λ x, answers fetchExpandDependencies x = true)
            (arrival (depth w2) (frontier w2))) eq_refl) as Hbl.
  rewrite Hbl in Hfil. unfold graphOfAcc in Hfil. injection Hfil as -> -> ->.
  done.
Qed.

Lemma expandLoop_answered fuel maxDepth w1 w2 :
  graphOfWalk w1 = graphOfWalk w2 →
  graphOfWalk (loop fuel maxDepth w1) = graphOfWalk (loop' fuel maxDepth w2).
Proof.
  revert w1 w2. induction fuel as [|fuel IH]; intros w1 w2 Heq; simpl; [done|].
  assert (loopGuard maxDepth w1 = loopGuard maxDepth w2) as ->.
  { unfold graphOfWalk in Heq. injection Heq as _ _ Hf Hd _.
    unfold loopGuard. by rewrite Hf, Hd. }
  destruct (loopGuard maxDepth w2); [|done].
  by apply IH, expandLevel_answered.
Qed.

(** Every failed fetch of a level leaves its warning. *)
Lemma foldl_expandNode_warns acc l x :
  x ∈ l → fetchExpandDependencies x = None →
  ExpandNodeFailed x ∈
    acc_console (foldl (expandNode fetchExpandDependencies) acc l).
Proof.
  revert acc. induction l as [|y l IH]; intros acc; simpl.
  - by intros ?%elem_of_nil.
  - intros [->|Hin]%elem_of_cons Hf; [|by apply IH].
    destruct (foldl_expandNode_console fetchExpandDependencies
                (expandNode fetchExpandDependencies acc y) l) as [more ->].
    rewrite (expandNode_failed _ _ _ Hf). simpl.
    apply elem_of_app. left. apply elem_of_app. right.
    by apply list_elem_of_singleton.
Qed.

Lemma expandLevel_console w :
  ∃ more, w_console (level w) = w_console w ++ more.
Proof. unfold expandLevel. simpl. apply foldl_expandNode_console. Qed.

Local Abbreviation inv := (warned fetchExpandDependencies arrival).

Lemma expandLevel_warned w : inv w → inv (level w).
Proof.
  intros [Hd Hw]. split.
  - rewrite expandLevel_depth, expandLevel_rounds, length_app. simpl. lia.
  - intros i r x. rewrite expandLevel_rounds.
    destruct (expandLevel_console w) as [more Hmore].
    intros Hi Hx Hf. apply lookup_app_Some in Hi as [Hi|[Hge Hi]].
    + rewrite Hmore. apply elem_of_app. left. by eapply Hw.
    + apply list_lookup_singleton_Some in Hi as [Hi <-].
      assert (Z.of_nat i = depth w) as Hi' by lia. rewrite Hi' in Hx.
      unfold expandLevel. simpl. by apply foldl_expandNode_warns.
Qed.

Lemma expandLoop_warned fuel maxDepth w :
  inv w → inv (loop fuel maxDepth w).
Proof.
  revert w. induction fuel as [|fuel IH]; intros w Hw; simpl; [done|].
  destruct (loopGuard maxDepth w); [|done]. by apply IH, expandLevel_warned.
Qed.
End traversal_facts.

(** C8. A failed fetch is never fatal.  In [expandSelectedNode] it leaves
    [extraGraph] as it was and logs one error.  In the recursive expansion
    the response handler of a node whose fetch failed changes nothing but
    the console, where it leaves a warning; a level therefore yields the
    graph, visited set and next frontier it yields without the failed
    nodes, and so does the whole traversal, which still ends by its own
    loop condition, with a warning for every failed fetch. *)
Theorem fetch_failure_is_soft
    (fetch : string → option graphData) (call : list diag * bool)
    (arrival : Z → list string → list string) :
  (∀ s nodeId,
     asTruthy (selectedNodeId s) = Some nodeId → fetch nodeId = None →
     expandSelectedNode fetch call s =
       {| selectedNodeId := selectedNodeId s;
          extraGraph := extraGraph s;
          console := console s ++ [ExpandFailed] |}) ∧
  (∀ acc x,
     fetch x = None →
     expandNode fetch acc x =
       {| acc_extraGraph := acc_extraGraph acc;
          acc_console := acc_console acc ++ [ExpandNodeFailed x];
          acc_visited := acc_visited acc;
          nextFrontier := nextFrontier acc |}) ∧
  (∀ acc l,
     graphOfAcc (foldl (expandNode fetch) acc l) =
     graphOfAcc (foldl (expandNode fetch) acc
                   (filter (λ x, answers fetch x = true) l))) ∧
  (∀ nodeId maxDepth s,
     let w := expandWalk fetch arrival nodeId maxDepth s in
     graphOfWalk w =
       graphOfWalk (expandWalk fetch (answered fetch arrival) nodeId maxDepth s) ∧
     loopGuard maxDepth w = false ∧
     (∀ i r x, rounds w !! i = Some r → x ∈ arrival (Z.of_nat i) r →
               fetch x = None → ExpandNodeFailed x ∈ w_console w) ∧
     (asTruthy (selectedNodeId s) = Some nodeId →
      extraGraph (expandSelectedNodeRecursively fetch call arrival maxDepth s)
        = w_extraGraph w ∧
      ∃ more,
        console (expandSelectedNodeRecursively fetch call arrival maxDepth s)
          = w_console w ++ more)).
Proof.
  split_and!.
  - intros s nodeId Hsel Hf. unfold expandSelectedNode. by rewrite Hsel, Hf.
  - apply expandNode_failed.
  - apply foldl_expandNode_filter.
  - intros nodeId maxDepth s w. subst w. unfold expandWalk. split_and!.
    + by apply expandLoop_answered.
    + apply expandLoop_exits. simpl. lia.
    + apply expandLoop_warned. split; [done|].
      intros i r x Hi. simpl in Hi. by destruct i.
    + intros Hsel. unfold expandSelectedNodeRecursively. rewrite Hsel. simpl.
      split; [done|]. by eexists.
Qed.

Lemma fetch_failure_is_soft_witness :
  expandSelectedNode flakyFetch ([], true) (freshSession "X") =
    {| selectedNodeId := Some "X";
       extraGraph := {| nodes := Some []; edges := Some [] |};
       console := [ExpandFailed] |} ∧
  (let w := expandWalk flakyFetch inOrder "A" 3 (freshSession "A") in
   graphOfWalk w =
     graphOfWalk (expandWalk flakyFetch (answered flakyFetch inOrder) "A" 3
                    (freshSession "A")) ∧
   ExpandNodeFailed "X" ∈ w_console w).
Proof.
  destruct (fetch_failure_is_soft flakyFetch ([], true) inOrder)
    as (Hone & _ & _ & Hwalk).
  split.
  - apply (Hone (freshSession "X") "X"); reflexivity.
  - destruct (Hwalk "A" 3%Z (freshSession "A")) as (Hgraph & _ & Hwarn & _).
    split; [exact Hgraph|].
    apply (Hwarn 1 ["B"; "X"] "X"); [reflexivity| |reflexivity].
    apply (bool_decide_unpack _). vm_compute. exact I.
Defined.

Example flaky_expansion :
  let w := expandWalk flakyFetch inOrder "A" 3 (freshSession "A") in
  orEmpty (nodes (w_extraGraph w)) = [mkNode "B"; mkNode "X"; mkNode "C"] ∧
  rounds w = [["A"]; ["B"; "X"]; ["C"]] ∧
  frontier w = [] ∧
  w_console w = [ExpandNodeFailed "X"].
Proof. vm_compute. done. Qed.


(** * Further properties of the code *)

(** ** [dedupeById] as an order-preserving filter *)

Lemma fresh_ext arr seen seen' :
  (∀ k, k ∈ seen ↔ k ∈ seen') → fresh arr seen = fresh arr seen'.
Proof.
  revert seen seen'. induction arr as [|el arr IH]; intros seen seen' Heq; simpl; [done|].
  destruct (elementKey el) as [id|]; [|by apply IH].
  destruct (bool_decide_reflect (id ∈ seen)) as [Hin|Hin].
  - rewrite bool_decide_eq_true_2 by by apply Heq. by apply IH.
  - rewrite bool_decide_eq_false_2 by (by rewrite <- Heq). f_equal.
    apply IH. intros k. rewrite !elem_of_cons. by rewrite Heq.
Qed.

Lemma dedupeLoop_fresh arr m :
  dedupeLoop arr m = m ++ fresh arr (JsMap.keys m).
Proof.
  revert m. induction arr as [|el arr IH]; intros m; simpl.
  - by rewrite app_nil_r.
  - destruct (elementKey el) as [id|]; [|apply IH].
    unfold JsMap.has. destruct (JsMap.get id m) as [v|] eqn:Hg.
    + rewrite bool_decide_eq_true_2 by by eapply jsmap_get_Some_keys. apply IH.
    + rewrite bool_decide_eq_false_2 by by apply jsmap_get_None_keys.
      rewrite IH, (jsmap_set_fresh _ _ _ Hg), <- app_assoc. simpl. do 2 f_equal.
      apply fresh_ext. intros k. unfold JsMap.keys. rewrite fmap_app. csimpl.
      set_solver.
Qed.

Lemma dedupeById_fresh arr : dedupeById arr = (fresh arr []).*2.
Proof. unfold dedupeById. by rewrite dedupeLoop_fresh. Qed.

Lemma dedupeById_app_fresh A B :
  dedupeById (A ++ B) = dedupeById A ++ (fresh B (fresh A []).*1).*2.
Proof.
  unfold dedupeById. rewrite dedupeLoop_app, (dedupeLoop_fresh B).
  unfold JsMap.values. rewrite fmap_app. by rewrite dedupeLoop_fresh.
Qed.

Lemma fresh_values_fresh arr s1 s2 :
  (∀ k, k ∈ s1 → k ∈ s2) → fresh (fresh arr s1).*2 s2 = fresh arr s2.
Proof.
  revert s1 s2. induction arr as [|el arr IH]; intros s1 s2 Hsub; simpl; [done|].
  destruct (elementKey el) as [id|] eqn:Hk; [|by apply IH].
  destruct (bool_decide_reflect (id ∈ s1)) as [Hin|Hin].
  - rewrite (bool_decide_eq_true_2 (id ∈ s2)) by by apply Hsub. by apply IH.
  - csimpl. rewrite Hk. destruct (bool_decide_reflect (id ∈ s2)) as [Hin2|Hin2].
    + apply IH. intros k [->|?]%elem_of_cons; [done|by apply Hsub].
    + f_equal. apply IH. intros k. rewrite !elem_of_cons. intros [->|?]; [by left|].
      right. by apply Hsub.
Qed.

Lemma fresh_keys arr seen k el :
  (k, el) ∈ fresh arr seen → el ∈ arr ∧ elementKey el = Some k ∧ k ∉ seen.
Proof.
  revert seen. induction arr as [|e arr IH]; intros seen; simpl.
  - by intros ?%elem_of_nil.
  - destruct (elementKey e) as [id|] eqn:Hk.
    + destruct (bool_decide_reflect (id ∈ seen)) as [Hin|Hin].
      * intros (? & ? & ?)%IH. split; [by apply list_elem_of_further|done].
      * intros [[= -> ->]|(? & ? & Hn)%IH]%elem_of_cons.
        -- split; [apply list_elem_of_here|done].
        -- split; [by apply list_elem_of_further|]. split; [done|].
           intros ?. apply Hn. by apply list_elem_of_further.
    + intros (? & ? & ?)%IH. split; [by apply list_elem_of_further|done].
Qed.

Lemma fresh_sublist arr seen : (fresh arr seen).*2 `sublist_of` arr.
Proof.
  revert seen. induction arr as [|e arr IH]; intros seen; simpl; [done|].
  destruct (elementKey e) as [id|].
  - destruct (bool_decide (id ∈ seen)).
    + by apply sublist_cons.
    + csimpl. by apply sublist_skip.
  - by apply sublist_cons.
Qed.

Lemma fresh_all arr seen :
  NoDup (elementKey <$> arr) →
  (∀ el, el ∈ arr → ∃ id, elementKey el = Some id ∧ id ∉ seen) →
  (fresh arr seen).*2 = arr.
Proof.
  revert seen. induction arr as [|e arr IH]; intros seen; csimpl; [done|].
  intros [Hne Hnd]%NoDup_cons Hall.
  destruct (Hall e) as (id & Hk & Hid); [apply list_elem_of_here|].
  rewrite Hk, bool_decide_eq_false_2 by done. csimpl. f_equal.
  apply IH; [done|]. intros el Hel.
  destruct (Hall el) as (id' & Hk' & Hid'); [by apply list_elem_of_further|].
  exists id'. split; [done|]. intros [->|?]%elem_of_cons; [|done].
  apply Hne. rewrite Hk, <- Hk'. apply list_elem_of_fmap. by exists el.
Qed.

Lemma dedupeById_idem X : dedupeById (dedupeById X) = dedupeById X.
Proof. rewrite !dedupeById_fresh. by rewrite fresh_values_fresh. Qed.

Lemma dedupeById_absorb_r X Y : dedupeById (X ++ dedupeById Y) = dedupeById (X ++ Y).
Proof.
  rewrite !dedupeById_app_fresh, (dedupeById_fresh Y).
  rewrite fresh_values_fresh; [done|]. by intros k ?%elem_of_nil.
Qed.

(** X1. [dedupeById] is idempotent and absorbs a [dedupeById] applied to
    either part of its input, so the one-hop handler, which dedupes the
    response before merging it, leaves in [extraGraph] exactly what the
    updater of the recursive handler leaves for the same response. *)
Theorem dedupeById_absorbs (A B : list element)
    (fetch : string → option graphData) (call : list diag * bool) (s : session) :
  dedupeById (dedupeById A) = dedupeById A ∧
  dedupeById (A ++ dedupeById B) = dedupeById (A ++ B) ∧
  dedupeById (dedupeById A ++ B) = dedupeById (A ++ B) ∧
  extraGraph (expandSelectedNode fetch call s) =
    match asTruthy (selectedNodeId s) ≫= fetch with
    | Some data => mergeInto (extraGraph s) (orEmpty (nodes data)) (orEmpty (edges data))
    | None => extraGraph s
    end.
Proof.
  pose proof dedupeById_idem as Hidem. pose proof dedupeById_absorb_r as Hr.
  split_and!; try done.
  - rewrite !dedupeById_app_fresh, Hidem.
    assert (fresh (dedupeById A) [] = fresh A []) as ->; [|done].
    rewrite (dedupeById_fresh A). by apply fresh_values_fresh.
  - unfold expandSelectedNode.
    destruct (asTruthy (selectedNodeId s)) as [nodeId|]; simpl; [|done].
    destruct (fetch nodeId) as [data|]; simpl; [|done].
    unfold mergeInto. by rewrite !Hr.
Qed.

(** X2. [dedupeById] only removes elements: its output is a subsequence of
    its input, in the input's order; and it returns the input unchanged
    when every element has a non-empty id and the ids are distinct. *)
Theorem dedupeById_subsequence (arr : list element) :
  dedupeById arr `sublist_of` arr ∧
  (NoDup (elementKey <$> arr) → (∀ el, el ∈ arr → is_Some (elementKey el)) →
   dedupeById arr = arr).
Proof.
  rewrite dedupeById_fresh. split; [apply fresh_sublist|].
  intros Hnd Hall. apply fresh_all; [done|].
  intros el Hel. destruct (Hall el Hel) as [id Hid]. exists id.
  split; [done|]. apply not_elem_of_nil.
Qed.

Lemma dedupeById_subsequence_witness :
  dedupeById [mkNode "A"; mkNode "B"; mkNode "A"] `sublist_of`
    [mkNode "A"; mkNode "B"; mkNode "A"] ∧
  dedupeById [mkNode "A"; mkNode "B"] = [mkNode "A"; mkNode "B"].
Proof.
  split.
  - apply (dedupeById_subsequence [mkNode "A"; mkNode "B"; mkNode "A"]).
  - apply (dedupeById_subsequence [mkNode "A"; mkNode "B"]).
    + apply (bool_decide_unpack _). vm_compute. exact I.
    + intros el Hel. apply (bool_decide_unpack _).
      apply elem_of_cons in Hel as [->|Hel]; [vm_compute; exact I|].
      apply list_elem_of_singleton in Hel as ->. vm_compute. exact I.
Defined.

(** ** [extraGraph] only grows *)

Lemma mergeInto_deduped prev ns es : deduped (mergeInto prev ns es).
Proof.
  unfold deduped, mergeInto. simpl.
  by rewrite !dedupeById_idem.
Qed.

Lemma mergeInto_grows prev ns es :
  deduped prev → grows prev (mergeInto prev ns es).
Proof.
  intros [Hn He]. unfold grows, mergeInto. simpl.
  rewrite !dedupeById_app_fresh, Hn, He. split; by eexists.
Qed.

Lemma grows_refl g : grows g g.
Proof. by split. Qed.

Lemma grows_trans g1 g2 g3 : grows g1 g2 → grows g2 g3 → grows g1 g3.
Proof. intros [? ?] [? ?]. split; by etrans. Qed.

Lemma expandNode_grows fetch acc x :
  deduped (acc_extraGraph acc) →
  deduped (acc_extraGraph (expandNode fetch acc x)) ∧
  grows (acc_extraGraph acc) (acc_extraGraph (expandNode fetch acc x)).
Proof.
  intros Hd. unfold expandNode. destruct (fetch x) as [res|]; simpl.
  - destruct (foldl discover _ _). simpl.
    split; [apply mergeInto_deduped|by apply mergeInto_grows].
  - split; [done|apply grows_refl].
Qed.

Lemma foldl_expandNode_grows fetch acc l :
  deduped (acc_extraGraph acc) →
  deduped (acc_extraGraph (foldl (expandNode fetch) acc l)) ∧
  grows (acc_extraGraph acc) (acc_extraGraph (foldl (expandNode fetch) acc l)).
Proof.
  revert acc. induction l as [|x l IH]; intros acc Hd; simpl.
  - split; [done|apply grows_refl].
  - destruct (expandNode_grows fetch acc x Hd) as [Hd1 Hg1].
    destruct (IH _ Hd1) as [Hd2 Hg2]. split; [done|by eapply grows_trans].
Qed.

Lemma expandLoop_grows fetch arrival fuel maxDepth w :
  deduped (w_extraGraph w) →
  deduped (w_extraGraph (expandLoop fetch arrival fuel maxDepth w)) ∧
  grows (w_extraGraph w) (w_extraGraph (expandLoop fetch arrival fuel maxDepth w)).
Proof.
  revert w. induction fuel as [|fuel IH]; intros w Hd; simpl.
  - split; [done|apply grows_refl].
  - destruct (loopGuard maxDepth w); [|split; [done|apply grows_refl]].
    destruct (foldl_expandNode_grows fetch
                {| acc_extraGraph := w_extraGraph w; acc_console := w_console w;
                   acc_visited := visited w; nextFrontier := [] |}
                (arrival (depth w) (frontier w)) Hd) as [Hd1 Hg1].
    destruct (IH (expandLevel fetch arrival w) Hd1) as [Hd2 Hg2].
    split; [done|by eapply grows_trans].
Qed.

(** X3. From a deduplicated [extraGraph] (its initial value, or whatever an
    expansion left), both expansion handlers leave a deduplicated
    [extraGraph] of which the old node and edge lists are prefixes: an
    expansion never removes, reorders or replaces what earlier expansions
    stored, whatever the backend answers. *)
Theorem expansion_only_appends
    (fetch : string → option graphData) (call : list diag * bool)
    (arrival : Z → list string → list string) (maxDepth : Z) (s : session) :
  deduped (extraGraph s) →
  (deduped (extraGraph (expandSelectedNode fetch call s)) ∧
   grows (extraGraph s) (extraGraph (expandSelectedNode fetch call s))) ∧
  (deduped (extraGraph (expandSelectedNodeRecursively fetch call arrival maxDepth s)) ∧
   grows (extraGraph s)
         (extraGraph (expandSelectedNodeRecursively fetch call arrival maxDepth s))).
Proof.
  intros Hd. split.
  - unfold expandSelectedNode. destruct (asTruthy (selectedNodeId s)) as [nodeId|];
      [|split; [done|apply grows_refl]].
    destruct (fetch nodeId) as [data|]; simpl; [|split; [done|apply grows_refl]].
    split; [apply mergeInto_deduped|by apply mergeInto_grows].
  - unfold expandSelectedNodeRecursively.
    destruct (asTruthy (selectedNodeId s)) as [nodeId|];
      [|split; [done|apply grows_refl]].
    simpl. unfold expandWalk. by apply expandLoop_grows.
Qed.

Lemma expansion_only_appends_witness :
  deduped (extraGraph (freshSession "A")) ∧
  grows (extraGraph (freshSession "A"))
        (extraGraph (expandSelectedNodeRecursively chainFetch ([], true) inOrder 3
                       (freshSession "A"))) ∧
  deduped (extraGraph (expandSelectedNode chainFetch ([], true) (freshSession "A"))).
Proof.
  assert (deduped (extraGraph (freshSession "A"))) as Hd by (split; reflexivity).
  destruct (expansion_only_appends chainFetch ([], true) inOrder 3 (freshSession "A") Hd)
    as [[Hone _] [_ Hrec]].
  split; [exact Hd|]. split; [exact Hrec | exact Hone].
Defined.

(** ** The ids of a merge *)

Lemma keysOf_cons el arr :
  keysOf (el :: arr) =
  match elementKey el with Some id => {[ id ]} ∪ keysOf arr | None => keysOf arr end.
Proof. unfold keysOf. simpl. by destruct (elementKey el). Qed.

Lemma keysOf_app A B : keysOf (A ++ B) = keysOf A ∪ keysOf B.
Proof. unfold keysOf. rewrite omap_app, list_to_set_app_L. done. Qed.

Lemma keysOf_fresh arr seen :
  keysOf (fresh arr seen).*2 = keysOf arr ∖ list_to_set seen.
Proof.
  revert seen. induction arr as [|el arr IH]; intros seen; simpl.
  - unfold keysOf. simpl. set_solver.
  - rewrite (keysOf_cons el arr). destruct (elementKey el) as [id|] eqn:Hk; [|apply IH].
    destruct (bool_decide_reflect (id ∈ seen)) as [Hin|Hin].
    + rewrite IH. set_solver.
    + csimpl. rewrite keysOf_cons, Hk, IH. simpl.
      apply set_eq. intros k. rewrite !elem_of_union, !elem_of_difference,
        !elem_of_union, !elem_of_singleton, !elem_of_list_to_set.
      destruct (decide (k = id)) as [->|Hne]; [tauto|]. tauto.
Qed.

Lemma fresh_length arr seen :
  length (fresh arr seen) = size (keysOf arr ∖ list_to_set seen : gset string).
Proof.
  revert seen. induction arr as [|el arr IH]; intros seen; simpl.
  - replace (keysOf [] ∖ list_to_set seen) with (∅ : gset string)
      by (unfold keysOf; simpl; set_solver).
    by rewrite size_empty.
  - rewrite (keysOf_cons el arr). destruct (elementKey el) as [id|] eqn:Hk; [|apply IH].
    destruct (bool_decide_reflect (id ∈ seen)) as [Hin|Hin].
    + rewrite IH. f_equal. set_solver.
    + simpl. rewrite IH. simpl.
      assert (({[id]} ∪ keysOf arr) ∖ list_to_set seen
              = {[id]} ∪ (keysOf arr ∖ ({[id]} ∪ list_to_set seen)) :> gset string) as ->.
      { apply set_eq. intros k. rewrite !elem_of_union, !elem_of_difference,
          !elem_of_union, !elem_of_singleton, !elem_of_list_to_set.
        destruct (decide (k = id)) as [->|Hne]; tauto. }
      pose proof (size_union (C:=gset string) {[id]}
                    (keysOf arr ∖ ({[id]} ∪ list_to_set seen))) as Hsz.
      rewrite Hsz, size_singleton; [done|]. set_solver.
Qed.

(** X4. The ids of [dedupeById]'s output are exactly the non-empty ids of
    its input, one element each: a merge of two collections has the union
    of their ids, as many elements as that union has ids, and the same ids
    and length in whichever order the two collections are given (only the
    kept versions and their order can differ). *)
Theorem dedupeById_id_set (A B : list element) :
  keysOf (dedupeById A) = keysOf A ∧
  length (dedupeById A) = size (keysOf A) ∧
  keysOf (dedupeById (A ++ B)) = keysOf A ∪ keysOf B ∧
  keysOf (dedupeById (A ++ B)) = keysOf (dedupeById (B ++ A)) ∧
  length (dedupeById (A ++ B)) = length (dedupeById (B ++ A)).
Proof.
  assert (∀ X, keysOf (dedupeById X) = keysOf X) as Hk.
  { intros X. rewrite dedupeById_fresh, keysOf_fresh. set_solver. }
  assert (∀ X, length (dedupeById X) = size (keysOf X)) as Hl.
  { intros X. rewrite dedupeById_fresh, length_fmap, fresh_length. f_equal. set_solver. }
  split_and!; try done.
  - by rewrite Hk, keysOf_app.
  - rewrite !Hk, !keysOf_app. set_solver.
  - rewrite !Hl, !keysOf_app. f_equal. set_solver.
Qed.

(** ** The classifier's tables *)

Lemma tables_disjoint :
  Forall (λ s, s ∉ directTypes) indirectTypes ∧
  Forall (λ s, (s ∉ directTypes) ∧ (s ∉ indirectTypes)) metadataTypes.
Proof. split; apply (bool_decide_unpack _); vm_compute; exact I. Qed.

(** X5. No label is in two of the classifier's tables, so the order of its
    three tests does not matter: a label is classified direct, indirect or
    metadata exactly when it is in the table of that tier, and unknown
    exactly when it is in none (or missing). *)
Theorem classifyRelationship_tiers (relationshipType : option string) :
  (classifyRelationship relationshipType = direct ↔
     ∃ s, relationshipType = Some s ∧ s ∈ directTypes) ∧
  (classifyRelationship relationshipType = indirect ↔
     ∃ s, relationshipType = Some s ∧ s ∈ indirectTypes) ∧
  (classifyRelationship relationshipType = metadata ↔
     ∃ s, relationshipType = Some s ∧ s ∈ metadataTypes) ∧
  (classifyRelationship relationshipType = unknown ↔
     ∀ s, relationshipType = Some s →
          (s ∉ directTypes) ∧ (s ∉ indirectTypes) ∧ (s ∉ metadataTypes)).
Proof.
  destruct tables_disjoint as [Hi Hm]. rewrite Forall_forall in Hi, Hm.
  unfold classifyRelationship, arrayIncludes.
  destruct relationshipType as [s|].
  - destruct (bool_decide_reflect (s ∈ directTypes)) as [Hd|Hd];
      [|destruct (bool_decide_reflect (s ∈ indirectTypes)) as [Hi'|Hi'];
        [|destruct (bool_decide_reflect (s ∈ metadataTypes)) as [Hm'|Hm']]].
    + split_and!; split; try done.
      * intros _. by exists s.
      * intros (s' & [= <-] & Hin). by apply Hi in Hin.
      * intros (s' & [= <-] & Hin). by apply Hm in Hin as [? _].
      * intros Hall. by destruct (Hall s eq_refl) as [? _].
    + split_and!; split; try done.
      * by intros (s' & [= <-] & ?).
      * intros _. by exists s.
      * intros (s' & [= <-] & Hin). by apply Hm in Hin as [_ ?].
      * intros Hall. by destruct (Hall s eq_refl) as (_ & ? & _).
    + split_and!; split; try done.
      * by intros (s' & [= <-] & ?).
      * by intros (s' & [= <-] & ?).
      * intros _. by exists s.
      * intros Hall. by destruct (Hall s eq_refl) as (_ & _ & ?).
    + split_and!; split; try done.
      * by intros (s' & [= <-] & ?).
      * by intros (s' & [= <-] & ?).
      * by intros (s' & [= <-] & ?).
      * by intros _ s' [= <-].
  - split_and!; split; try done; by intros (s' & ? & _).
Qed.

(** ** What the index holds *)

(** X6. The pass keeps exactly the edges whose two ends are ids of nodes of
    the merged graph, in the order of the payload, and writes exactly one
    warning for every other edge, in order: no valid edge is lost, and the
    kept and the dropped edges add up to the edges of the payload. *)
Theorem validEdges_are_the_resolving_edges
    (merged : mergedGraph) (sel : option string) (a : assembly) :
  assemble merged sel = Some a →
  edge <$> asm_validEdges a =
    filter (λ e, resolvesIn (merged_nodes merged) e = true) (merged_edges merged) ∧
  asm_console a = omap (warningFor (merged_nodes merged)) (merged_edges merged) ∧
  length (asm_validEdges a) + length (asm_console a) = length (merged_edges merged).
Proof.
  intros Ha.
  apply assemble_Some in Ha as
    (conns & st & styled & Hinit & Hp & _ & _ & -> & _ & _ & _ & _ & ->).
  destruct (processEdges_valid_edges (merged_nodes merged)
              {| nodeConnections := conns; validEdges := []; warnings := [] |} _ _
              (λ k, initConnections_keys _ _ k Hinit) Hp) as [Hv Hw].
  simpl in Hv, Hw. split; [done|]. split; [done|].
  rewrite <- (length_fmap edge), Hv, Hw.
  assert (∀ e, e ∈ merged_edges merged → is_Some (el_data e)) as Hdata.
  { intros e He. clear Hv Hw. revert Hp. generalize
      {| nodeConnections := conns; validEdges := []; warnings := [] |}.
    induction (merged_edges merged) as [|e' es IH]; intros st0; simpl.
    - by apply elem_of_nil in He.
    - destruct (processEdge st0 e') as [st1|] eqn:Hp1; [simpl|done].
      apply elem_of_cons in He as [->|He]; [|by apply IH].
      intros _. by destruct (processEdge_cases _ _ _ Hp1) as (d & -> & _). }
  clear Hv Hw Hp. induction (merged_edges merged) as [|e es IH]; [done|].
  rewrite filter_cons. csimpl. unfold warningFor at 1.
  destruct (Hdata e) as [d ->]; [apply list_elem_of_here|]. csimpl.
  assert (∀ e0 : element, e0 ∈ es → is_Some (el_data e0)) as Hdata'.
  { intros ??. apply Hdata. by apply list_elem_of_further. }
  specialize (IH Hdata').
  destruct (resolvesIn (merged_nodes merged) e) eqn:Hr.
  - rewrite decide_True by done. csimpl. lia.
  - rewrite decide_False by done. csimpl. lia.
Qed.

Lemma validEdges_witness :
  ∃ a, assemble sampleGraph None = Some a ∧
    edge <$> asm_validEdges a =
      [mkEdge "e1" "A" "B" "writes_to"; mkEdge "e2" "C" "A" "uses_in_decision"] ∧
    asm_console a = [InvalidEdge (Str "A") (Str "Z")].
Proof.
  destruct (assemble_total sampleGraph None eq_refl) as [a Ha]. exists a.
  split; [exact Ha|].
  destruct (validEdges_are_the_resolving_edges sampleGraph None a Ha) as (Hv & Hc & _).
  split; [rewrite Hv | rewrite Hc]; vm_compute; reflexivity.
Defined.

Lemma sum_list_with_eq {A} (f g : A → nat) (l : list A) :
  (∀ x, x ∈ l → f x = g x) → sum_list_with f l = sum_list_with g l.
Proof.
  induction l as [|x l IH]; intros Hfg; simpl; [done|].
  rewrite (Hfg x) by apply list_elem_of_here. f_equal. apply IH.
  intros ??. apply Hfg. by apply list_elem_of_further.
Qed.

Lemma sum_list_with_over_fmap {A B} (h : A → B) (f : B → nat) (l : list A) :
  sum_list_with f (h <$> l) = sum_list_with (λ x, f (h x)) l.
Proof. induction l as [|x l IH]; csimpl; [done|]. by rewrite IH. Qed.

Lemma sum_list_with_plus {A} (f g : A → nat) (l : list A) :
  sum_list_with (λ x, f x + g x) l = sum_list_with f l + sum_list_with g l.
Proof. induction l as [|x l IH]; simpl; [done|]. rewrite IH. lia. Qed.

Lemma sum_list_with_indicator {A} `{EqDecision A} (x : A) (l : list A) :
  NoDup l → x ∈ l →
  sum_list_with (λ k, if decide (x = k) then 1 else 0) l = 1.
Proof.
  induction l as [|y l IH]; simpl.
  - by intros _ ?%elem_of_nil.
  - intros [Hy Hnd]%NoDup_cons Hin. destruct (decide (x = y)) as [->|Hne].
    + assert (sum_list_with (λ k, if decide (y = k) then 1 else 0) l = 0) as ->; [|done].
      clear IH Hin Hnd. induction l as [|z l IH]; simpl; [done|].
      apply not_elem_of_cons in Hy as [? ?]. rewrite decide_False by done. by apply IH.
    + apply elem_of_cons in Hin as [?|Hin]; [done|]. by rewrite IH.
Qed.

Lemma sum_out_degrees (K : list jsval) (ves : list edgeInfo) :
  NoDup K →
  (∀ ei, ei ∈ ves → ∃ d, el_data (edge ei) = Some d ∧ data_source d ∈ K) →
  sum_list_with (λ k, length (omap (outConnFor k) ves)) K = length ves.
Proof.
  intros Hnd. induction ves as [|ei ves IH]; intros Hall; simpl.
  - clear. induction K as [|k K IHK]; simpl; done.
  - destruct (Hall ei) as (d & Hd & Hs); [apply list_elem_of_here|].
    transitivity (sum_list_with
      (λ k, (if decide (data_source d = k) then 1 else 0) + length (omap (outConnFor k) ves)) K).
    + apply sum_list_with_eq. intros k _. unfold outConnFor at 1.
      rewrite Hd. simpl. by destruct (decide (data_source d = k)).
    + rewrite sum_list_with_plus, (sum_list_with_indicator _ K Hnd Hs), IH; [done|].
      intros ??. apply Hall. by apply list_elem_of_further.
Qed.

Lemma sum_in_degrees (K : list jsval) (ves : list edgeInfo) :
  NoDup K →
  (∀ ei, ei ∈ ves → ∃ d, el_data (edge ei) = Some d ∧ data_target d ∈ K) →
  sum_list_with (λ k, length (omap (inConnFor k) ves)) K = length ves.
Proof.
  intros Hnd. induction ves as [|ei ves IH]; intros Hall; simpl.
  - clear. induction K as [|k K IHK]; simpl; done.
  - destruct (Hall ei) as (d & Hd & Hs); [apply list_elem_of_here|].
    transitivity (sum_list_with
      (λ k, (if decide (data_target d = k) then 1 else 0) + length (omap (inConnFor k) ves)) K).
    + apply sum_list_with_eq. intros k _. unfold inConnFor at 1.
      rewrite Hd. simpl. by destruct (decide (data_target d = k)).
    + rewrite sum_list_with_plus, (sum_list_with_indicator _ K Hnd Hs), IH; [done|].
      intros ??. apply Hall. by apply list_elem_of_further.
Qed.

(** X7. After a pass the index mirrors the valid edges: the [outbound] list
    of a node holds one entry for every valid edge leaving it, in order,
    its [inbound] list one for every valid edge entering it, and
    [totalConnections] is the sum of their lengths (a self-loop counts
    twice); summed over all records, [totalConnections] is twice the number
    of valid edges. *)
Theorem index_mirrors_valid_edges
    (merged : mergedGraph) (sel : option string) (a : assembly) :
  assemble merged sel = Some a →
  (∀ k c, JsMap.get k (asm_connections a) = Some c →
     outbound c = omap (outConnFor k) (asm_validEdges a) ∧
     inbound c = omap (inConnFor k) (asm_validEdges a) ∧
     totalConnections c = length (outbound c) + length (inbound c)) ∧
  sum_list_with (λ kc, totalConnections kc.2) (asm_connections a) =
    2 * length (asm_validEdges a).
Proof.
  intros Ha. destruct (assemble_index _ _ _ Ha) as ((Hnd & Hrec & Hval) & _).
  simpl in Hnd, Hrec, Hval. split; [done|].
  transitivity (sum_list_with
    (λ k, length (omap (outConnFor k) (asm_validEdges a)) +
          length (omap (inConnFor k) (asm_validEdges a)))
    (JsMap.keys (asm_connections a))).
  - unfold JsMap.keys. rewrite sum_list_with_over_fmap.
    apply sum_list_with_eq. intros [k c] Hkc. simpl.
    destruct (Hrec k c) as (Hout & Hin & ->); [by apply jsmap_elem_get|].
    by rewrite Hout, Hin.
  - rewrite sum_list_with_plus, sum_out_degrees, sum_in_degrees; [lia|done|..|done|].
    + intros ei Hei. destruct (Hval ei Hei) as (d & ? & _ & _ & ?). by exists d.
    + intros ei Hei. destruct (Hval ei Hei) as (d & ? & _ & ? & _). by exists d.
Qed.

Lemma index_mirrors_witness :
  ∃ a, assemble sampleGraph None = Some a ∧
    sum_list_with (λ kc, totalConnections kc.2) (asm_connections a) =
      2 * length (asm_validEdges a).
Proof.
  destruct (assemble_total sampleGraph None eq_refl) as [a Ha]. exists a.
  split; [exact Ha|]. exact (proj2 (index_mirrors_valid_edges sampleGraph None a Ha)).
Defined.

Lemma processEdge_flagsOk st e st' :
  flagsOk st → processEdge st e = Some st' → flagsOk st'.
Proof.
  intros Hfl Hp.
  destruct (processEdge_cases _ _ _ Hp) as (d & Hd & [Hmiss|[Hs Ht]]).
  { rewrite (processEdge_invalid _ _ _ Hd Hmiss) in Hp. by injection Hp as <-. }
  rewrite (processEdge_valid _ _ _ _ Hp Hd Hs Ht). intros k c'.
  cbn [nodeConnections validEdges].
  rewrite !jsmap_get_modify, !existsb_app. cbn [existsb].
  destruct (JsMap.get k (nodeConnections st)) as [c|] eqn:Hg;
    [|simpl; by repeat case_decide].
  destruct (Hfl _ _ Hg) as (H1 & H2 & H3). rewrite <- H1, <- H2, <- H3.
  unfold incident, isTier. simpl. rewrite Hd.
  destruct (decide (k = data_target d)) as [Hkt|Hkt],
           (decide (k = data_source d)) as [Hks|Hks];
    intros [= <-]; simpl;
    rewrite ?(bool_decide_eq_true_2 (data_target d = k)) by done;
    rewrite ?(bool_decide_eq_true_2 (data_source d = k)) by done;
    rewrite ?(bool_decide_eq_false_2 (data_target d = k)) by done;
    rewrite ?(bool_decide_eq_false_2 (data_source d = k)) by done;
    simpl; rewrite ?orb_false_r;
    destruct (classifyRelationship (data_type d));
    simpl; rewrite ?orb_true_r, ?orb_false_r; done.
Qed.

Lemma processEdges_flagsOk st es st' :
  flagsOk st → processEdges st es = Some st' → flagsOk st'.
Proof.
  revert st. induction es as [|e es IH]; intros st Hfl; simpl.
  - by intros [= <-].
  - destruct (processEdge st e) as [st1|] eqn:Hp; [simpl|done].
    apply IH. by eapply processEdge_flagsOk.
Qed.

(** X8. After a pass the three flags of a record say which tiers its edges
    have: [hasDirectConnections] is set exactly when some valid edge at the
    node is classified direct, and likewise for the other two flags.  An
    edge of an unknown type counts in [totalConnections] and sets no flag. *)
Theorem flags_follow_tiers
    (merged : mergedGraph) (sel : option string) (a : assembly)
    (k : jsval) (c : connection) :
  assemble merged sel = Some a →
  JsMap.get k (asm_connections a) = Some c →
  (hasDirectConnections c = true ↔
     ∃ ei, ei ∈ asm_validEdges a ∧ incident k ei = true ∧ level ei = direct) ∧
  (hasIndirectConnections c = true ↔
     ∃ ei, ei ∈ asm_validEdges a ∧ incident k ei = true ∧ level ei = indirect) ∧
  (hasMetadataConnections c = true ↔
     ∃ ei, ei ∈ asm_validEdges a ∧ incident k ei = true ∧ level ei = metadata) ∧
  (totalConnections c = 0 ↔ ∀ ei, ei ∈ asm_validEdges a → incident k ei = false).
Proof.
  intros Ha Hg.
  destruct (assemble_index _ _ _ Ha) as ((_ & Hrec & _) & _). simpl in Hrec.
  destruct (Hrec _ _ Hg) as (Hout & Hin & Htot).
  apply assemble_Some in Ha as
    (conns & st & styled & Hinit & Hp & _ & Hc & Hv & _).
  assert (flagsOk st) as Hfl.
  { eapply processEdges_flagsOk; [|exact Hp]. intros k' c'. simpl.
    rewrite (initConnections_get _ _ _ k' Hinit).
    destruct (lastNodeWith k' _); [|done]. by intros [= <-]. }
  rewrite Hc in Hg. destruct (Hfl _ _ Hg) as (H1 & H2 & H3).
  rewrite H1, H2, H3, Hv.
  assert (∀ t, existsb (λ ei, incident k ei && isTier t ei) (validEdges st) = true ↔
               ∃ ei, ei ∈ validEdges st ∧ incident k ei = true ∧ level ei = t) as Hex.
  { intros t. rewrite existsb_exists. split.
    - intros (ei & Hin' & [? Ht]%andb_prop). exists ei.
      split; [by apply list_elem_of_In|]. split; [done|].
      unfold isTier in Ht. by destruct t, (level ei).
    - intros (ei & Hin' & ? & Ht). exists ei. split; [by apply list_elem_of_In|].
      apply andb_true_intro. split; [done|]. unfold isTier. rewrite Ht. by destruct t. }
  split_and!; [apply Hex..|].
  rewrite Htot, Hout, Hin, Hv, Nat.eq_add_0, !length_zero_iff_nil, !omap_nil_iff.
  split.
  - intros [Ho Hi] ei Hei. unfold incident.
    destruct (el_data (edge ei)) as [d|] eqn:Hd; [|done].
    pose proof (proj1 (outConnFor_None k ei) (Ho ei Hei) d Hd).
    pose proof (proj1 (inConnFor_None k ei) (Hi ei Hei) d Hd).
    by rewrite !bool_decide_eq_false_2.
  - intros Hall. split; intros ei Hei; specialize (Hall ei Hei); unfold incident in Hall.
    + apply outConnFor_None. intros d Hd. rewrite Hd in Hall.
      apply orb_false_elim in Hall as [?%bool_decide_eq_false_1 _]. done.
    + apply inConnFor_None. intros d Hd. rewrite Hd in Hall.
      apply orb_false_elim in Hall as [_ ?%bool_decide_eq_false_1]. done.
Qed.

Lemma flags_follow_tiers_witness :
  ∃ a c, assemble sampleGraph None = Some a ∧
    JsMap.get (Str "A") (asm_connections a) = Some c ∧
    (hasDirectConnections c = true ↔
       ∃ ei, ei ∈ asm_validEdges a ∧ incident (Str "A") ei = true ∧ level ei = direct).
Proof.
  destruct (assemble_total sampleGraph None eq_refl) as [a Ha].
  destruct (JsMap.get (Str "A") (asm_connections a)) as [c|] eqn:Hg.
  - exists a, c. split; [exact Ha|]. split; [exact Hg|].
    exact (proj1 (flags_follow_tiers sampleGraph None a (Str "A") c Ha Hg)).
  - exfalso. vm_compute in Ha. injection Ha as <-. vm_compute in Hg. discriminate Hg.
Defined.

(** ** One final node per id *)

Lemma splitNodes_perm conns cn on :
  (splitNodes conns cn on).1 ++ (splitNodes conns cn on).2 ≡ₚ
  cn ++ on ++ (node <$> JsMap.values conns).
Proof.
  revert cn on. unfold JsMap.values.
  induction conns as [|[k c] conns IH]; intros cn on; csimpl.
  - by rewrite app_nil_r.
  - case_bool_decide; rewrite IH.
    + rewrite <- !app_assoc. apply Permutation_app_head. simpl.
      by rewrite Permutation_middle.
    + rewrite <- !app_assoc. do 2 apply Permutation_app_head. done.
Qed.

Lemma mapM_styleOrphan_ids orphans styled :
  mapM styleOrphan orphans = Some styled → dataKey <$> styled = dataKey <$> orphans.
Proof.
  intros Hm%mapM_Some. induction Hm as [|v v' l l' Hs _ IH]; csimpl; [done|].
  f_equal; [|done]. by apply styleOrphan_keeps in Hs as (_ & ? & _).
Qed.

(** X9. [finalNodes] has exactly one node for every distinct [data.id] of
    the merged nodes: the record of an id, and with it the final node, is
    the one of the last node of the payload with that id, so a node whose
    id is repeated later in the payload is replaced by the later one. *)
Theorem finalNodes_one_per_id
    (merged : mergedGraph) (sel : option string) (a : assembly) :
  assemble merged sel = Some a →
  (∀ k, node <$> JsMap.get k (asm_connections a) = lastNodeWith k (merged_nodes merged)) ∧
  dataKey <$> finalNodes a ≡ₚ JsMap.keys (asm_connections a) ∧
  NoDup (dataKey <$> finalNodes a) ∧
  (∀ k, k ∈ dataKey <$> finalNodes a ↔ k ∈ dataKey <$> merged_nodes merged) ∧
  length (finalNodes a) =
    size (list_to_set (dataKey <$> merged_nodes merged) : gset jsval).
Proof.
  intros Ha.
  destruct (assemble_index _ _ _ Ha) as ((Hnd & _ & _) & Hkeys & Hnode & _).
  simpl in Hnd.
  apply assemble_Some in Ha as
    (conns & st & styled & _ & _ & Hm & Hc & _ & Hcn & Hon & Hfn & _).
  assert (dataKey <$> finalNodes a ≡ₚ JsMap.keys (asm_connections a)) as Hperm.
  { rewrite Hfn, fmap_app, (mapM_styleOrphan_ids _ _ Hm), <- fmap_app, Hcn, <- Hc.
    rewrite splitNodes_perm. simpl. unfold JsMap.values, JsMap.keys.
    assert (dataKey <$> (node <$> (asm_connections a).*2) = (asm_connections a).*1)
      as ->; [|done].
    rewrite <- !list_fmap_compose.
    apply list_fmap_ext. intros i [k c] Hi. simpl.
    pose proof (Hnode k) as Hk.
    rewrite (jsmap_elem_get k c _ Hnd) in Hk by by eapply list_elem_of_lookup_2.
    simpl in Hk. symmetry in Hk. by apply lastNodeWith_Some in Hk as [_ ?]. }
  split; [done|]. split; [done|].
  assert (NoDup (dataKey <$> finalNodes a)) as Hnd' by by rewrite Hperm.
  split; [done|]. split.
  - intros k. by rewrite Hperm.
  - rewrite <- (length_fmap dataKey), <- (size_list_to_set (C:=gset jsval)) by done.
    f_equal. apply set_eq. intros k. rewrite !elem_of_list_to_set, Hperm. apply Hkeys.
Qed.

Lemma finalNodes_one_per_id_witness :
  ∃ a, assemble {| merged_nodes := [labelled "n1" "first"; mkNode "B";
                                    labelled "n1" "second"];
                   merged_edges := [] |} None = Some a ∧
    length (finalNodes a) = 2 ∧
    node <$> JsMap.get (Str "n1") (asm_connections a) = Some (labelled "n1" "second").
Proof.
  destruct (assemble_total
              {| merged_nodes := [labelled "n1" "first"; mkNode "B"; labelled "n1" "second"];
                 merged_edges := [] |} None eq_refl) as [a Ha].
  exists a. split; [exact Ha|].
  destruct (finalNodes_one_per_id _ None a Ha) as (Hnode & _ & _ & _ & Hlen).
  split; [rewrite Hlen; vm_compute; reflexivity|].
  rewrite Hnode. vm_compute. reflexivity.
Defined.

(** ** When the pass raises *)

Lemma processEdges_is_Some ns st es :
  (∀ k, k ∈ JsMap.keys (nodeConnections st) ↔ k ∈ dataKey <$> ns) →
  is_Some (processEdges st es) ↔
  forallb (λ e, match el_data e with
                | Some d =>
                    if resolvesIn ns e
                    then bool_decide (is_Some (filterActivityCheck d))
                    else true
                | None => false
                end) es = true.
Proof.
  revert st. induction es as [|e es IH]; intros st Hkeys; simpl; [done|].
  rewrite andb_true_iff.
  destruct (el_data e) as [d|] eqn:Hd.
  - pose proof (resolvesIn_get ns _ e d Hkeys Hd) as Hres.
    destruct (resolvesIn ns e) eqn:Hr.
    + destruct Hres as [[[cs Hs] [ct Ht]] _]; [done|].
      unfold processEdge at 1. rewrite Hd. simpl. rewrite Hs, Ht.
      destruct (filterActivityCheck d) as [b|] eqn:Hf; simpl.
      * rewrite IH; [|by intros k; simpl; rewrite !jsmap_keys_modify].
        split; [by intros ?; split|by intros [_ ?]].
      * split; [by intros [? ?]|by intros [? _]].
    + assert (JsMap.get (data_source d) (nodeConnections st) = None ∨
              JsMap.get (data_target d) (nodeConnections st) = None) as Hmiss.
      { destruct (JsMap.get (data_source d) _) eqn:Hs; [|by left].
        destruct (JsMap.get (data_target d) _) eqn:Ht; [|by right].
        destruct Hres as [_ Hres]. assert (false = true); [|done].
        apply Hres. by split. }
      rewrite (processEdge_invalid _ _ _ Hd Hmiss). simpl.
      rewrite IH by done. split; [by intros ?; split|by intros [_ ?]].
  - unfold processEdge at 1. rewrite Hd. simpl. split; [by intros [? ?]|by intros [? _]].
Qed.

(** X10. The pass raises a TypeError exactly on three kinds of payload: a
    node without [data], an edge without [data], or an edge whose two ends
    are ids of nodes of the graph and whose [source] (or whose [target],
    unless the [source] contains "FilterActivity") is not a string, which
    takes a node whose id is that same [undefined] or that same [null]; on
    every other payload it completes, whatever else is missing, and
    whichever node is selected. *)
Theorem assemble_raises_iff (merged : mergedGraph) (sel : option string) :
  is_Some (assemble merged sel) ↔ noTypeError merged = true.
Proof.
  unfold noTypeError. rewrite andb_true_iff. split.
  - intros [a Ha].
    destruct (assemble_index _ _ _ Ha) as (_ & _ & _ & Hdata).
    apply assemble_Some in Ha as (conns & st & styled & Hinit & Hp & _).
    split.
    + apply forallb_forall. intros n Hn%list_elem_of_In.
      by apply bool_decide_eq_true_2, Hdata.
    + eapply (processEdges_is_Some (merged_nodes merged)
                {| nodeConnections := conns; validEdges := []; warnings := [] |});
        [intros k; by apply initConnections_keys|by rewrite Hp].
  - intros [Hns Hes].
    assert (∀ n, n ∈ merged_nodes merged → is_Some (el_data n)) as Hdata.
    { intros n Hin. rewrite forallb_forall in Hns.
      apply list_elem_of_In, Hns in Hin. by apply bool_decide_eq_true_1 in Hin. }
    destruct (initConnections_total _ [] Hdata) as [conns Hinit].
    destruct (proj2 (processEdges_is_Some (merged_nodes merged)
                {| nodeConnections := conns; validEdges := []; warnings := [] |}
                _ (λ k, initConnections_keys _ _ k Hinit)) Hes) as [st Hp].
    unfold assemble. rewrite Hinit. simpl. rewrite Hp. simpl.
    destruct (splitNodes _ _ _) as [connected orphans] eqn:Hsplit. simpl.
    assert (is_Some (mapM styleOrphan orphans)) as [styled ->].
    { apply mapM_is_Some, Forall_forall. intros v Hv.
      replace orphans with (splitNodes (nodeConnections st) [] []).2
        in Hv by by rewrite Hsplit.
      apply splitNodes_orphan in Hv as [?%elem_of_nil|(k & c & Hkc & _ & <-)]; [done|].
      pose proof (processEdges_ok _ _ _ (initial_indexOk _ _ Hinit) Hp) as (Hnd & _ & _).
      pose proof (jsmap_elem_get _ _ _ Hnd Hkc) as Hg.
      pose proof (processEdges_node _ _ _ k Hp) as Hn. simpl in Hn.
      rewrite Hg, (initConnections_get _ _ _ k Hinit) in Hn. simpl in Hn.
      destruct (lastNodeWith k _) as [n|] eqn:Hl; [|done].
      injection Hn as ->. apply lastNodeWith_Some in Hl as [Hin _].
      unfold compose, styleOrphan. by destruct (Hdata _ Hin) as [d ->]. }
    simpl. by destruct (highlight _ _).
Qed.

(** [undefined] and [null] are different keys of the index: an edge
    without [target] does not resolve to a node whose id is [null] and is
    dropped with its warning, and the pass completes; it does resolve to a
    node without [id], and then the pass raises unless the [source] decides
    the [includes] test. *)
Example null_and_undefined_are_different_keys :
  (λ a, (edge <$> asm_validEdges a, asm_console a)) <$>
    assemble {| merged_nodes := [nodeWith Null; mkNode "FilterActivity1"];
                merged_edges := [edgeWith (Str "FilterActivity1") Undefined] |} None
    = Some ([], [InvalidEdge (Str "FilterActivity1") Undefined]) ∧
  (λ a, (edge <$> asm_validEdges a, asm_console a)) <$>
    assemble {| merged_nodes := [nodeWith Null];
                merged_edges := [edgeWith Undefined Undefined] |} None
    = Some ([], [InvalidEdge Undefined Undefined]) ∧
  (λ a, (edge <$> asm_validEdges a, asm_console a)) <$>
    assemble {| merged_nodes := [nodeWith Undefined; mkNode "FilterActivity1"];
                merged_edges := [edgeWith (Str "FilterActivity1") Undefined] |} None
    = Some ([edgeWith (Str "FilterActivity1") Undefined], []) ∧
  assemble {| merged_nodes := [nodeWith Undefined];
              merged_edges := [edgeWith Undefined Undefined] |} None = None ∧
  assemble {| merged_nodes := [nodeWith Null];
              merged_edges := [edgeWith Null Null] |} None = None.
Proof. split_and!; vm_compute; reflexivity. Qed.

(** ** What can be highlighted *)

(** X11. With a node id selected, every highlighted node other than the
    selected id itself is a node of the merged graph; and when the selected
    id has no connection (it is an orphan, or it is not in the graph at
    all) only the selected id is highlighted, and no edge. *)
Theorem highlight_stays_in_graph
    (merged : mergedGraph) (s : string) (a : assembly) :
  assemble merged (Some s) = Some a →
  s ≠ "" →
  (∀ u, u ∈ highlightedNodes a → u = Str s ∨ u ∈ dataKey <$> merged_nodes merged) ∧
  ((∀ c, JsMap.get (Str s) (asm_connections a) = Some c → totalConnections c = 0) →
   highlightedNodes a = {[ Str s ]} ∧ highlightedEdges a = ∅).
Proof.
  intros Ha Hne.
  destruct (assemble_index _ _ _ Ha) as ((_ & Hrec & Hval) & Hkeys & _).
  simpl in Hrec, Hval.
  apply assemble_Some in Ha as (conns & st & styled & _ & _ & _ & Hc & _ & _ & _ & _ & Hh & _).
  rewrite <- Hc, (highlight_truthy _ _ Hne) in Hh. injection Hh as HN HE. split.
  - intros u. rewrite HN, !elem_of_union, elem_of_singleton,
      !elem_of_list_to_set, !list_elem_of_fmap.
    destruct (JsMap.get (Str s) (asm_connections a)) as [c|] eqn:Hg; simpl.
    + destruct (Hrec _ _ Hg) as (Hout & Hin & _).
      intros [[->|(conn & -> & Hconn)]|(conn & -> & Hconn)]; [by left|right..].
      * rewrite Hin in Hconn. apply list_elem_of_omap in Hconn as (ei & Hei & Hf).
        destruct (Hval _ Hei) as (d & Hd & _ & Hs & _).
        unfold inConnFor in Hf. rewrite Hd in Hf. simpl in Hf.
        case_decide; [|done]. injection Hf as <-. simpl.
        apply list_elem_of_fmap. by apply Hkeys.
      * rewrite Hout in Hconn. apply list_elem_of_omap in Hconn as (ei & Hei & Hf).
        destruct (Hval _ Hei) as (d & Hd & _ & _ & Ht).
        unfold outConnFor in Hf. rewrite Hd in Hf. simpl in Hf.
        case_decide; [|done]. injection Hf as <-. simpl.
        apply list_elem_of_fmap. by apply Hkeys.
    + intros [[->|(conn & _ & ?%elem_of_nil)]|(conn & _ & ?%elem_of_nil)]; try done.
      by left.
  - intros Hzero. rewrite HN, HE.
    destruct (JsMap.get (Str s) (asm_connections a)) as [c|] eqn:Hg; simpl.
    + destruct (Hrec _ _ Hg) as (_ & _ & Htot).
      assert (totalConnections c = 0) as H0 by (by apply Hzero).
      rewrite H0 in Htot. symmetry in Htot. apply Nat.eq_add_0 in Htot as [Ho Hi].
      apply length_zero_iff_nil in Ho, Hi. rewrite Ho, Hi. simpl.
      split; set_solver.
    + split; set_solver.
Qed.

Lemma highlight_stays_in_graph_witness :
  ∃ a, assemble sampleGraph (Some "D") = Some a ∧
    highlightedNodes a = {[ Str "D" ]} ∧ highlightedEdges a = ∅.
Proof.
  destruct (assemble_total sampleGraph (Some "D") eq_refl) as [a Ha]. exists a.
  split; [exact Ha|].
  assert ("D" ≠ "") as Hne by discriminate.
  apply (highlight_stays_in_graph sampleGraph "D" a Ha Hne).
  intros c Hc. assert (assemble sampleGraph (Some "D") = Some a) as Ha' by exact Ha.
  vm_compute in Ha'. injection Ha' as <-. vm_compute in Hc. injection Hc as <-.
  reflexivity.
Defined.

(** ** The traversal as a breadth-first search *)

Lemma setAdd_set x l : list_to_set (setAdd x l) =@{gset string} {[ x ]} ∪ list_to_set l.
Proof.
  unfold setAdd. case_bool_decide as Hin.
  - apply set_eq. intros y. rewrite elem_of_union, elem_of_singleton, elem_of_list_to_set.
    split; [by right|]. by intros [->|?].
  - rewrite list_to_set_app_L. simpl. set_solver.
Qed.

Lemma setAdd_NoDup x l : NoDup l → NoDup (setAdd x l).
Proof.
  intros Hnd. unfold setAdd. case_bool_decide as Hin; [done|].
  apply NoDup_app. split; [done|]. split; [|apply NoDup_singleton].
  intros y Hy ->%list_elem_of_singleton. done.
Qed.

Lemma nodeIds_cons n ns :
  nodeIds (n :: ns) =
  match asTruthy (dataId n) with Some id => {[ id ]} ∪ nodeIds ns | None => nodeIds ns end.
Proof. unfold nodeIds. simpl. by destruct (asTruthy (dataId n)). Qed.

Lemma discover_fold ns vis next :
  (foldl discover (vis, next) ns).1 = vis ∪ nodeIds ns ∧
  list_to_set (foldl discover (vis, next) ns).2
    =@{gset string} list_to_set next ∪ (nodeIds ns ∖ vis) ∧
  (NoDup next → NoDup (foldl discover (vis, next) ns).2).
Proof.
  revert vis next. induction ns as [|n ns IH]; intros vis next; simpl.
  - split; [|split; [|done]].
    + unfold nodeIds. simpl. set_solver.
    + unfold nodeIds. simpl. set_solver.
  - rewrite (nodeIds_cons n ns). unfold discover at 2 4 6. simpl.
    destruct (asTruthy (dataId n)) as [id|]; [|apply IH].
    case_bool_decide as Hin.
    + destruct (IH vis next) as (H1 & H2 & H3). rewrite H1, H2.
      split; [set_solver|]. split; [set_solver|done].
    + destruct (IH ({[id]} ∪ vis) (setAdd id next)) as (H1 & H2 & H3).
      rewrite H1, H2, setAdd_set. split; [set_solver|]. split.
      * apply set_eq. intros y. rewrite !elem_of_union, !elem_of_difference,
          !elem_of_union, !elem_of_singleton.
        destruct (decide (y = id)) as [->|Hne]; tauto.
      * intros Hnd. by apply H3, setAdd_NoDup.
Qed.

Lemma expandNode_sets fetch acc x :
  acc_visited (expandNode fetch acc x) = acc_visited acc ∪ answerIds fetch x ∧
  list_to_set (nextFrontier (expandNode fetch acc x))
    =@{gset string} list_to_set (nextFrontier acc) ∪ (answerIds fetch x ∖ acc_visited acc) ∧
  (NoDup (nextFrontier acc) → NoDup (nextFrontier (expandNode fetch acc x))).
Proof.
  unfold expandNode, answerIds. destruct (fetch x) as [res|]; simpl.
  - destruct (discover_fold (orEmpty (nodes res)) (acc_visited acc) (nextFrontier acc))
      as (H1 & H2 & H3).
    destruct (foldl discover _ _) as [vis next]. simpl in *. done.
  - split; [set_solver|]. split; [set_solver|done].
Qed.

Lemma found_cons fetch x l : found fetch (x :: l) = answerIds fetch x ∪ found fetch l.
Proof. done. Qed.

Lemma found_elem fetch l k :
  k ∈ found fetch l ↔ ∃ x, x ∈ l ∧ k ∈ answerIds fetch x.
Proof.
  unfold found. rewrite elem_of_union_list. split.
  - intros (X & (x & -> & Hx)%list_elem_of_fmap & Hk). by exists x.
  - intros (x & Hx & Hk). exists (answerIds fetch x). split; [|done].
    apply list_elem_of_fmap. by exists x.
Qed.

Lemma foldl_expandNode_sets fetch acc l :
  acc_visited (foldl (expandNode fetch) acc l) = acc_visited acc ∪ found fetch l ∧
  list_to_set (nextFrontier (foldl (expandNode fetch) acc l))
    =@{gset string} list_to_set (nextFrontier acc) ∪ (found fetch l ∖ acc_visited acc) ∧
  (NoDup (nextFrontier acc) → NoDup (nextFrontier (foldl (expandNode fetch) acc l))).
Proof.
  revert acc. induction l as [|x l IH]; intros acc; simpl.
  - unfold found. simpl. split; [set_solver|]. split; [set_solver|done].
  - destruct (IH (expandNode fetch acc x)) as (H1 & H2 & H3).
    destruct (expandNode_sets fetch acc x) as (G1 & G2 & G3).
    rewrite H1, H2, G1, G2, found_cons. split; [set_solver|]. split.
    + apply set_eq. intros y. rewrite !elem_of_union, !elem_of_difference,
        !elem_of_union.
      destruct (decide (y ∈ answerIds fetch x)); tauto.
    + intros Hnd. by apply H3, G3.
Qed.

Lemma expandLevel_sets fetch arrival w :
  visited (expandLevel fetch arrival w) =
    visited w ∪ found fetch (arrival (depth w) (frontier w)) ∧
  list_to_set (frontier (expandLevel fetch arrival w))
    =@{gset string} found fetch (arrival (depth w) (frontier w)) ∖ visited w ∧
  NoDup (frontier (expandLevel fetch arrival w)).
Proof.
  unfold expandLevel. simpl.
  destruct (foldl_expandNode_sets fetch
    {| acc_extraGraph := w_extraGraph w; acc_console := w_console w;
       acc_visited := visited w; nextFrontier := [] |}
    (arrival (depth w) (frontier w))) as (H1 & H2 & H3). simpl in *.
  split; [done|]. split; [rewrite H2; set_solver|]. apply H3, NoDup_nil_2.
Qed.

Lemma expandLoop_invariant (P : walk → Prop) fetch arrival fuel maxDepth w :
  (∀ w', P w' → P (expandLevel fetch arrival w')) →
  P w → P (expandLoop fetch arrival fuel maxDepth w).
Proof.
  intros Hstep. revert w. induction fuel as [|fuel IH]; intros w Hw; simpl; [done|].
  destruct (loopGuard maxDepth w); [|done]. by apply IH, Hstep.
Qed.

Lemma expandLevel_bfsOk fetch arrival nodeId visited0 w :
  bfsOk nodeId visited0 w → bfsOk nodeId visited0 (expandLevel fetch arrival w).
Proof.
  intros (Hfirst & Hsub & Hnd & Hall).
  destruct (expandLevel_sets fetch arrival w) as (Hv & Hf & Hfn).
  assert (∀ x, x ∈ frontier (expandLevel fetch arrival w) →
               x ∈ visited (expandLevel fetch arrival w) ∧ x ∉ visited w) as Hnew.
  { intros x Hx. apply (elem_of_list_to_set (C:=gset string)) in Hx.
    rewrite Hf in Hx. rewrite Hv. set_solver. }
  assert (refetched (expandLevel fetch arrival w) =
          refetched w ++ frontier (expandLevel fetch arrival w)) as Hre.
  { unfold refetched. rewrite expandLevel_rounds.
    destruct Hfirst as [[Hr Hfr]|[rest Hr]]; rewrite Hr; simpl.
    - done.
    - rewrite !drop_0, concat_app. simpl. by rewrite app_nil_r. }
  split_and!.
  - right. rewrite expandLevel_rounds. destruct Hfirst as [[-> ->]|[rest ->]].
    + by exists [].
    + by eexists.
  - rewrite Hv. set_solver.
  - rewrite Hre. apply NoDup_app. split; [done|]. split; [|done].
    intros x Hx Hx'. destruct (Hall x Hx) as [? _]. by destruct (Hnew x Hx').
  - intros x. rewrite Hre. intros [Hx|Hx]%elem_of_app.
    + destruct (Hall x Hx). split; [|done]. rewrite Hv. set_solver.
    + destruct (Hnew x Hx). split; [done|]. set_solver.
Qed.

(** X12. The recursive expansion is a breadth-first search that fetches no
    node twice after its first round: the first round fetches the start
    node alone, and the ids fetched in the later rounds, together with
    those left in the frontier, are pairwise distinct, were all discovered
    in a response, and none of them was a node of [extraGraph] when the
    traversal started.  (Only the start node can be fetched a second time,
    when a response contains it.) *)
Theorem expansion_never_refetches
    (fetch : string → option graphData) (arrival : Z → list string → list string)
    (nodeId : string) (maxDepth : Z) (s : session) :
  let w := expandWalk fetch arrival nodeId maxDepth s in
  (rounds w = [] ∨ ∃ rest, rounds w = [nodeId] :: rest) ∧
  NoDup (refetched w) ∧
  ∀ x, x ∈ refetched w →
       x ∈ visited w ∧ x ∉ nodeIds (orEmpty (nodes (extraGraph s))).
Proof.
  intros w.
  assert (bfsOk nodeId (nodeIds (orEmpty (nodes (extraGraph s)))) w) as (H1 & _ & H3 & H4).
  { subst w. unfold expandWalk.
    apply expandLoop_invariant; [apply expandLevel_bfsOk|].
    split_and!; simpl.
    - by left.
    - done.
    - apply NoDup_nil_2.
    - by intros x ?%elem_of_nil. }
  split; [|done]. destruct H1 as [[? _]|?]; [by left|by right].
Qed.

(** ** The arrival order of the responses *)

Lemma keysOf_dedupeById X : keysOf (dedupeById X) = keysOf X.
Proof. rewrite dedupeById_fresh, keysOf_fresh. set_solver. Qed.

Lemma foundKeys_elem fetch part l k :
  k ∈ foundKeys fetch part l ↔ ∃ x, x ∈ l ∧ k ∈ answerKeys fetch part x.
Proof.
  unfold foundKeys. rewrite elem_of_union_list. split.
  - intros (X & (x & -> & Hx)%list_elem_of_fmap & Hk). by exists x.
  - intros (x & Hx & Hk). exists (answerKeys fetch part x). split; [|done].
    apply list_elem_of_fmap. by exists x.
Qed.

Lemma expandNode_keys fetch acc x :
  keysOf (orEmpty (nodes (acc_extraGraph (expandNode fetch acc x)))) =
    keysOf (orEmpty (nodes (acc_extraGraph acc))) ∪ answerKeys fetch nodes x ∧
  keysOf (orEmpty (edges (acc_extraGraph (expandNode fetch acc x)))) =
    keysOf (orEmpty (edges (acc_extraGraph acc))) ∪ answerKeys fetch edges x.
Proof.
  unfold expandNode, answerKeys. destruct (fetch x) as [res|]; simpl.
  - destruct (foldl discover _ _). simpl.
    by rewrite !keysOf_dedupeById, !keysOf_app.
  - split; set_solver.
Qed.

Lemma foldl_expandNode_keys fetch acc l :
  keysOf (orEmpty (nodes (acc_extraGraph (foldl (expandNode fetch) acc l)))) =
    keysOf (orEmpty (nodes (acc_extraGraph acc))) ∪ foundKeys fetch nodes l ∧
  keysOf (orEmpty (edges (acc_extraGraph (foldl (expandNode fetch) acc l)))) =
    keysOf (orEmpty (edges (acc_extraGraph acc))) ∪ foundKeys fetch edges l.
Proof.
  revert acc. induction l as [|x l IH]; intros acc; simpl.
  - unfold foundKeys. simpl. split; set_solver.
  - destruct (IH (expandNode fetch acc x)) as [H1 H2].
    destruct (expandNode_keys fetch acc x) as [G1 G2].
    rewrite H1, H2, G1, G2. unfold foundKeys. simpl. split; set_solver.
Qed.

Lemma found_perm fetch l1 l2 : l1 ≡ₚ l2 → found fetch l1 = found fetch l2.
Proof.
  intros Hp. apply set_eq. intros k. rewrite !found_elem.
  split; intros (x & Hx & Hk); exists x; (split; [|done]);
    [by rewrite <- Hp | by rewrite Hp].
Qed.

Lemma foundKeys_perm fetch part l1 l2 :
  l1 ≡ₚ l2 → foundKeys fetch part l1 = foundKeys fetch part l2.
Proof.
  intros Hp. apply set_eq. intros k. rewrite !foundKeys_elem.
  split; intros (x & Hx & Hk); exists x; (split; [|done]);
    [by rewrite <- Hp | by rewrite Hp].
Qed.

Lemma expandLevel_sameUpToOrder fetch arr1 arr2 w1 w2 :
  (∀ d l, arr1 d l ≡ₚ l) → (∀ d l, arr2 d l ≡ₚ l) →
  sameUpToOrder w1 w2 →
  sameUpToOrder (expandLevel fetch arr1 w1) (expandLevel fetch arr2 w2).
Proof.
  intros Ha1 Ha2 (Hv & Hd & Hf & Hr & Hn & He).
  assert (arr1 (depth w1) (frontier w1) ≡ₚ arr2 (depth w2) (frontier w2)) as Hl.
  { by rewrite Ha1, Ha2. }
  destruct (expandLevel_sets fetch arr1 w1) as (Hv1 & Hf1 & Hnd1).
  destruct (expandLevel_sets fetch arr2 w2) as (Hv2 & Hf2 & Hnd2).
  split_and!.
  - by rewrite Hv1, Hv2, Hv, (found_perm _ _ _ Hl).
  - rewrite !expandLevel_depth. by rewrite Hd.
  - apply NoDup_Permutation; [done..|]. intros x.
    rewrite <- !(elem_of_list_to_set (C:=gset string)).
    by rewrite Hf1, Hf2, Hv, (found_perm _ _ _ Hl).
  - rewrite !expandLevel_rounds. apply Forall2_app; [done|]. by constructor.
  - unfold expandLevel. simpl.
    rewrite !(proj1 (foldl_expandNode_keys _ _ _)). simpl.
    by rewrite Hn, (foundKeys_perm _ _ _ _ Hl).
  - unfold expandLevel. simpl.
    rewrite !(proj2 (foldl_expandNode_keys _ _ _)). simpl.
    by rewrite He, (foundKeys_perm _ _ _ _ Hl).
Qed.

Lemma expandLoop_sameUpToOrder fetch arr1 arr2 fuel maxDepth w1 w2 :
  (∀ d l, arr1 d l ≡ₚ l) → (∀ d l, arr2 d l ≡ₚ l) →
  sameUpToOrder w1 w2 →
  sameUpToOrder (expandLoop fetch arr1 fuel maxDepth w1)
                (expandLoop fetch arr2 fuel maxDepth w2).
Proof.
  intros Ha1 Ha2. revert w1 w2. induction fuel as [|fuel IH]; intros w1 w2 Hs; simpl;
    [done|].
  assert (loopGuard maxDepth w1 = loopGuard maxDepth w2) as ->.
  { destruct Hs as (_ & Hd & Hf & _). unfold loopGuard.
    by rewrite Hd, (Permutation_length Hf). }
  destruct (loopGuard maxDepth w2); [|done].
  by apply IH, expandLevel_sameUpToOrder.
Qed.

(** X13. The order in which the responses of a level arrive does not change
    what the recursive expansion reaches: under any two arrival orders it
    runs the same number of rounds, fetches the same ids in every round,
    ends with the same visited set and the same frontier up to order, and
    leaves the same node ids and the same edge ids in [extraGraph].  (Which
    version of an id is kept, and in which position, may differ.) *)
Theorem arrival_order_is_immaterial
    (fetch : string → option graphData)
    (arrival1 arrival2 : Z → list string → list string)
    (nodeId : string) (maxDepth : Z) (s : session) :
  (∀ level frontier, arrival1 level frontier ≡ₚ frontier) →
  (∀ level frontier, arrival2 level frontier ≡ₚ frontier) →
  sameUpToOrder (expandWalk fetch arrival1 nodeId maxDepth s)
                (expandWalk fetch arrival2 nodeId maxDepth s).
Proof.
  intros Ha1 Ha2. unfold expandWalk. apply expandLoop_sameUpToOrder; [done..|].
  by split_and!.
Qed.

Lemma arrival_order_is_immaterial_witness :
  sameUpToOrder (expandWalk flakyFetch inOrder "A" 3 (freshSession "A"))
                (expandWalk flakyFetch lastFirst "A" 3 (freshSession "A")).
Proof.
  apply arrival_order_is_immaterial.
  - intros level frontier. reflexivity.
  - intros level frontier. apply reverse_Permutation.
Defined.

(** ** Expanding a second time *)

Lemma fresh_fst arr seen : omap elementKey (fresh arr seen).*2 = (fresh arr seen).*1.
Proof.
  revert seen. induction arr as [|el arr IH]; intros seen; simpl; [done|].
  destruct (elementKey el) as [id|] eqn:Hk; [|apply IH].
  destruct (bool_decide (id ∈ seen)); [apply IH|].
  csimpl. by rewrite Hk, IH.
Qed.

Lemma fresh_nil B seen : keysOf B ⊆ list_to_set seen → fresh B seen = [].
Proof.
  induction B as [|el B IH]; simpl; [done|]. rewrite keysOf_cons.
  destruct (elementKey el) as [id|]; [|done]. intros Hsub.
  rewrite bool_decide_eq_true_2 by set_solver. apply IH. set_solver.
Qed.

Lemma dedupeById_saturated A B :
  dedupeById A = A → keysOf B ⊆ keysOf A → dedupeById (A ++ B) = A.
Proof.
  intros HA Hsub. rewrite dedupeById_app_fresh, HA, fresh_nil; [by rewrite app_nil_r|].
  rewrite <- fresh_fst. fold (keysOf (fresh A []).*2).
  rewrite keysOf_fresh. set_solver.
Qed.

Lemma nodeIds_app A B : nodeIds (A ++ B) = nodeIds A ∪ nodeIds B.
Proof. unfold nodeIds. by rewrite omap_app, list_to_set_app_L. Qed.

Lemma within_mono k k' ls more x :
  (k ≤ k')%nat → within k ls x → within k' (ls ++ more) x.
Proof.
  intros Hle (i & r & Hi & Hl & Hx). exists i, r. split; [lia|]. split; [|done].
  by apply lookup_app_l_Some.
Qed.

Lemma elem_of_concat (ls : list (list string)) x :
  x ∈ concat ls ↔ ∃ i r, ls !! i = Some r ∧ x ∈ r.
Proof.
  rewrite list_elem_of_In, in_concat. split.
  - intros (r & [i Hi]%list_elem_of_In%list_elem_of_lookup_1 & Hx%list_elem_of_In).
    by exists i, r.
  - intros (i & r & Hi%list_elem_of_lookup_2 & Hx). exists r.
    by rewrite <- !list_elem_of_In.
Qed.

Lemma answerIds_found fetch l y x :
  y ∈ l → x ∈ answerIds fetch y → x ∈ found fetch l.
Proof. intros. apply found_elem. by exists y. Qed.

Lemma answerKeys_found fetch part l y :
  y ∈ l → answerKeys fetch part y ⊆ foundKeys fetch part l.
Proof. intros Hy k Hk. apply foundKeys_elem. by exists y. Qed.

Lemma expandLevel_keys fetch arrival w :
  keysOf (orEmpty (nodes (w_extraGraph (expandLevel fetch arrival w)))) =
    keysOf (orEmpty (nodes (w_extraGraph w)))
    ∪ foundKeys fetch nodes (arrival (depth w) (frontier w)) ∧
  keysOf (orEmpty (edges (w_extraGraph (expandLevel fetch arrival w)))) =
    keysOf (orEmpty (edges (w_extraGraph w)))
    ∪ foundKeys fetch edges (arrival (depth w) (frontier w)).
Proof.
  unfold expandLevel. simpl.
  by destruct (foldl_expandNode_keys fetch
    {| acc_extraGraph := w_extraGraph w; acc_console := w_console w;
       acc_visited := visited w; nextFrontier := [] |}
    (arrival (depth w) (frontier w))) as [-> ->].
Qed.

Lemma expandLevel_levels fetch arrival w :
  levels (expandLevel fetch arrival w) =
  levels w ++ [frontier (expandLevel fetch arrival w)].
Proof. unfold levels. by rewrite expandLevel_rounds. Qed.

Lemma expandLevel_discovers fetch arrival w x :
  (∀ d l, arrival d l ≡ₚ l) →
  x ∈ found fetch (frontier w) →
  x ∈ visited w ∨ x ∈ frontier (expandLevel fetch arrival w).
Proof.
  intros Harr Hx. destruct (decide (x ∈ visited w)) as [|Hn]; [by left|right].
  destruct (expandLevel_sets fetch arrival w) as (_ & Hf & _).
  apply (elem_of_list_to_set (C:=gset string)). rewrite Hf.
  rewrite (found_perm _ _ _ (Harr _ _)). set_solver.
Qed.

Lemma expandLevel_traceOk fetch arrival nodeId g0 w :
  (∀ d l, arrival d l ≡ₚ l) →
  traceOk fetch nodeId g0 w → traceOk fetch nodeId g0 (expandLevel fetch arrival w).
Proof.
  intros Harr (H0 & Hd & Hv & Ht & Hk).
  assert (∀ x, x ∈ found fetch (frontier w) →
            x ∈ nodeIds (orEmpty (nodes g0)) ∨
            within (S (length (rounds w))) (levels (expandLevel fetch arrival w)) x)
    as Hnew.
  { intros x Hx. rewrite expandLevel_levels.
    destruct (expandLevel_discovers fetch arrival w x Harr Hx) as [Hin|Hin].
    - destruct (Hv x Hin) as [|Hw]; [by left|right].
      eapply within_mono; [|done]. lia.
    - right. exists (S (length (rounds w))), (frontier (expandLevel fetch arrival w)).
      split; [done|]. split; [|done].
      apply lookup_snoc_Some. right. split; [|done].
      unfold levels. rewrite length_app. simpl. lia. }
  destruct (expandLevel_keys fetch arrival w) as [Hkn Hke].
  unfold traceOk. rewrite expandLevel_rounds, expandLevel_depth, length_app.
  cbn [length].
  replace (length (rounds w) + 1)%nat with (S (length (rounds w))) by lia.
  split_and!.
  - destruct H0 as [[-> ->]|[rest ->]]; right; by eexists.
  - lia.
  - intros x. destruct (expandLevel_sets fetch arrival w) as (-> & _ & _).
    rewrite (found_perm _ _ _ (Harr _ _)). intros [Hin|Hin]%elem_of_union.
    + destruct (Hv x Hin) as [|Hw]; [by left|right].
      rewrite expandLevel_levels. eapply within_mono; [|done]. lia.
    + by apply Hnew.
  - intros j r y x [[Hlt Hj]|[-> <-]]%lookup_snoc_Some Hy Hx.
    + destruct (Ht j r y x Hj Hy Hx) as [|Hw]; [by left|right].
      rewrite expandLevel_levels. eapply within_mono; [|done]. lia.
    + apply Hnew. by eapply answerIds_found.
  - intros y. rewrite concat_app. cbn [concat]. rewrite app_nil_r, Hkn, Hke.
    intros [Hy|Hy]%elem_of_app.
    + destruct (Hk y Hy). split; set_solver.
    + pose proof (answerKeys_found fetch nodes _ y Hy).
      pose proof (answerKeys_found fetch edges _ y Hy).
      rewrite !(foundKeys_perm _ _ _ _ (Harr _ _)). split; set_solver.
Qed.

Lemma startWalk_traceOk fetch nodeId s :
  traceOk fetch nodeId (extraGraph s) (startWalk nodeId s).
Proof.
  unfold traceOk. simpl. split_and!.
  - by left.
  - done.
  - intros x Hx. by left.
  - intros j r y x Hj. by rewrite lookup_nil in Hj.
  - intros y Hy. by apply elem_of_nil in Hy.
Qed.

Lemma expandNode_saturated fetch acc x N E :
  dedupeById N = N → dedupeById E = E →
  orEmpty (nodes (acc_extraGraph acc)) = N →
  orEmpty (edges (acc_extraGraph acc)) = E →
  answerKeys fetch nodes x ⊆ keysOf N → answerKeys fetch edges x ⊆ keysOf E →
  orEmpty (nodes (acc_extraGraph (expandNode fetch acc x))) = N ∧
  orEmpty (edges (acc_extraGraph (expandNode fetch acc x))) = E.
Proof.
  intros HN HE Hn He. unfold expandNode, answerKeys.
  destruct (fetch x) as [res|]; simpl; [|done].
  destruct (foldl discover _ _). simpl. rewrite Hn, He. intros Hkn Hke.
  by rewrite !dedupeById_saturated.
Qed.

Lemma foldl_expandNode_saturated fetch acc l N E :
  dedupeById N = N → dedupeById E = E →
  orEmpty (nodes (acc_extraGraph acc)) = N →
  orEmpty (edges (acc_extraGraph acc)) = E →
  (∀ y, y ∈ l →
     answerKeys fetch nodes y ⊆ keysOf N ∧ answerKeys fetch edges y ⊆ keysOf E) →
  orEmpty (nodes (acc_extraGraph (foldl (expandNode fetch) acc l))) = N ∧
  orEmpty (edges (acc_extraGraph (foldl (expandNode fetch) acc l))) = E.
Proof.
  intros HN HE. revert acc. induction l as [|x l IH]; intros acc Hn He Hall; simpl;
    [done|].
  destruct (Hall x) as [Hkn Hke]; [apply list_elem_of_here|].
  destruct (expandNode_saturated fetch acc x N E HN HE Hn He Hkn Hke) as [Hn' He'].
  apply IH; [done..|]. intros y Hy. apply Hall. by apply list_elem_of_further.
Qed.

Lemma expandLoop_invariant_guarded (P : walk → Prop) fetch arrival fuel maxDepth w :
  (∀ w', P w' → loopGuard maxDepth w' = true → P (expandLevel fetch arrival w')) →
  P w → P (expandLoop fetch arrival fuel maxDepth w).
Proof.
  intros Hstep. revert w. induction fuel as [|fuel IH]; intros w Hw; simpl; [done|].
  destruct (loopGuard maxDepth w) eqn:Hg; [|done]. by apply IH, Hstep.
Qed.

Lemma expandLevel_replayOk fetch arrival nodeId g0 d1 d2 w1 w2 :
  (∀ d l, arrival d l ≡ₚ l) →
  traceOk fetch nodeId g0 w1 →
  loopGuard d1 w1 = false →
  deduped (w_extraGraph w1) →
  nodeIds (orEmpty (nodes g0)) ⊆ nodeIds (orEmpty (nodes (w_extraGraph w1))) →
  (d2 ≤ d1)%Z →
  replayOk d1 w1 w2 → loopGuard d2 w2 = true →
  replayOk d1 w1 (expandLevel fetch arrival w2).
Proof.
  intros Harr (H0 & Hd1 & Hv1 & Ht1 & Hk1) Hexit [HN HE] HV0 Hle
    (Hn & He & Hd & HV & Hl) [Hne Hlt]%loopGuard_true.
  assert (∀ y, y ∈ frontier w2 → within (length (rounds w2)) (rounds w1) y) as Hf.
  { intros y Hy. apply (Hl _ (frontier w2)); [|done|lia].
    apply lookup_snoc_Some. by right. }
  assert (∀ y, y ∈ arrival (depth w2) (frontier w2) →
     answerKeys fetch nodes y ⊆ keysOf (orEmpty (nodes (w_extraGraph w1))) ∧
     answerKeys fetch edges y ⊆ keysOf (orEmpty (edges (w_extraGraph w1)))) as Hkeys.
  { intros y Hy. rewrite (Harr _ _) in Hy. apply Hk1, elem_of_concat.
    destruct (Hf y Hy) as (i & r & _ & Hi & Hr). by exists i, r. }
  destruct (foldl_expandNode_saturated fetch
    {| acc_extraGraph := w_extraGraph w2; acc_console := w_console w2;
       acc_visited := visited w2; nextFrontier := [] |}
    (arrival (depth w2) (frontier w2)) _ _ HN HE Hn He Hkeys) as [Hn' He'].
  destruct (expandLevel_sets fetch arrival w2) as (Hv' & Hf' & _).
  unfold replayOk. rewrite expandLevel_levels, expandLevel_rounds, expandLevel_depth,
    length_app. cbn [length]. split_and!.
  - exact Hn'.
  - exact He'.
  - lia.
  - rewrite Hv'. set_solver.
  - intros k r x [[Hk Hr]|[-> <-]]%lookup_snoc_Some Hx Hkd; [by eapply Hl|].
    assert (length (levels w2) = S (length (rounds w2))) as Hlen.
    { unfold levels. rewrite length_app. simpl. lia. }
    rewrite Hlen in Hkd |- *.
    apply (elem_of_list_to_set (C:=gset string)) in Hx. rewrite Hf' in Hx.
    apply elem_of_difference in Hx as [Hx Hnv].
    apply found_elem in Hx as (y & Hy & Hx). rewrite (Harr _ _) in Hy.
    destruct (Hf y Hy) as (i & r1 & Hi & Hr1 & Hy1).
    destruct (Ht1 i r1 y x Hr1 Hy1 Hx) as [Hold|(i' & r' & Hi' & Hr' & Hx')].
    { destruct Hnv. set_solver. }
    unfold levels in Hr'. apply lookup_snoc_Some in Hr' as [[_ Hr']|[-> <-]].
    + exists i', r'. split; [lia|done].
    + apply loopGuard_false in Hexit as [Hemp|Hdeep].
      * rewrite Hemp in Hx'. by apply elem_of_nil in Hx'.
      * lia.
Qed.

Lemma startWalk_replayOk fetch nodeId g0 d1 w1 s1 :
  traceOk fetch nodeId g0 w1 →
  loopGuard d1 w1 = false →
  extraGraph s1 = w_extraGraph w1 →
  replayOk d1 w1 (startWalk nodeId s1).
Proof.
  intros (H0 & Hd1 & _) Hexit Hg. unfold replayOk, levels. simpl. rewrite Hg.
  split_and!; try done.
  intros k r x [-> <-]%list_lookup_singleton_Some ->%list_elem_of_singleton Hpos.
  destruct H0 as [[Hr Hf]|[rest Hr]].
  - apply loopGuard_false in Hexit as [Hemp|Hdeep]; [congruence|].
    rewrite Hr in Hd1. simpl in *. lia.
  - exists 0%nat, [nodeId]. rewrite Hr. split; [done|]. split; [done|].
    apply list_elem_of_here.
Qed.

(** X14. Running the recursive expansion a second time, on the same
    selected node and with the same or a smaller depth, adds nothing when
    the backend answers as before: the node and edge lists of [extraGraph]
    stay as the first run left them, and the second run only fetches nodes
    the first run fetched, whatever the arrival orders of the two runs.
    (It does not go deeper than the first run did.) *)
Theorem expanding_again_adds_nothing
    (fetch : string → option graphData) (call1 call2 : list diag * bool)
    (arrival1 arrival2 : Z → list string → list string)
    (maxDepth1 maxDepth2 : Z) (s : session) :
  (∀ level frontier, arrival1 level frontier ≡ₚ frontier) →
  (∀ level frontier, arrival2 level frontier ≡ₚ frontier) →
  (maxDepth2 ≤ maxDepth1)%Z →
  deduped (extraGraph s) →
  let s1 := expandSelectedNodeRecursively fetch call1 arrival1 maxDepth1 s in
  let s2 := expandSelectedNodeRecursively fetch call2 arrival2 maxDepth2 s1 in
  orEmpty (nodes (extraGraph s2)) = orEmpty (nodes (extraGraph s1)) ∧
  orEmpty (edges (extraGraph s2)) = orEmpty (edges (extraGraph s1)) ∧
  ∀ nodeId, asTruthy (selectedNodeId s) = Some nodeId →
    ∀ x, x ∈ concat (rounds (expandWalk fetch arrival2 nodeId maxDepth2 s1)) →
         x ∈ concat (rounds (expandWalk fetch arrival1 nodeId maxDepth1 s)).
Proof.
  intros Harr1 Harr2 Hle Hded s1 s2. subst s1 s2.
  unfold expandSelectedNodeRecursively at 2 4 5.
  destruct (asTruthy (selectedNodeId s)) as [nodeId|] eqn:Hsel; cycle 1.
  { unfold expandSelectedNodeRecursively. rewrite Hsel. done. }
  set (w1 := expandWalk fetch arrival1 nodeId maxDepth1 s).
  set (s1 := {| selectedNodeId := selectedNodeId s; extraGraph := w_extraGraph w1;
                console := _ |}).
  assert (traceOk fetch nodeId (extraGraph s) w1) as Htr.
  { unfold w1, expandWalk. apply expandLoop_invariant; [|apply startWalk_traceOk].
    intros w'. by apply expandLevel_traceOk. }
  assert (loopGuard maxDepth1 w1 = false) as Hexit.
  { unfold w1, expandWalk. apply expandLoop_exits. simpl. lia. }
  destruct (expandLoop_grows fetch arrival1 (Z.to_nat maxDepth1) maxDepth1
              (startWalk nodeId s) Hded) as [Hded1 [[more Hgrow] _]].
  fold (expandWalk fetch arrival1 nodeId maxDepth1 s) in Hded1, Hgrow.
  fold w1 in Hded1, Hgrow. simpl in Hgrow.
  assert (nodeIds (orEmpty (nodes (extraGraph s)))
          ⊆ nodeIds (orEmpty (nodes (w_extraGraph w1)))) as HV0.
  { rewrite Hgrow, nodeIds_app. set_solver. }
  assert (replayOk maxDepth1 w1 (expandWalk fetch arrival2 nodeId maxDepth2 s1)) as Hrp.
  { unfold expandWalk at 1. apply expandLoop_invariant_guarded.
    - intros w' Hw' Hg. by eapply expandLevel_replayOk.
    - by eapply startWalk_replayOk. }
  destruct Hrp as (Hn & He & _ & _ & Hl).
  unfold expandSelectedNodeRecursively. simpl. rewrite Hsel. simpl.
  split; [done|]. split; [done|].
  intros ? [= <-] x (k & r & Hk & Hx)%elem_of_concat.
  destruct (expandLoop_rounds fetch arrival2 (Z.to_nat maxDepth2) maxDepth2
              (startWalk nodeId s1)) as (rs & Hrs & _ & Hlen & _).
  fold (expandWalk fetch arrival2 nodeId maxDepth2 s1) in Hrs. simpl in Hrs.
  destruct (Hl k r x) as (i & r1 & _ & Hi & Hr1); [|done| |].
  - unfold levels. by apply lookup_app_l_Some.
  - apply lookup_lt_Some in Hk.
    change (k < length (rounds (expandWalk fetch arrival2 nodeId maxDepth2 s1)))%nat
      in Hk.
    rewrite Hrs in Hk. lia.
  - apply elem_of_concat. by exists i, r1.
Qed.

Lemma expanding_again_adds_nothing_witness :
  let s1 := expandSelectedNodeRecursively chainFetch ([], true) inOrder 3
              (freshSession "A") in
  let s2 := expandSelectedNodeRecursively chainFetch ([], true) lastFirst 2 s1 in
  orEmpty (nodes (extraGraph s2)) = orEmpty (nodes (extraGraph s1)) ∧
  orEmpty (edges (extraGraph s2)) = orEmpty (edges (extraGraph s1)).
Proof.
  intros s1 s2.
  destruct (expanding_again_adds_nothing chainFetch ([], true) ([], true)
              inOrder lastFirst 3 2 (freshSession "A")) as (Hn & He & _).
  - intros level frontier. reflexivity.
  - intros level frontier. apply reverse_Permutation.
  - lia.
  - split; reflexivity.
  - split; [exact Hn | exact He].
Defined.

(** ** Selection and view mode *)

Lemma hasActiveSelections_ticked sel :
  hasActiveSelections sel = true ↔ ∃ category objectId, ticked sel category objectId.
Proof.
  rewrite hasActiveSelections_true. unfold ticked. split.
  - intros (c & objs & o & Hc & Ho). by exists c, o, objs.
  - intros (c & o & objs & Hc & Ho). by exists c, objs, o.
Qed.

Lemma handleObjectSelect_ticked category objectId isSelected st c o :
  ticked (selectedObjects (handleObjectSelect category objectId isSelected st)) c o ↔
  if decide (c = category ∧ o = objectId) then isSelected = true
  else ticked (selectedObjects st) c o.
Proof.
  unfold ticked, handleObjectSelect. simpl.
  destruct (decide (c = category)) as [->|Hc].
  - rewrite lookup_insert_eq. destruct (decide (o = objectId)) as [->|Ho].
    + rewrite decide_True by done. split.
      * intros (objs & [= <-] & Ho). rewrite lookup_insert_eq in Ho. congruence.
      * intros ->. eexists. split; [done|]. by rewrite lookup_insert_eq.
    + rewrite decide_False by tauto. split.
      * intros (objs & [= <-] & Ho'). rewrite lookup_insert_ne in Ho' by done.
        destruct (selectedObjects st !! category) as [objs|] eqn:Hl; simpl in Ho'.
        -- by exists objs.
        -- by rewrite lookup_empty in Ho'.
      * intros (objs & Hl & Ho'). eexists. split; [done|].
        rewrite lookup_insert_ne by done. by rewrite Hl.
  - rewrite decide_False by tauto. by rewrite lookup_insert_ne.
Qed.

(** X15. What ticking or unticking a checkbox does to the selection: the
    object of the event is ticked exactly if the box now is, every other
    object stays as it was; there is an active selection afterwards exactly
    if the box was ticked or some other object is ticked; and ticking a box
    leaves show-all mode, while unticking never changes the mode. *)
Theorem handleObjectSelect_updates_one_object
    (category objectId : string) (isSelected : bool) (st : viewState) :
  let st' := handleObjectSelect category objectId isSelected st in
  (ticked (selectedObjects st') category objectId ↔ isSelected = true) ∧
  (∀ c o, ¬ (c = category ∧ o = objectId) →
     (ticked (selectedObjects st') c o ↔ ticked (selectedObjects st) c o)) ∧
  (hasActiveSelections (selectedObjects st') = true ↔
     isSelected = true ∨
     ∃ c o, ¬ (c = category ∧ o = objectId) ∧ ticked (selectedObjects st) c o) ∧
  showAllObjects st' = showAllObjects st && negb isSelected.
Proof.
  intros st'. subst st'. split_and!.
  - rewrite handleObjectSelect_ticked. by rewrite decide_True.
  - intros c o Hne. rewrite handleObjectSelect_ticked. by rewrite decide_False.
  - rewrite hasActiveSelections_ticked. split.
    + intros (c & o & Ht). apply handleObjectSelect_ticked in Ht.
      destruct (decide (c = category ∧ o = objectId)); [by left|right].
      by exists c, o.
    + intros [->|(c & o & Hne & Ht)].
      * exists category, objectId. apply handleObjectSelect_ticked.
        by rewrite decide_True.
      * exists c, o. apply handleObjectSelect_ticked. by rewrite decide_False.
  - simpl. by destruct isSelected, (showAllObjects st).
Qed.

Lemma hasActiveSelections_empty : hasActiveSelections ∅ = false.
Proof. done. Qed.

Lemma handleEvent_exclusive st ev :
  (showAllObjects st = true → hasActiveSelections (selectedObjects st) = false) →
  showAllObjects (handleEvent st ev) = true →
  hasActiveSelections (selectedObjects (handleEvent st ev)) = false.
Proof.
  intros Hinv. destruct ev as [category objectId isSelected|]; simpl.
  - destruct isSelected; simpl.
    + by destruct (showAllObjects st).
    + intros Hall. specialize (Hinv Hall).
      destruct (hasActiveSelections (<[category:=_]> _)) eqn:Hact; [|done].
      apply hasActiveSelections_ticked in Hact as (c & o & Ht).
      apply (handleObjectSelect_ticked category objectId false st) in Ht.
      destruct (decide (c = category ∧ o = objectId)); [done|].
      rewrite <- Hinv. symmetry. apply hasActiveSelections_ticked. by exists c, o.
  - destruct (showAllObjects st); simpl; [done|]. intros _.
    apply hasActiveSelections_empty.
Qed.

Lemma events_exclusive evs st :
  (showAllObjects st = true → hasActiveSelections (selectedObjects st) = false) →
  showAllObjects (foldl handleEvent st evs) = true →
  hasActiveSelections (selectedObjects (foldl handleEvent st evs)) = false.
Proof.
  revert st. induction evs as [|ev evs IH]; intros st Hinv; simpl; [done|].
  apply IH. by apply handleEvent_exclusive.
Qed.

(** X16. Whatever boxes are ticked or unticked and however often Show All
    is pressed, show-all mode and an active selection never hold together.
    So the graph effect is in one of three modes: in show-all mode it runs
    [updateGraph] as for the empty selection (left-over unticked entries
    change nothing, and the expansions are merged in); with an active
    selection it runs the focused [updateGraph]; otherwise it empties the
    graph without a request. *)
Theorem view_modes_are_exclusive
    (fetchGraphData : gmap string (gmap string bool) → option graphData)
    (events : list uiEvent) (extra : graphData) (selected : option string) :
  let st := foldl handleEvent initialView events in
  (showAllObjects st = true → hasActiveSelections (selectedObjects st) = false) ∧
  graphEffect fetchGraphData st extra selected =
    if showAllObjects st
    then Updated (updateGraph fetchGraphData ∅ true extra selected)
    else if hasActiveSelections (selectedObjects st)
    then Updated (updateGraph fetchGraphData (selectedObjects st) false extra selected)
    else Cleared.
Proof.
  intros st.
  assert (showAllObjects st = true → hasActiveSelections (selectedObjects st) = false)
    as Hex by (by apply events_exclusive).
  split; [done|]. unfold graphEffect.
  destruct (showAllObjects st) eqn:Hall.
  - rewrite orb_true_r. f_equal. unfold updateGraph, loadGraphData, mergedGraphData.
    by rewrite (Hex eq_refl), hasActiveSelections_empty.
  - rewrite orb_false_r. by destruct (hasActiveSelections (selectedObjects st)).
Qed.

(** ** The hash that groups activities *)

Lemma toInt32_eq z : ∃ k, toInt32 z = (z + 2 ^ 32 * k)%Z.
Proof.
  exists (- ((z + 2 ^ 31) `div` 2 ^ 32))%Z. unfold toInt32.
  pose proof (Z.div_mod (z + 2 ^ 31) (2 ^ 32)) as H.
  change (2 ^ 32)%Z with 4294967296%Z in *. change (2 ^ 31)%Z with 2147483648%Z in *.
  lia.
Qed.

Lemma toInt32_add_mul z k : toInt32 (z + 2 ^ 32 * k) = toInt32 z.
Proof.
  unfold toInt32. f_equal.
  replace (z + 2 ^ 32 * k + 2 ^ 31)%Z with (z + 2 ^ 31 + k * 2 ^ 32)%Z by lia.
  by rewrite Z.mod_add.
Qed.

Lemma toInt32_range z : (- 2 ^ 31 ≤ toInt32 z < 2 ^ 31)%Z.
Proof.
  unfold toInt32. pose proof (Z.mod_pos_bound (z + 2 ^ 31) (2 ^ 32)) as H.
  change (2 ^ 32)%Z with 4294967296%Z in *. change (2 ^ 31)%Z with 2147483648%Z in *.
  lia.
Qed.

Lemma toInt32_idem z : toInt32 (toInt32 z) = toInt32 z.
Proof.
  destruct (toInt32_eq z) as [k Hk].
  transitivity (toInt32 (z + 2 ^ 32 * k)); [by rewrite Hk|apply toInt32_add_mul].
Qed.

Lemma hashStep_wraps h c : hashStep (toInt32 h) c = toInt32 (31 * h + c).
Proof.
  unfold hashStep. rewrite Z.land_diag, toInt32_idem, Z.shiftl_mul_pow2 by lia.
  destruct (toInt32_eq (toInt32 h * 2 ^ 5)) as [k1 ->].
  destruct (toInt32_eq h) as [k0 ->].
  replace ((h + 2 ^ 32 * k0) * 2 ^ 5 + 2 ^ 32 * k1 - (h + 2 ^ 32 * k0) + c)%Z
    with (31 * h + c + 2 ^ 32 * (31 * k0 + k1))%Z by lia.
  apply toInt32_add_mul.
Qed.

Lemma foldl_hashStep str h :
  foldl hashStep (toInt32 h) str = toInt32 (foldl (λ h c, 31 * h + c)%Z h str).
Proof.
  revert h. induction str as [|c str IH]; intros h; simpl; [done|].
  by rewrite hashStep_wraps, IH.
Qed.

(** X17. [hashCode] is the 31-polynomial hash of the code units, wrapped
    to 32 bits once at the end, in absolute value; it lies between [0] and
    [2^31], and [2^31] itself occurs (for [polygenelubricants]), so the
    result need not fit a signed 32-bit integer; the group index derived
    from it is one of [0..4]. *)
Theorem hashCode_is_wrapped_polynomial (str : list Z) (automationId : option (list Z)) :
  hashCode str = Z.abs (toInt32 (poly31 str)) ∧
  (0 ≤ hashCode str ≤ 2 ^ 31)%Z ∧
  (0 ≤ automationIndex automationId ≤ 4)%Z ∧
  hashCode (asciiUnits "polygenelubricants") = (2 ^ 31)%Z.
Proof.
  assert (∀ l, hashCode l = Z.abs (toInt32 (poly31 l))) as Hpoly.
  { intros l. unfold hashCode, poly31. by rewrite <- foldl_hashStep. }
  assert (∀ l, 0 ≤ hashCode l ≤ 2 ^ 31)%Z as Hrange.
  { intros l. rewrite Hpoly. pose proof (toInt32_range (poly31 l)). lia. }
  split; [done|]. split; [done|]. split; [|by vm_compute].
  unfold automationIndex. destruct automationId as [[|c l]|]; [lia| |lia].
  pose proof (Hrange (c :: l)) as [Hpos _].
  pose proof (Z.rem_bound_pos (hashCode (c :: l)) 5 Hpos). lia.
Qed.

(** ** Server: the credentials of a search request *)

Lemma append_cons a p t : (String a p ++ t)%string = String a (p ++ t)%string.
Proof. reflexivity. Qed.

Lemma string_prefix_app p s : String.prefix p s = true ↔ ∃ t, s = (p ++ t)%string.
Proof.
  revert s. induction p as [|a p IH]; intros s.
  - split; [by exists s|by destruct s].
  - destruct s as [|b s]; simpl; [split; [done|by intros [t ?]]|].
    destruct (Ascii.ascii_dec a b) as [->|Hne].
    + rewrite IH. split; intros [t Ht]; exists t; rewrite append_cons in *; congruence.
    + split; [done|]. intros [t Ht]. rewrite append_cons in Ht. congruence.
Qed.

Lemma substring_all t : String.substring 0 (String.length t) t = t.
Proof. induction t as [|c t IH]; simpl; [done|]. by rewrite IH. Qed.

Lemma substring_after p t :
  String.substring (String.length p) (String.length (p ++ t)%string - String.length p)
                   (p ++ t)%string = t.
Proof.
  induction p as [|a p IH]; simpl.
  - rewrite Nat.sub_0_r. apply substring_all.
  - apply IH.
Qed.

Lemma getAccessTokenFromRequest_Some req t :
  getAccessTokenFromRequest req = Some t ↔ authorization req = Some ("Bearer " ++ t)%string.
Proof.
  unfold getAccessTokenFromRequest. split.
  - destruct (authorization req) as [h|]; simpl; [|done].
    destruct (truthy (Some h)) eqn:Htr; [|by unfold asTruthy; rewrite Htr].
    unfold asTruthy. rewrite Htr.
    destruct (String.prefix "Bearer " h) eqn:Hp; [|done].
    apply string_prefix_app in Hp as [t' ->].
    pose proof (substring_after "Bearer " t') as Hs.
    change (String.length "Bearer ") with 7%nat in Hs. rewrite Hs.
    by intros [= <-].
  - intros ->. unfold asTruthy.
    assert (truthy (Some ("Bearer " ++ t)%string) = true) as -> by done.
    rewrite (proj2 (string_prefix_app "Bearer " _)) by by exists t.
    pose proof (substring_after "Bearer " t) as Hs.
    change (String.length "Bearer ") with 7%nat in Hs. by rewrite Hs.
Qed.

(** X18. A search request gets past the 401 guard exactly if its
    [Authorization] header is [Bearer ] (capital B, one space) followed by a
    non-empty token and it has a non-empty [x-mc-subdomain] header; the
    token is then everything after the prefix, and the [Authorization]
    header the REST searches send on is the received header, unchanged. *)
Theorem searchCredentials_guard (req : request) (accessToken subdomain : string) :
  (searchCredentials req = Some (accessToken, subdomain) ↔
     authorization req = Some ("Bearer " ++ accessToken)%string ∧ accessToken ≠ "" ∧
     x_mc_subdomain req = Some subdomain ∧ subdomain ≠ "") ∧
  (searchCredentials req = Some (accessToken, subdomain) →
     authorization req = Some (forwardedAuthorization accessToken) ∧
     getAccessTokenFromRequest
       {| authorization := Some (forwardedAuthorization accessToken);
          x_mc_subdomain := Some subdomain |} = Some accessToken).
Proof.
  assert (∀ v t, asTruthy v = Some t ↔ v = Some t ∧ t ≠ "") as Htruthy.
  { intros [[|c v]|] t; unfold asTruthy; simpl; split;
      try done; try (intros [[= <-] ?]; done); intros [= <-]; done. }
  assert (searchCredentials req = Some (accessToken, subdomain) ↔
     authorization req = Some ("Bearer " ++ accessToken)%string ∧ accessToken ≠ "" ∧
     x_mc_subdomain req = Some subdomain ∧ subdomain ≠ "") as Hguard.
  { unfold searchCredentials, getSubdomainFromRequest.
    rewrite <- getAccessTokenFromRequest_Some. split.
    - destruct (asTruthy (getAccessTokenFromRequest req)) as [t|] eqn:Ht; [|done].
      destruct (asTruthy (asTruthy (x_mc_subdomain req))) as [d|] eqn:Hd; [|done].
      intros [= -> ->]. apply Htruthy in Ht as [Ht ?].
      apply Htruthy in Hd as [Hd ?]. apply Htruthy in Hd as [Hd _]. done.
    - intros (Ht & Hne & Hd & Hne').
      rewrite (proj2 (Htruthy _ accessToken)) by done.
      rewrite (proj2 (Htruthy _ subdomain)); [done|]. split; [|done].
      by apply Htruthy. }
  split; [done|]. intros (Ht & _ & _ & _)%Hguard. split; [done|].
  by apply getAccessTokenFromRequest_Some.
Qed.

Lemma beforeDot_Some s d :
  beforeDot s = Some d ↔ dotFree d = true ∧ ∃ rest, s = (d ++ String dot rest)%string.
Proof.
  revert d. induction s as [|c s IH]; intros d; simpl.
  - split; [done|]. intros [_ [rest Hr]]. by destruct d.
  - destruct (Ascii.eqb_spec c dot) as [->|Hne].
    + split.
      * intros [= <-]. split; [done|]. by exists s.
      * intros [Hfree [rest Hr]]. destruct d as [|c' d]; [done|].
        simpl in Hr, Hfree. injection Hr as <- _.
        by rewrite Ascii.eqb_refl in Hfree.
    + destruct (beforeDot s) as [d'|] eqn:Hb; simpl.
      * split.
        -- intros [= <-]. destruct (proj1 (IH d') eq_refl) as [Hfree [rest ->]].
           simpl. split; [|by exists rest].
           rewrite Hfree, andb_true_r. by apply negb_true_iff, Ascii.eqb_neq.
        -- intros [Hfree [rest Hr]]. destruct d as [|c' d]; simpl in Hr.
           { by injection Hr as -> _. }
           injection Hr as <- ->. simpl in Hfree.
           apply andb_true_iff in Hfree as [_ Hfree]. f_equal. f_equal.
           assert (Some d' = Some d) as [= ->]; [|done].
           apply IH. split; [done|]. by exists rest.
      * split; [done|]. intros [Hfree [rest Hr]]. destruct d as [|c' d]; simpl in Hr.
        { by injection Hr as -> _. }
        injection Hr as <- ->. simpl in Hfree.
        apply andb_true_iff in Hfree as [_ Hfree].
        assert (None = Some d); [|done]. apply IH. split; [done|]. by exists rest.
Qed.

(** X19. The subdomain the token exchange reports is the part of
    [AUTH_DOMAIN] before its first dot, and there is one exactly if that
    part is not empty; so for the host [/save-credentials] builds from a
    subdomain, it gives that subdomain back when the subdomain is not empty
    and has no dot. *)
Theorem subdomainOf_first_label (authDomain subdomain : string) :
  (subdomainOf authDomain = Some subdomain ↔
     subdomain ≠ "" ∧ dotFree subdomain = true ∧
     ∃ rest, authDomain = (subdomain ++ String dot rest)%string) ∧
  (subdomain ≠ "" → dotFree subdomain = true →
     subdomainOf (authHost subdomain) = Some subdomain).
Proof.
  assert (subdomainOf authDomain = Some subdomain ↔
     subdomain ≠ "" ∧ dotFree subdomain = true ∧
     ∃ rest, authDomain = (subdomain ++ String dot rest)%string) as Hiff.
  { unfold subdomainOf. split.
    - destruct (beforeDot authDomain) as [[|c d]|] eqn:Hb; [done| |done].
      intros [= <-]. split; [done|]. by apply beforeDot_Some.
    - intros (Hne & Hfree & Hrest).
      rewrite (proj2 (beforeDot_Some authDomain subdomain)) by done.
      by destruct subdomain. }
  split; [done|]. intros Hne Hfree. unfold subdomainOf.
  rewrite (proj2 (beforeDot_Some (authHost subdomain) subdomain)).
  - by destruct subdomain.
  - split; [done|]. by exists "auth.marketingcloudapis.com".
Qed.

Lemma subdomainOf_first_label_witness :
  subdomainOf (authHost "mc563885gzs27c5t9") = Some "mc563885gzs27c5t9".
Proof.
  apply (subdomainOf_first_label "" "mc563885gzs27c5t9"); [done|reflexivity].
Defined.

(** ** One hop and depth one *)

Lemma expandLevel_start fetch arrival nodeId s :
  (∀ d l, arrival d l ≡ₚ l) →
  w_extraGraph (expandLevel fetch arrival (startWalk nodeId s)) =
  match fetch nodeId with
  | Some data => mergeInto (extraGraph s) (orEmpty (nodes data)) (orEmpty (edges data))
  | None => extraGraph s
  end.
Proof.
  intros Harr. unfold expandLevel. simpl.
  rewrite (proj1 (Permutation_singleton_r _ _) (Harr 0%Z [nodeId])). simpl.
  unfold expandNode. destruct (fetch nodeId) as [data|]; simpl; [|done].
  by destruct (foldl discover _ _).
Qed.

Lemma expandSelectedNode_graph fetch call s nodeId :
  asTruthy (selectedNodeId s) = Some nodeId →
  extraGraph (expandSelectedNode fetch call s) =
  match fetch nodeId with
  | Some data => mergeInto (extraGraph s) (orEmpty (nodes data)) (orEmpty (edges data))
  | None => extraGraph s
  end.
Proof.
  intros Hsel. unfold expandSelectedNode. rewrite Hsel.
  destruct (fetch nodeId) as [data|]; simpl; [|done].
  unfold mergeInto. by rewrite !dedupeById_absorb_r.
Qed.

(** X20. The one-hop expansion and the recursive expansion agree on the
    first level: with depth 1 the recursive expansion leaves exactly the
    [extraGraph] the one-hop expansion leaves, and with a greater depth (from
    a deduplicated [extraGraph]) it leaves a graph that starts with it: the
    deeper levels only append to what one hop stores. *)
Theorem one_hop_is_depth_one
    (fetch : string → option graphData) (call1 call2 : list diag * bool)
    (arrival : Z → list string → list string) (maxDepth : Z) (s : session) :
  (∀ level frontier, arrival level frontier ≡ₚ frontier) →
  (1 ≤ maxDepth)%Z →
  deduped (extraGraph s) →
  extraGraph (expandSelectedNodeRecursively fetch call2 arrival 1 s) =
    extraGraph (expandSelectedNode fetch call1 s) ∧
  grows (extraGraph (expandSelectedNode fetch call1 s))
        (extraGraph (expandSelectedNodeRecursively fetch call2 arrival maxDepth s)).
Proof.
  intros Harr Hpos Hded.
  destruct (asTruthy (selectedNodeId s)) as [nodeId|] eqn:Hsel; cycle 1.
  { unfold expandSelectedNodeRecursively, expandSelectedNode. rewrite Hsel.
    split; [done|apply grows_refl]. }
  rewrite (expandSelectedNode_graph fetch call1 s nodeId Hsel).
  rewrite <- (expandLevel_start fetch arrival nodeId s Harr).
  assert (loopGuard maxDepth (startWalk nodeId s) = true) as Hg.
  { apply loopGuard_true. simpl. split; [done|lia]. }
  unfold expandSelectedNodeRecursively. rewrite Hsel. simpl. split.
  - done.
  - unfold expandWalk. destruct (Z.to_nat maxDepth) as [|n] eqn:Hn; [lia|].
    simpl expandLoop. rewrite Hg. apply expandLoop_grows.
    rewrite (expandLevel_start fetch arrival nodeId s Harr).
    destruct (fetch nodeId); [apply mergeInto_deduped|done].
Qed.

Lemma one_hop_is_depth_one_witness :
  extraGraph (expandSelectedNodeRecursively chainFetch ([], true) lastFirst 1
                (freshSession "A")) =
    extraGraph (expandSelectedNode chainFetch ([], true) (freshSession "A")) ∧
  grows (extraGraph (expandSelectedNode chainFetch ([], true) (freshSession "A")))
        (extraGraph (expandSelectedNodeRecursively chainFetch ([], true) lastFirst 3
                       (freshSession "A"))).
Proof.
  apply (one_hop_is_depth_one chainFetch ([], true) ([], true) lastFirst 3
           (freshSession "A")).
  - intros level frontier. apply reverse_Permutation.
  - lia.
  - split; reflexivity.
Defined.
